(** * FON: a line-oriented typed key/value format with a padded base-85 codec

    A shallow embedding of the native FON library (fon_types.hpp,
    raw_data.cpp, fon.hpp) and the properties of its codec, its line grammar
    and its chunked fan-out.

    Conventions of the embedding:
    - a [std::string] / [std::string_view] is a [list ascii] (a byte string);
    - a [std::vector<uint8_t>] is a [list Z] of values in [0, 256);
    - [uint32_t] and [size_t] arithmetic that can wrap is written with an
      explicit [mod 2^32] / [mod 2^64];
    - a C++ exception is a value of [error], carried by [result];
    - [std::unordered_map] is a [gmap]; its iteration order is the order of
      [map_to_list];
    - the [std::async] tasks of a fan-out are a pool of tasks moved one loop
      iteration at a time by an interleaving, a list of task indices;
    - a value holds its blob as the object itself where one record is
      serialized or parsed; for the save of a dump, where two values may
      point to one object, a blob is an address into a heap of objects, and
      the serializing tasks move one step of [pack] at a time. *)

From Stdlib Require Import ZArith Zbitwise Ascii String.
From stdpp Require Import gmap strings list sorting.

Set Default Proof Using "Type".

(** ** Characters and byte strings *)

Definition str (s : string) : list ascii := list_ascii_of_string s.

Definition code (c : ascii) : Z := Z.of_N (N_of_ascii c).

Definition chr (z : Z) : ascii := ascii_of_N (Z.to_N z).

(** [s[i]] on a [std::string]: the character at [i], and the terminating
    NUL at [i = s.size()]. *)
Definition char_at (s : list ascii) (i : nat) : ascii := nth i s zero.

Definition is_empty {A} (l : list A) : bool :=
  match l with [] => true | _ => false end.

(** ** Exceptions *)

(** One constructor per [throw] site of the library (the message of the
    [std::runtime_error] is given next to it), plus the [std::length_error]
    of [vector::resize]. [Diverges] marks a loop of the source that does not
    terminate on the given input. *)
Inductive error :=
  | InvalidFormat            (* Invalid format: expected type:value *)
  | EmptyValue               (* Empty value *)
  | UnsupportedArrayType     (* Unsupported array type *)
  | UnknownType              (* Unknown type *)
  | FailedToParseNumber      (* Failed to parse number *)
  | ArrayMustStart           (* Array must start with an opening bracket *)
  | StringMustStart          (* String must start with a double quote *)
  | ClosingBracketNotFound   (* Closing bracket not found *)
  | InvalidZ85Character      (* Invalid Z85 character *)
  | LengthError              (* std::length_error from vector::resize *)
  | DivisionByZero           (* integer division by zero, undefined in C++ *)
  | Diverges.

Inductive result (A : Type) :=
  | Ok (a : A)
  | Err (e : error).
Arguments Ok {A} a.
Arguments Err {A} e.

Global Instance result_ret : MRet result := λ A a, Ok a.

Global Instance result_bind : MBind result := λ A B f r,
  match r with
  | Ok a => f a
  | Err e => Err e
  end.

Global Instance result_fmap : FMap result := λ A B f r,
  match r with
  | Ok a => Ok (f a)
  | Err e => Err e
  end.

(** ** The padded base-85 codec (raw_data.cpp) *)

Module Raw.
Local Open Scope Z_scope.

(** The Z85 alphabet: 85 printable ASCII characters. *)
Definition z85_encode : list ascii :=
  str "0123456789abcdefghijklmnopqrstuvwxyzABCDEFGHIJKLMNOPQRSTUVWXYZ.-:+=^!/*?&<>()[]{}@%$#".

(** The decode table: ASCII 32-127 to 0-84, 255 = invalid. *)
Definition z85_decode : list Z :=
  [ 255; 68;  255; 84;  83;  82;  72;  255; 75;  76;  70;  65;  255; 63;  62;  69;
    0;   1;   2;   3;   4;   5;   6;   7;   8;   9;   64;  255; 73;  66;  74;  71;
    81;  36;  37;  38;  39;  40;  41;  42;  43;  44;  45;  46;  47;  48;  49;  50;
    51;  52;  53;  54;  55;  56;  57;  58;  59;  60;  61;  77;  255; 78;  67;  255;
    255; 10;  11;  12;  13;  14;  15;  16;  17;  18;  19;  20;  21;  22;  23;  24;
    25;  26;  27;  28;  29;  30;  31;  32;  33;  34;  35;  79;  255; 80;  255; 255 ].

Definition enc_char (digit : Z) : ascii := nth (Z.to_nat digit) z85_encode zero.

Definition u32 (z : Z) : Z := z mod 2 ^ 32.
Definition size_t (z : Z) : Z := z mod 2 ^ 64.

(** [std::vector<uint8_t>::max_size()]. *)
Definition vector_max_size : Z := 2 ^ 63 - 1.

Record RawData := mkRawData {
  data_ : list Z;
  encoded_ : list ascii
}.

(** The three constructors. *)
Definition RawData_default : RawData := mkRawData [] [].
Definition RawData_of_data (data : list Z) : RawData := mkRawData data [].
Definition RawData_of_encoded (encoded : list ascii) : RawData := mkRawData [] encoded.

Definition is_packed (r : RawData) : bool := negb (is_empty (encoded_ r)).
Definition is_unpacked (r : RawData) : bool := negb (is_empty (data_ r)).

Definition byte_at (d : list Z) (i : nat) : Z := nth i d 0.

(** The five stores of one group:
    [encoded_[write_pos + 4] = z85_encode[value % 85]; value /= 85; ...
     encoded_[write_pos] = z85_encode[value]]. *)
Definition put_group (enc : list ascii) (write_pos : nat) (value : Z) : list ascii :=
  let enc := <[(write_pos + 4)%nat := enc_char (value mod 85)]> enc in
  let value := value / 85 in
  let enc := <[(write_pos + 3)%nat := enc_char (value mod 85)]> enc in
  let value := value / 85 in
  let enc := <[(write_pos + 2)%nat := enc_char (value mod 85)]> enc in
  let value := value / 85 in
  let enc := <[(write_pos + 1)%nat := enc_char (value mod 85)]> enc in
  let value := value / 85 in
  <[write_pos := enc_char value]> enc.

(** The big-endian word of a full block at [offset]. *)
Definition word_at (d : list Z) (offset : nat) : Z :=
  Z.lor (Z.lor (Z.lor (u32 (Z.shiftl (byte_at d offset) 24))
                      (u32 (Z.shiftl (byte_at d (offset + 1)) 16)))
               (u32 (Z.shiftl (byte_at d (offset + 2)) 8)))
        (byte_at d (offset + 3)).

(** The loop over the full 4-byte blocks; block [i] is written at
    [write_pos = 5 * i]. *)
Definition pack_full_blocks (d : list Z) (full_blocks : nat) (enc : list ascii) : list ascii :=
  foldl (λ enc i, put_group enc (5 * i) (word_at d (i * 4))) enc (seq 0 full_blocks).

(** The word of the final partial group: the [remaining] bytes shifted in,
    then [4 - remaining] shifts by eight bits. *)
Definition tail_word (d : list Z) (offset remaining : nat) : Z :=
  let value := foldl (λ value i, Z.lor (u32 (Z.shiftl value 8)) (byte_at d (offset + i)))
                     0 (seq 0 remaining) in
  foldl (λ value _, u32 (Z.shiftl value 8)) value (seq remaining (4 - remaining)).

Definition pack (r : RawData) : RawData :=
  if negb (is_empty (encoded_ r)) || is_empty (data_ r) then r
  else
    let d := data_ r in
    let input_len := length d in
    let padding := ((4 - input_len `mod` 4) `mod` 4)%nat in
    let padded_len := (input_len + padding)%nat in
    let output_len := ((padded_len `div` 4) * 5)%nat in
    let output_len := if (0 <? padding)%nat then (output_len + 1)%nat else output_len in
    let enc := replicate output_len zero in
    let full_blocks := (input_len `div` 4)%nat in
    let enc := pack_full_blocks d full_blocks enc in
    let write_pos := (5 * full_blocks)%nat in
    let remaining := (input_len `mod` 4)%nat in
    let enc :=
      if (0 <? remaining)%nat then
        let value := tail_word d (full_blocks * 4) remaining in
        let enc := put_group enc write_pos value in
        <[(write_pos + 5)%nat := chr (code "0" + Z.of_nat padding)]> enc
      else enc in
    mkRawData [] enc.

(** The inner loop of [unpack]: five symbols accumulated into a
    [uint32_t], [value = value * 85 + decoded]. *)
Definition decode_symbol (c : ascii) : result Z :=
  if (code c <? 32) || (127 <? code c) then Err InvalidZ85Character
  else
    let decoded := nth (Z.to_nat (code c - 32)) z85_decode 255 in
    if decoded =? 255 then Err InvalidZ85Character else Ok decoded.

Definition decode_group (enc : list ascii) (i : nat) : result Z :=
  foldl (λ acc j, value ← acc; decoded ← decode_symbol (char_at enc (i + j));
                  Ok (u32 (value * 85 + decoded)))
        (Ok 0) (seq 0 5).

(** [if (write_pos < output_len) data_[write_pos++] = b]. *)
Definition put_byte (output_len : nat) (st : list Z * nat) (b : Z) : list Z * nat :=
  let '(d, write_pos) := st in
  if (write_pos <? output_len)%nat then (<[write_pos := b]> d, S write_pos) else st.

Definition put_word (output_len : nat) (st : list Z * nat) (value : Z) : list Z * nat :=
  let st := put_byte output_len st (Z.land (Z.shiftr value 24) 255) in
  let st := put_byte output_len st (Z.land (Z.shiftr value 16) 255) in
  let st := put_byte output_len st (Z.land (Z.shiftr value 8) 255) in
  put_byte output_len st (Z.land value 255).

(** The outer loop [for (i = 0; i < len; i += 5)], over the group starts;
    it returns the bytes written so far and the exception, if one was
    thrown. *)
Fixpoint unpack_groups (enc : list ascii) (output_len : nat) (starts : list nat)
    (st : list Z * nat) : list Z * option error :=
  match starts with
  | [] => (st.1, None)
  | i :: starts =>
      match decode_group enc i with
      | Err e => (st.1, Some e)
      | Ok value => unpack_groups enc output_len starts (put_word output_len st value)
      end
  end.

Definition group_starts (len : nat) : list nat :=
  (λ k, 5 * k)%nat <$> seq 0 ((len + 4) `div` 5).

(** [unpack] as a state transformer: the object after the call, and the
    exception the call ended with, if any. An exception leaves [data_] as
    resized and written so far and [encoded_] untouched. *)
Definition unpack_run (r : RawData) : RawData * option error :=
  if negb (is_empty (data_ r)) || is_empty (encoded_ r) then (r, None)
  else
    let enc := encoded_ r in
    let len := length enc in
    let last := char_at enc (len - 1) in
    let has_padding := (code "1" <=? code last) && (code last <=? code "3") in
    let padding := if has_padding then code last - code "0" else 0 in
    let len := if has_padding then (len - 1)%nat else len in
    let output_len := size_t (Z.of_nat (len `div` 5) * 4 - padding) in
    if vector_max_size <? output_len then (r, Some LengthError)
    else
      let output_len := Z.to_nat output_len in
      let '(d, exn) := unpack_groups enc output_len (group_starts len)
                                     (replicate output_len 0, 0%nat) in
      match exn with
      | Some e => (mkRawData d enc, Some e)
      | None => (mkRawData d [], None)
      end.

(** The object after the call. *)
Definition unpack_state (r : RawData) : RawData := (unpack_run r).1.

(** The call as a fallible function. *)
Definition unpack (r : RawData) : result RawData :=
  match unpack_run r with
  | (r', None) => Ok r'
  | (_, Some e) => Err e
  end.

End Raw.

(** ** [pack] one step at a time (raw_data.cpp) *)

Module PackSteps.
Import Raw.

(** Where a call of [pack] stands between two of its steps on its object:
    before the guard, before [data_.size()], before [encoded_.resize],
    before block [i] of the loop over the full blocks, before the partial
    group, before [data_.clear()], and after its return, where the caller
    reads [encoded()]. The length read from [data_] is a local of the
    call. The two tests of the guard are one step, and so are the reads
    and the stores of one group of the loop: another task can come in
    between any two steps, not inside one. *)
Inductive pack_pc :=
  | AtGuard
  | AtSize
  | AtResize (input_len : nat)
  | AtBlock (input_len i : nat)
  | AtTail (input_len : nat)
  | AtClear
  | Returned.

Definition padding_of (input_len : nat) : nat := (4 - input_len `mod` 4) `mod` 4.

Definition output_len_of (input_len : nat) : nat :=
  let padding := padding_of input_len in
  let padded_len := input_len + padding in
  let output_len := (padded_len `div` 4) * 5 in
  if 0 <? padding then output_len + 1 else output_len.

(** [std::string::resize(n)]: cut, or filled up with NUL characters. *)
Definition resize (s : list ascii) (n : nat) : list ascii :=
  take n s ++ replicate (n - length s) zero.

(** After the loop over the full blocks: [if (remaining > 0)]. *)
Definition after_blocks (input_len : nat) : pack_pc :=
  if 0 <? input_len `mod` 4 then AtTail input_len else AtClear.

(** The test [i < full_blocks] of the loop. *)
Definition block_or_after (input_len i : nat) : pack_pc :=
  if i <? input_len `div` 4 then AtBlock input_len i else after_blocks input_len.

Definition returned (pc : pack_pc) : bool :=
  match pc with
  | Returned => true
  | _ => false
  end.

(** One step, with the private computation up to the next one. An index
    out of range, which only a racing [clear] or [resize] brings about, reads
    0 and stores nothing. *)
Definition pack_step (pc : pack_pc) (r : RawData) : pack_pc * RawData :=
  match pc with
  | AtGuard =>
      if negb (is_empty (encoded_ r)) || is_empty (data_ r) then (Returned, r)
      else (AtSize, r)
  | AtSize => (AtResize (length (data_ r)), r)
  | AtResize input_len =>
      (block_or_after input_len 0,
       mkRawData (data_ r) (resize (encoded_ r) (output_len_of input_len)))
  | AtBlock input_len i =>
      (block_or_after input_len (S i),
       mkRawData (data_ r) (put_group (encoded_ r) (5 * i) (word_at (data_ r) (i * 4))))
  | AtTail input_len =>
      let full_blocks := input_len `div` 4 in
      let write_pos := 5 * full_blocks in
      let value := tail_word (data_ r) (full_blocks * 4) (input_len `mod` 4) in
      let enc := put_group (encoded_ r) write_pos value in
      (AtClear,
       mkRawData (data_ r)
         (<[write_pos + 5 := chr (code "0" + Z.of_nat (padding_of input_len))]> enc))
  | AtClear => (Returned, mkRawData [] (encoded_ r))
  | Returned => (Returned, r)
  end.

End PackSteps.

(** ** The line grammar (fon.hpp) *)

(** *** Characters of the grammar *)

Definition dquote : ascii := "034"%char.
Definition backslash : ascii := "092"%char.
Definition char_n : ascii := "010"%char.   (* newline *)
Definition char_r : ascii := "013"%char.   (* carriage return *)
Definition char_t : ascii := "009"%char.   (* tab *)
Definition char_b : ascii := "008"%char.   (* backspace *)
Definition char_f : ascii := "012"%char.   (* form feed *)

Infix "=?" := Ascii.eqb : char_scope.

(** [s.find(c)]: the index of the first [c], [npos] as [None]. *)
Fixpoint find_char (c : ascii) (s : list ascii) : option nat :=
  match s with
  | [] => None
  | x :: s' => if (x =? c)%char then Some 0 else S <$> find_char c s'
  end.

(** [s.substr(pos, count)], for [pos <= s.size()]. *)
Definition substr (s : list ascii) (pos count : nat) : list ascii :=
  take count (drop pos s).

(** The loops [if (i > 0) out += ','; out += item] of the serializer. *)
Fixpoint comma_join_from (first : bool) (items : list (list ascii)) : list ascii :=
  match items with
  | [] => []
  | item :: items' =>
      (if first then [] else [","%char]) ++ item ++ comma_join_from false items'
  end.

Definition comma_join (items : list (list ascii)) : list ascii :=
  comma_join_from true items.

(** *** Quoted strings *)

Definition hex_upper (n : Z) : ascii :=
  nth (Z.to_nat n) (str "0123456789ABCDEF") zero.

(** [snprintf(buf, 7, "\\u%04X", c)] for an unsigned char [c]. *)
Definition u_escape (c : ascii) : list ascii :=
  [backslash; "u"%char;
   hex_upper (code c / 4096 mod 16); hex_upper (code c / 256 mod 16);
   hex_upper (code c / 16 mod 16); hex_upper (code c mod 16)]%Z.

(** The [switch (c)] of [serialize_string]. *)
Definition escape_char (c : ascii) : list ascii :=
  if (c =? dquote)%char then [backslash; dquote]
  else if (c =? backslash)%char then [backslash; backslash]
  else if (c =? char_n)%char then [backslash; "n"%char]
  else if (c =? char_r)%char then [backslash; "r"%char]
  else if (c =? char_t)%char then [backslash; "t"%char]
  else if (c =? char_b)%char then [backslash; "b"%char]
  else if (c =? char_f)%char then [backslash; "f"%char]
  else if (code c <? 32)%Z then u_escape c
  else [c].

(** [serialize_string(out, str)]: the text appended to [out]. *)
Definition serialize_string (s : list ascii) : list ascii :=
  [dquote] ++ concat (escape_char <$> s) ++ [dquote].

(** The scan for the closing quote, started at [end_quote = 1]:
    the number of characters stepped over before the loop breaks at a quote
    whose preceding character [prev] is not a backslash, or runs off the
    end. *)
Fixpoint scan_end_quote (prev : ascii) (rest : list ascii) : nat :=
  match rest with
  | [] => 0
  | c :: rest' =>
      if (c =? dquote)%char && negb (prev =? backslash)%char then 0
      else S (scan_end_quote c rest')
  end.

(** The [switch (content[i])] after a backslash. *)
Definition unescape_char (c : ascii) : ascii :=
  if (c =? dquote)%char then dquote
  else if (c =? backslash)%char then backslash
  else if (c =? "n")%char then char_n
  else if (c =? "r")%char then char_r
  else if (c =? "t")%char then char_t
  else if (c =? "b")%char then char_b
  else if (c =? "f")%char then char_f
  else c.

(** The expansion loop: a backslash that has a successor consumes it; a
    final backslash is copied. *)
Fixpoint unescape (content : list ascii) : list ascii :=
  match content with
  | [] => []
  | c :: rest =>
      if (c =? backslash)%char then
        match rest with
        | [] => [c]
        | e :: rest' => unescape_char e :: unescape rest'
        end
      else c :: unescape rest
  end.

(** [if (consumed < data.size() && data[consumed] == ',') ++consumed]. *)
Definition skip_comma (data : list ascii) (consumed : nat) : nat :=
  if (consumed <? length data) && (char_at data consumed =? ",")%char
  then S consumed else consumed.

(** [parse_string(data)]; its callers pass a non-empty [data]. *)
Definition parse_string (data : list ascii) : result (list ascii * nat) :=
  if negb (char_at data 0 =? dquote)%char then Err StringMustStart
  else
    let end_quote := S (scan_end_quote (char_at data 0) (drop 1 data)) in
    let content := substr data 1 (end_quote - 1) in
    match find_char backslash content with
    | None => Ok (content, skip_comma data (end_quote + 1))
    | Some _ => Ok (unescape content, skip_comma data (end_quote + 1))
    end.

(** *** Numbers: the standard library's [to_chars] and [from_chars] *)

(** The integer types the templates are instantiated at. *)
Inductive int_type := UInt8 | Int16 | Int32 | UInt32 | Int64 | UInt64.

Definition is_signed (T : int_type) : bool :=
  match T with
  | Int16 | Int32 | Int64 => true
  | UInt8 | UInt32 | UInt64 => false
  end.

Definition min_value (T : int_type) : Z :=
  match T with
  | Int16 => - 2 ^ 15
  | Int32 => - 2 ^ 31
  | Int64 => - 2 ^ 63
  | UInt8 | UInt32 | UInt64 => 0
  end.

Definition max_value (T : int_type) : Z :=
  match T with
  | UInt8 => 2 ^ 8 - 1
  | Int16 => 2 ^ 15 - 1
  | Int32 => 2 ^ 31 - 1
  | UInt32 => 2 ^ 32 - 1
  | Int64 => 2 ^ 63 - 1
  | UInt64 => 2 ^ 64 - 1
  end.

Definition in_range (T : int_type) (v : Z) : Prop :=
  (min_value T ≤ v ≤ max_value T)%Z.

Definition digit_char (d : Z) : ascii := chr (48 + d).

Definition is_digit (c : ascii) : bool :=
  (48 <=? code c)%Z && (code c <=? 57)%Z.

Definition digit_value (c : ascii) : Z := (code c - 48)%Z.

(** The decimal digits of [n >= 0], most significant first, pushed in
    front of [acc]. *)
Fixpoint digits_from (fuel : nat) (n : Z) (acc : list ascii) : list ascii :=
  match fuel with
  | 0 => acc
  | S fuel' =>
      let acc := digit_char (n mod 10) :: acc in
      if (n <? 10)%Z then acc else digits_from fuel' (n / 10) acc
  end.

Definition decimal (n : Z) : list ascii :=
  digits_from (S (Z.to_nat (Z.log2 n))) n [].

(** [std::to_chars(first, last, value)] for an integer [value]: the
    decimal digits without leading zeros, after a minus sign when the value
    is negative. *)
Definition to_chars_int (v : Z) : list ascii :=
  if (v <? 0)%Z then "-"%char :: decimal (- v) else decimal v.

Inductive errc := errc_ok | invalid_argument | result_out_of_range.

(** The longest prefix of digits. *)
Fixpoint span_digits (s : list ascii) : list ascii :=
  match s with
  | [] => []
  | c :: s' => if is_digit c then c :: span_digits s' else []
  end.

Definition digits_value (ds : list ascii) : Z :=
  foldl (λ acc c, acc * 10 + digit_value c)%Z 0%Z ds.

(** [std::from_chars(first, last, value)] for an integer type [T], base
    ten: the pattern is a minus sign (signed types only) and a non-empty
    run of digits; no white space, no plus sign. The answer is the value
    (meaningful when [ec] is [errc_ok]), the offset of [ptr] and [ec]. *)
Definition from_chars_int (T : int_type) (data : list ascii) : Z * nat * errc :=
  let negative := is_signed T && (char_at data 0 =? "-")%char && negb (is_empty data) in
  let ds := span_digits (if negative then drop 1 data else data) in
  if is_empty ds then (0%Z, 0, invalid_argument)
  else
    let v := if negative then (- digits_value ds)%Z else digits_value ds in
    let ptr := if negative then S (length ds) else length ds in
    if (v <? min_value T)%Z || (max_value T <? v)%Z then (0%Z, ptr, result_out_of_range)
    else (v, ptr, errc_ok).

(** The floating-point types and the three library functions used on them.
    [from_chars] answers [None] when its [ec] is not [errc{}]; a library
    without floating-point [from_chars] (the block is then compiled out) is
    the instance that always answers [None]. *)
Class FloatLib := {
  float : Type;
  double : Type;
  to_chars_float : float → list ascii;
  from_chars_float : list ascii → option (float * nat);
  strtof : list ascii → float;
  to_chars_double : double → list ascii;
  from_chars_double : list ascii → option (double * nat);
  strtod : list ascii → double
}.

(** *** Values, records and dumps (fon_types.hpp) *)

Section Fon.
Context `{FloatLib}.

(** The global switch [Fon::deserialize_raw_unpack]. *)
Variable deserialize_raw_unpack : bool.

(** [FonValue]: the alternatives of the variant, in its order. The raw
    alternative is a shared pointer, [None] when null. *)
Inductive FonValue :=
  | VByte (v : Z)
  | VShort (v : Z)
  | VInt (v : Z)
  | VUInt (v : Z)
  | VLong (v : Z)
  | VULong (v : Z)
  | VFloat (v : float)
  | VDouble (v : double)
  | VBool (v : bool)
  | VString (v : list ascii)
  | VRaw (v : option Raw.RawData)
  | VByteArray (v : list Z)
  | VShortArray (v : list Z)
  | VIntArray (v : list Z)
  | VUIntArray (v : list Z)
  | VLongArray (v : list Z)
  | VULongArray (v : list Z)
  | VFloatArray (v : list float)
  | VDoubleArray (v : list double)
  | VBoolArray (v : list bool)
  | VStringArray (v : list (list ascii)).

Definition TYPE_BYTE : ascii := "e".
Definition TYPE_SHORT : ascii := "t".
Definition TYPE_INT : ascii := "i".
Definition TYPE_UINT : ascii := "u".
Definition TYPE_LONG : ascii := "l".
Definition TYPE_ULONG : ascii := "g".
Definition TYPE_FLOAT : ascii := "f".
Definition TYPE_DOUBLE : ascii := "d".
Definition TYPE_BOOL : ascii := "b".
Definition TYPE_STRING : ascii := "s".
Definition TYPE_RAW : ascii := "r".

(** [FonCollection]: [add] is [data_[key] = value]. *)
Definition FonCollection : Type := gmap (list ascii) FonValue.

Definition collection_add (key : list ascii) (value : FonValue)
    (c : FonCollection) : FonCollection := <[key := value]> c.

(** [FonDump]: ids are [uint64_t]. *)
Definition FonDump : Type := gmap N FonCollection.

Definition dump_add (id : N) (c : FonCollection) (d : FonDump) : FonDump :=
  <[id := c]> d.

(** *** Serialization *)

Definition get_type_char (value : FonValue) : ascii :=
  match value with
  | VByte _ => TYPE_BYTE
  | VShort _ => TYPE_SHORT
  | VInt _ => TYPE_INT
  | VUInt _ => TYPE_UINT
  | VLong _ => TYPE_LONG
  | VULong _ => TYPE_ULONG
  | VFloat _ => TYPE_FLOAT
  | VDouble _ => TYPE_DOUBLE
  | VBool _ => TYPE_BOOL
  | VString _ => TYPE_STRING
  | VRaw _ => TYPE_RAW
  | VFloatArray _ => TYPE_FLOAT
  | VDoubleArray _ => TYPE_DOUBLE
  | VIntArray _ => TYPE_INT
  | VByteArray _ => TYPE_BYTE
  | VShortArray _ => TYPE_SHORT
  | VUIntArray _ => TYPE_UINT
  | VLongArray _ => TYPE_LONG
  | VULongArray _ => TYPE_ULONG
  | VBoolArray _ => TYPE_BOOL
  | VStringArray _ => TYPE_STRING
  end.

(** [serialize_array(out, arr, type_char)], over the text of the
    elements. *)
Definition serialize_array (texts : list (list ascii)) : list ascii :=
  ["["%char] ++ comma_join texts ++ ["]"%char].

Definition bool_char (b : bool) : ascii := if b then "1"%char else "0"%char.

(** [serialize_value(out, value)]: the text appended to [out], and the
    value after the call. Only a raw blob changes: it is packed in place
    (through the [const_cast]). *)
Definition serialize_value (value : FonValue) : list ascii * FonValue :=
  match value with
  | VByte v | VShort v | VInt v | VUInt v | VLong v | VULong v =>
      (to_chars_int v, value)
  | VFloat v => (to_chars_float v, value)
  | VDouble v => (to_chars_double v, value)
  | VBool v => ([bool_char v], value)
  | VString v => (serialize_string v, value)
  | VRaw None => ([dquote; dquote], value)
  | VRaw (Some raw) =>
      let raw := Raw.pack raw in
      ([dquote] ++ Raw.encoded_ raw ++ [dquote], VRaw (Some raw))
  | VFloatArray v => (serialize_array (to_chars_float <$> v), value)
  | VDoubleArray v => (serialize_array (to_chars_double <$> v), value)
  | VIntArray v | VByteArray v | VShortArray v
  | VUIntArray v | VLongArray v | VULongArray v =>
      (serialize_array (to_chars_int <$> v), value)
  | VBoolArray v => (serialize_array ((λ b, [bool_char b]) <$> v), value)
  | VStringArray v => (serialize_array (serialize_string <$> v), value)
  end.

(** The text of one entry: [key = tag : value]. *)
Definition serialize_entry (kv : list ascii * FonValue) : list ascii :=
  kv.1 ++ ["="%char] ++ [get_type_char kv.2] ++ [":"%char] ++ (serialize_value kv.2).1.

(** The loop of [serialize_to_string], with its [first] flag. *)
Fixpoint serialize_entries (first : bool) (entries : list (list ascii * FonValue))
    : list ascii :=
  match entries with
  | [] => []
  | kv :: entries' =>
      (if first then [] else [","%char]) ++ serialize_entry kv
        ++ serialize_entries false entries'
  end.

(** [serialize_to_string(collection)]: the line, and the collection after
    the call. *)
Definition serialize_to_string (collection : FonCollection) : list ascii * FonCollection :=
  (serialize_entries true (map_to_list collection),
   (λ value, (serialize_value value).2) <$> collection).

(** *** Parsing *)

Definition is_value_end (c : ascii) : bool :=
  (c =? ",")%char || (c =? "]")%char || (c =? char_r)%char || (c =? char_n)%char.

Fixpoint find_value_end (data : list ascii) : nat :=
  match data with
  | [] => 0
  | c :: data' => if is_value_end c then 0 else S (find_value_end data')
  end.

(** The loop of [find_closing_bracket] from index [i] on; [prev] is
    [data[i - 1]], [None] at [i = 0]. The answer is relative to [i]. *)
Fixpoint closing_bracket_from (prev : option ascii) (depth : Z) (in_string : bool)
    (data : list ascii) : option nat :=
  match data with
  | [] => None
  | c :: data' =>
      if (c =? dquote)%char
         && match prev with None => true | Some p => negb (p =? backslash)%char end
      then S <$> closing_bracket_from (Some c) depth (negb in_string) data'
      else if negb in_string then
        if (c =? "[")%char then S <$> closing_bracket_from (Some c) (depth + 1) in_string data'
        else if (c =? "]")%char then
          if (depth - 1 =? 0)%Z then Some 0
          else S <$> closing_bracket_from (Some c) (depth - 1) in_string data'
        else S <$> closing_bracket_from (Some c) depth in_string data'
      else S <$> closing_bracket_from (Some c) depth in_string data'
  end.

Definition find_closing_bracket (data : list ascii) : result nat :=
  match closing_bracket_from None 0 false data with
  | Some i => Ok i
  | None => Err ClosingBracketNotFound
  end.

(** [parse_number<T>] at an integer type. *)
Definition parse_number_int (T : int_type) (data : list ascii) : result (Z * nat) :=
  match from_chars_int T data with
  | (value, ptr, errc_ok) => Ok (value, ptr)
  | _ => Err FailedToParseNumber
  end.

(** [parse_number<float>] and [parse_number<double>]. *)
Definition parse_number_float (data : list ascii) : result (float * nat) :=
  match from_chars_float data with
  | Some (value, ptr) => Ok (value, ptr)
  | None =>
      let end_pos := find_value_end data in
      Ok (strtof (substr data 0 end_pos), end_pos)
  end.

Definition parse_number_double (data : list ascii) : result (double * nat) :=
  match from_chars_double data with
  | Some (value, ptr) => Ok (value, ptr)
  | None =>
      let end_pos := find_value_end data in
      Ok (strtod (substr data 0 end_pos), end_pos)
  end.

(** The loop of [parse_array] over [content.substr(pos)]. An iteration
    that neither consumes a character nor skips a comma repeats for ever
    (the vector grows until memory runs out): [Diverges]. *)
Fixpoint parse_elements {T} (parse_number : list ascii → result (T * nat))
    (fuel : nat) (remaining : list ascii) : result (list T) :=
  match fuel with
  | 0 => Err Diverges
  | S fuel' =>
      if is_empty remaining then Ok []
      else
        '(value, consumed) ← parse_number remaining;
        let pos := skip_comma remaining consumed in
        if (pos =? 0)%nat then Err Diverges
        else
          values ← parse_elements parse_number fuel' (drop pos remaining);
          Ok (value :: values)
  end.

(** [parse_array<T>(data, type_char)]. *)
Definition parse_array {T} (parse_number : list ascii → result (T * nat))
    (data : list ascii) : result (list T * nat) :=
  if negb (char_at data 0 =? "[")%char then Err ArrayMustStart
  else
    close ← find_closing_bracket data;
    let content := substr data 1 (close - 1) in
    values ← parse_elements parse_number (S (length content)) content;
    Ok (values, skip_comma data (close + 1)).

(** [parse_value(data, type_char)]. *)
Definition parse_value (data : list ascii) (type_char : ascii) : result (FonValue * nat) :=
  if is_empty data then Err EmptyValue
  else if (char_at data 0 =? "[")%char then
    if (type_char =? TYPE_BYTE)%char then
      '(v, c) ← parse_array (parse_number_int UInt8) data; Ok (VByteArray v, c)
    else if (type_char =? TYPE_SHORT)%char then
      '(v, c) ← parse_array (parse_number_int Int16) data; Ok (VShortArray v, c)
    else if (type_char =? TYPE_INT)%char then
      '(v, c) ← parse_array (parse_number_int Int32) data; Ok (VIntArray v, c)
    else if (type_char =? TYPE_UINT)%char then
      '(v, c) ← parse_array (parse_number_int UInt32) data; Ok (VUIntArray v, c)
    else if (type_char =? TYPE_LONG)%char then
      '(v, c) ← parse_array (parse_number_int Int64) data; Ok (VLongArray v, c)
    else if (type_char =? TYPE_ULONG)%char then
      '(v, c) ← parse_array (parse_number_int UInt64) data; Ok (VULongArray v, c)
    else if (type_char =? TYPE_FLOAT)%char then
      '(v, c) ← parse_array parse_number_float data; Ok (VFloatArray v, c)
    else if (type_char =? TYPE_DOUBLE)%char then
      '(v, c) ← parse_array parse_number_double data; Ok (VDoubleArray v, c)
    else Err UnsupportedArrayType
  else if (type_char =? TYPE_STRING)%char then
    '(s, consumed) ← parse_string data; Ok (VString s, consumed)
  else if (type_char =? TYPE_RAW)%char then
    '(s, consumed) ← parse_string data;
    let raw := Raw.RawData_of_encoded s in
    raw ← (if deserialize_raw_unpack then Raw.unpack raw else Ok raw);
    Ok (VRaw (Some raw), consumed)
  else
    let end_ := find_value_end data in
    let value_str := substr data 0 end_ in
    let consumed := skip_comma data end_ in
    if (type_char =? TYPE_BYTE)%char then
      '(v, c) ← parse_number_int UInt8 value_str; Ok (VByte v, consumed)
    else if (type_char =? TYPE_SHORT)%char then
      '(v, c) ← parse_number_int Int16 value_str; Ok (VShort v, consumed)
    else if (type_char =? TYPE_INT)%char then
      '(v, c) ← parse_number_int Int32 value_str; Ok (VInt v, consumed)
    else if (type_char =? TYPE_UINT)%char then
      '(v, c) ← parse_number_int UInt32 value_str; Ok (VUInt v, consumed)
    else if (type_char =? TYPE_LONG)%char then
      '(v, c) ← parse_number_int Int64 value_str; Ok (VLong v, consumed)
    else if (type_char =? TYPE_ULONG)%char then
      '(v, c) ← parse_number_int UInt64 value_str; Ok (VULong v, consumed)
    else if (type_char =? TYPE_FLOAT)%char then
      '(v, c) ← parse_number_float value_str; Ok (VFloat v, consumed)
    else if (type_char =? TYPE_DOUBLE)%char then
      '(v, c) ← parse_number_double value_str; Ok (VDouble v, consumed)
    else if (type_char =? TYPE_BOOL)%char then
      Ok (VBool (negb (char_at value_str 0 =? "0")%char), consumed)
    else Err UnknownType.

(** The loop of [deserialize_line] over [line.substr(pos)]. Every
    iteration that continues moves [pos] forward by three characters or
    more, so a fuel above the length of the line is never used up. *)
Fixpoint deserialize_entries (fuel : nat) (remaining : list ascii)
    (collection : FonCollection) : result FonCollection :=
  match fuel with
  | 0 => Err Diverges
  | S fuel' =>
      if is_empty remaining then Ok collection
      else
        match find_char "=" remaining with
        | None => Ok collection
        | Some eq_pos =>
            let key := substr remaining 0 eq_pos in
            let after_eq := drop (eq_pos + 1) remaining in
            if (length after_eq <=? 1)%nat || negb (char_at after_eq 1 =? ":")%char
            then Err InvalidFormat
            else
              let type_char := char_at after_eq 0 in
              let value_text := drop 2 after_eq in
              '(value, consumed) ← parse_value value_text type_char;
              let collection := collection_add key value collection in
              let pos := skip_comma value_text consumed in
              deserialize_entries fuel' (drop pos value_text) collection
        end
  end.

Definition deserialize_line (line : list ascii) : result FonCollection :=
  deserialize_entries (S (length line)) line ∅.

End Fon.

(** ** The fan-out over index ranges (fon.hpp) *)

(** One launched task: the index [next] it is at, the end [stop] of its
    range, and the exception that ended it, which its future holds. *)
Record task := mkTask {
  next : nat;
  stop : nat;
  thrown : option error
}.

Definition task_done (w : task) : bool :=
  match thrown w with
  | Some _ => true
  | None => stop w <=? next w
  end.

(** The launch loop: task [t] gets [start = t * chunk_size] and
    [end = min(start + chunk_size, total)]; the loop breaks at the first
    [start >= total]. *)
Fixpoint launch (threads t chunk_size total : nat) : list task :=
  match threads with
  | 0 => []
  | S threads' =>
      let start := t * chunk_size in
      let end_ := (start + chunk_size) `min` total in
      if total <=? start then []
      else mkTask start end_ None :: launch threads' (S t) chunk_size total
  end.

Section Pool.
Context {A : Type}.

(** The body of the workers' loop at index [i]: the value it stores in
    slot [i] ([None] when it stores nothing), or the exception it throws. *)
Variable body : nat → result (option A).

(** The shared buffer and the tasks. *)
Record pool := mkPool {
  slots : list A;
  tasks : list task
}.

(** One iteration of the loop of task [t]. A task that is done, or an
    index that names no task, leaves the pool as it is. *)
Definition step (p : pool) (t : nat) : pool :=
  match tasks p !! t with
  | None => p
  | Some w =>
      if task_done w then p
      else
        match body (next w) with
        | Ok o =>
            mkPool (match o with Some a => <[next w := a]> (slots p) | None => slots p end)
                   (<[t := mkTask (S (next w)) (stop w) None]> (tasks p))
        | Err e =>
            mkPool (slots p) (<[t := mkTask (next w) (stop w) (Some e)]> (tasks p))
        end
  end.

(** An interleaving of the tasks: the list of the tasks that move, in the
    order of their moves. *)
Definition run (schedule : list nat) (p : pool) : pool := foldl step p schedule.

Definition all_done (p : pool) : bool := forallb task_done (tasks p).

(** [for (auto& f : futures) f.get();] rethrows the first exception in
    the order of the futures. *)
Fixpoint first_failure (outcomes : list (option error)) : option error :=
  match outcomes with
  | [] => None
  | Some e :: _ => Some e
  | None :: outcomes' => first_failure outcomes'
  end.

Definition join (p : pool) : result (list A) :=
  match first_failure (thrown <$> tasks p) with
  | Some e => Err e
  | None => Ok (slots p)
  end.

(** The fan-out: the buffer of [total] slots, the tasks launched over it,
    an interleaving, the join. The answer is [None] when the interleaving
    stops before every task is done: the calling thread is still waiting. *)
Definition fan_out (init : A) (total threads : nat) (schedule : list nat)
    : option (result (list A)) :=
  let chunk_size := (total + threads - 1) `div` threads in
  let p := run schedule (mkPool (replicate total init) (launch threads 0 chunk_size total)) in
  if all_done p then Some (join p) else None.

End Pool.

(** [if (max_threads <= 0) max_threads = hardware_concurrency()]. *)
Definition resolve_threads (hardware_concurrency : nat) (max_threads : Z) : nat :=
  if (max_threads <=? 0)%Z then hardware_concurrency else Z.to_nat max_threads.

(** [if (content[i] == CR && i + 1 < size && content[i + 1] == LF) ++i;]:
    what follows the terminator [c]. *)
Definition after_terminator (c : ascii) (rest : list ascii) : list ascii :=
  if (c =? char_r)%char then
    match rest with
    | c' :: rest' => if (c' =? char_n)%char then rest' else rest
    | [] => rest
    end
  else rest.

(** The line splitter of [deserialize_from_file_parallel]: [cur] is
    [content[start .. i)]. A line is emitted only when [i > start]. *)
Fixpoint split_lines_from (cur content : list ascii) : list (list ascii) :=
  match content with
  | [] => if is_empty cur then [] else [cur]
  | c :: rest =>
      if (c =? char_n)%char || (c =? char_r)%char then
        (if is_empty cur then [] else [cur]) ++
        split_lines_from [] (after_terminator c rest)
      else split_lines_from (cur ++ [c]) rest
  end.

Definition split_lines (content : list ascii) : list (list ascii) :=
  split_lines_from [] content.

(** The address of a [RawData] object. *)
Abbreviation loc := N (only parsing).

(** The objects the blobs of a dump point to. An address nothing was
    stored at holds a default-constructed object. *)
Abbreviation heap := (gmap N Raw.RawData) (only parsing).

Global Instance RawData_inhabited : Inhabited Raw.RawData := populate Raw.RawData_default.

Section Files.
Context `{FloatLib}.
Variable deserialize_raw_unpack : bool.

(** The number [hardware_concurrency()] answers. *)
Variable hardware_concurrency : nat.

(** The comparator of the sort: [a.first < b.first]. *)
Definition id_less {A} (a b : N * A) : Prop := (a.1 < b.1)%N.

Global Instance id_less_dec {A} : RelDecision (@id_less A).
Proof. intros a b. unfold id_less. apply _. Defined.

(** [std::sort] of the entries by id. *)
Definition sorted_entries {A} (dump : gmap N A) : list (N * A) :=
  merge_sort id_less (map_to_list dump).

(** [file << line << newline] for every line. *)
Definition write_lines (lines : list (list ascii)) : list ascii :=
  concat ((λ line, line ++ [char_n]) <$> lines).

(** *** Saving: blobs behind shared pointers *)

(** A value as a record stores it: a blob is a [std::shared_ptr<RawData>],
    the address of an object that other values, of this record or of
    another, may point to as well; every other alternative, the null pointer
    among them, holds its data itself. *)
Inductive stored :=
  | Held (v : FonValue)
  | Shared (p : loc).

(** The value with the object its pointer points to. *)
Definition deref (h : heap) (s : stored) : FonValue :=
  match s with
  | Held v => v
  | Shared p => VRaw (Some (h !!! p))
  end.

(** Where a worker stands in [serialize_to_string]: in the call
    [raw.pack()] on the blob at [p], or past it and about to append
    [encoded()], with the line written so far and the entries still to come;
    or at the end of the loop, with the line to be stored in [lines[i]]. *)
Inductive job :=
  | Packing (out : list ascii) (p : loc) (pc : PackSteps.pack_pc)
            (todo : list (list ascii * stored))
  | Storing (out : list ascii).

(** The loop of [serialize_to_string] up to its next blob: what is
    appended for the entries before it is private to the worker. *)
Fixpoint advance (first : bool) (out : list ascii) (todo : list (list ascii * stored))
    : job :=
  match todo with
  | [] => Storing out
  | (key, value) :: todo' =>
      let out := out ++ (if first then [] else [","%char]) ++ key ++ ["="%char] in
      match value with
      | Held v =>
          advance false (out ++ [get_type_char v] ++ [":"%char] ++ (serialize_value v).1)
                  todo'
      | Shared p =>
          Packing (out ++ [TYPE_RAW] ++ [":"%char] ++ [dquote]) p PackSteps.AtGuard todo'
      end
  end.

(** The blobs, the buffer [lines] and the serializing tasks, each with the
    place it is at in the line of [entries[next]] ([None] before the line is
    begun). *)
Record save_pool := mkSavePool {
  blobs : heap;
  line_buffer : list (list ascii);
  workers : list (task * option job)
}.

(** One move of worker [t]: one step of [pack] on a blob, the read of
    [encoded()] after it, or the store of a finished line in [lines[next]]. A worker that is done, or an index that
    names no worker, leaves the pool as it is. *)
Definition save_step (entries : list (N * gmap (list ascii) stored))
    (p : save_pool) (t : nat) : save_pool :=
  match workers p !! t with
  | None => p
  | Some (w, current) =>
      if task_done w then p
      else
        let j := match current with
                 | Some j => j
                 | None =>
                     advance true [] (map_to_list (default ∅ (snd <$> entries !! next w)))
                 end in
        match j with
        | Storing out =>
            mkSavePool (blobs p) (<[next w := out]> (line_buffer p))
                       (<[t := (mkTask (S (next w)) (stop w) None, None)]> (workers p))
        | Packing out q pc todo =>
            if PackSteps.returned pc then
              let out := out ++ Raw.encoded_ (blobs p !!! q) ++ [dquote] in
              mkSavePool (blobs p) (line_buffer p)
                         (<[t := (w, Some (advance false out todo))]> (workers p))
            else
              let '(pc', r) := PackSteps.pack_step pc (blobs p !!! q) in
              mkSavePool (<[q := r]> (blobs p)) (line_buffer p)
                         (<[t := (w, Some (Packing out q pc' todo))]> (workers p))
        end
  end.

(** [serialize_to_file_parallel(dump, path, max_threads)], in its
    [std::async] branch, under an interleaving of its workers: the bytes
    written to the file, and the blobs after the call. Zero threads divide
    by zero. Opening the file is outside the model. *)
Definition serialize_to_file_parallel (h : heap) (dump : gmap N (gmap (list ascii) stored))
    (max_threads : Z) (schedule : list nat) : option (result (list ascii) * heap) :=
  let threads := resolve_threads hardware_concurrency max_threads in
  let entries := sorted_entries dump in
  if (threads =? 0)%nat then Some (Err DivisionByZero, h)
  else
    let total := length entries in
    let chunk_size := (total + threads - 1) `div` threads in
    let p := foldl (save_step entries)
               (mkSavePool h (replicate total [])
                  ((λ w, (w, None)) <$> launch threads 0 chunk_size total))
               schedule in
    if forallb (λ wj, task_done wj.1) (workers p) then
      Some (match first_failure ((λ wj, thrown wj.1) <$> workers p) with
            | Some e => Err e
            | None => Ok (write_lines (line_buffer p))
            end, blobs p)
    else None.

Definition serialize_to_file := serialize_to_file_parallel.

(** The loop that builds the dump from the parsed collections. *)
Definition build_dump (collections : list FonCollection) : FonDump :=
  foldl (λ dump ic, if (0 <? size ic.2)%nat then dump_add (N.of_nat ic.1) ic.2 dump else dump)
        ∅ (zip (seq 0 (length collections)) collections).

(** The body of the parsing workers:
    [if (!lines[i].empty()) collections[i] = deserialize_line(lines[i])]. *)
Definition parse_slot (lines : list (list ascii)) (i : nat)
    : result (option FonCollection) :=
  match lines !! i with
  | Some line =>
      if is_empty line then Ok None
      else Some <$> deserialize_line deserialize_raw_unpack line
  | None => Ok None
  end.

(** [deserialize_from_file_parallel(path, max_threads)], in its
    [std::async] branch, on the content of the file, under an interleaving
    of its workers. *)
Definition deserialize_from_file_parallel (content : list ascii) (max_threads : Z)
    (schedule : list nat) : option (result FonDump) :=
  let threads := resolve_threads hardware_concurrency max_threads in
  let lines := split_lines content in
  if (threads =? 0)%nat then Some (Err DivisionByZero)
  else
    collections ← fan_out (parse_slot lines) ∅ (length lines) threads schedule;
    Some (collections ← collections; Ok (build_dump collections)).

Definition deserialize_from_file := deserialize_from_file_parallel.

End Files.

(** The lines of a file as section 4.5 of the specification words them,
    to compare with [split_lines]: split on LF and CR boundaries with CRLF
    as one boundary, an empty line between two terminators being a line of
    its own. *)
Fixpoint file_lines_from (cur content : list ascii) : list (list ascii) :=
  match content with
  | [] => if is_empty cur then [] else [cur]
  | c :: rest =>
      if (c =? char_n)%char || (c =? char_r)%char then
        cur :: file_lines_from [] (after_terminator c rest)
      else file_lines_from (cur ++ [c]) rest
  end.

Definition file_lines (content : list ascii) : list (list ascii) :=
  file_lines_from [] content.

(** ** The other members of the containers (fon_types.hpp) *)

(** The exceptions of the standard library the members let through:
    [std::out_of_range] from [unordered_map::at] and
    [std::bad_variant_access] from [std::get]. *)
Inductive access_error := out_of_range | bad_variant_access.

Section Containers.
Context `{FloatLib}.

(** [std::get_if<T>] at the alternatives the exported functions ask for. *)
Definition get_if_int32 (v : FonValue) : option Z :=
  match v with VInt x => Some x | _ => None end.
Definition get_if_int64 (v : FonValue) : option Z :=
  match v with VLong x => Some x | _ => None end.
Definition get_if_float (v : FonValue) : option float :=
  match v with VFloat x => Some x | _ => None end.
Definition get_if_double (v : FonValue) : option double :=
  match v with VDouble x => Some x | _ => None end.
Definition get_if_bool (v : FonValue) : option bool :=
  match v with VBool x => Some x | _ => None end.
Definition get_if_string (v : FonValue) : option (list ascii) :=
  match v with VString x => Some x | _ => None end.
Definition get_if_int32_vector (v : FonValue) : option (list Z) :=
  match v with VIntArray x => Some x | _ => None end.
Definition get_if_float_vector (v : FonValue) : option (list float) :=
  match v with VFloatArray x => Some x | _ => None end.

(** [FonCollection::contains(key)]. *)
Definition collection_contains (key : list ascii) (c : FonCollection) : bool :=
  bool_decide (is_Some (c !! key)).

(** [FonCollection::get(key)]: [data_.at(key)]. *)
Definition collection_get (key : list ascii) (c : FonCollection)
    : access_error + FonValue :=
  match c !! key with
  | Some v => inr v
  | None => inl out_of_range
  end.

(** [FonCollection::get<T>(key)]: [std::get<T>(data_.at(key))]. *)
Definition collection_get_as {T} (get_if : FonValue → option T)
    (key : list ascii) (c : FonCollection) : access_error + T :=
  match c !! key with
  | None => inl out_of_range
  | Some v =>
      match get_if v with
      | Some x => inr x
      | None => inl bad_variant_access
      end
  end.

(** [FonCollection::try_get<T>(key)]: a null pointer is [None]. *)
Definition collection_try_get {T} (get_if : FonValue → option T)
    (key : list ascii) (c : FonCollection) : option T :=
  match c !! key with
  | None => None
  | Some v => get_if v
  end.

Definition collection_size (c : FonCollection) : nat := size c.

(** [FonDump::try_add(id, collection)]: [try_emplace] and its flag. *)
Definition dump_try_add (id : N) (c : FonCollection) (d : FonDump) : FonDump * bool :=
  match d !! id with
  | Some _ => (d, false)
  | None => (<[id := c]> d, true)
  end.

(** [FonDump::get(id)]: [data_.at(id)]. *)
Definition dump_get (id : N) (d : FonDump) : access_error + FonCollection :=
  match d !! id with
  | Some c => inr c
  | None => inl out_of_range
  end.

(** [FonDump::try_get(id)]. *)
Definition dump_try_get (id : N) (d : FonDump) : option FonCollection := d !! id.

Definition dump_size (d : FonDump) : nat := size d.

End Containers.

(** ** The exported functions (fon_export.cpp) *)

Module FonExport.

(** [FonError]: the code and the 256 bytes of the message. *)
Record FonError := mkFonError {
  code : Z;
  message : list ascii
}.

Definition FON_OK : Z := 0.
Definition FON_ERROR_FILE_NOT_FOUND : Z := 1.
Definition FON_ERROR_PARSE_FAILED : Z := 2.
Definition FON_ERROR_WRITE_FAILED : Z := 3.
Definition FON_ERROR_INVALID_ARGUMENT : Z := 4.

(** The C string at the start of a run of bytes: the characters before the
    first NUL. *)
Fixpoint c_str (s : list ascii) : list ascii :=
  match s with
  | [] => []
  | c :: s' => if (c =? zero)%char then [] else c :: c_str s'
  end.

(** [strncpy(dest, src, count)]: the characters of the C string [src], at
    most [count], then NULs up to [count] bytes in all; the bytes of [dest]
    from [count] on stay. *)
Definition strncpy (dest src : list ascii) (count : nat) : list ascii :=
  take count (c_str src ++ replicate count zero) ++ drop count dest.

(** [memcpy(dest, src, count * sizeof(T))] over whole elements. *)
Definition memcpy {T} (dest src : list T) (count : nat) : list T :=
  take count src ++ drop count dest.

(** [set_error(error, code, message)]; a null [error] is [None]. *)
Definition set_error (error : option FonError) (code : Z) (message : list ascii)
    : option FonError :=
  match error with
  | Some e =>
      Some (mkFonError code
              (<[255 := zero]> (strncpy (FonExport.message e) message 255)))
  | None => None
  end.

Section Api.
Context `{FloatLib}.

(** [e.what()] for the two exceptions of the getters: the text is the
    library's. *)
Variable what : access_error → list ascii.

(** The state a map is left in when it has been moved from: valid, and not
    specified by the standard. *)
Variable moved_from : FonCollection.

Definition invalid_argument_message : list ascii := str "Invalid argument".

(** [fon_set_raw_unpack(enable)]: the new value of the switch. *)
Definition fon_set_raw_unpack (enable : Z) : bool := negb (enable =? 0)%Z.

Definition fon_dump_create : FonDump := ∅.

Definition fon_collection_create : FonCollection := ∅.

(** [fon_dump_size(dump)]; a null handle is [None]. *)
Definition fon_dump_size (dump : option FonDump) : Z :=
  match dump with
  | None => 0
  | Some d => Z.of_nat (dump_size d)
  end.

(** [fon_dump_get(dump, index)]: the collection the returned handle points
    to. *)
Definition fon_dump_get (dump : option FonDump) (index : N) : option FonCollection :=
  match dump with
  | None => None
  | Some d => dump_try_get index d
  end.

Definition fon_collection_size (collection : option FonCollection) : Z :=
  match collection with
  | None => 0
  | Some c => Z.of_nat (collection_size c)
  end.

(** [fon_dump_add(dump, id, collection, error)]: the result code, the dump
    and the collection behind the two handles after the call, and the error
    record. *)
Definition fon_dump_add (dump : option FonDump) (id : N)
    (collection : option FonCollection) (error : option FonError)
    : Z * option FonDump * option FonCollection * option FonError :=
  match dump, collection with
  | Some d, Some c => (FON_OK, Some (dump_add id c d), Some moved_from, error)
  | _, _ =>
      (FON_ERROR_INVALID_ARGUMENT, dump, collection,
       set_error error FON_ERROR_INVALID_ARGUMENT invalid_argument_message)
  end.

(** The adders: [c->add(key, value)] after the null checks. A null [key]
    is [None]; otherwise [key] is the C string it points to. *)
Definition add_value (collection : option FonCollection) (key : option (list ascii))
    (value : FonValue) (error : option FonError)
    : Z * option FonCollection * option FonError :=
  match collection, key with
  | Some c, Some k => (FON_OK, Some (collection_add k value c), error)
  | _, _ =>
      (FON_ERROR_INVALID_ARGUMENT, collection,
       set_error error FON_ERROR_INVALID_ARGUMENT invalid_argument_message)
  end.

Definition fon_collection_add_int collection key (value : Z) error :=
  add_value collection key (VInt value) error.

Definition fon_collection_add_long collection key (value : Z) error :=
  add_value collection key (VLong value) error.

Definition fon_collection_add_float collection key (value : float) error :=
  add_value collection key (VFloat value) error.

Definition fon_collection_add_double collection key (value : double) error :=
  add_value collection key (VDouble value) error.

(** [c->add(key, value != 0)]. *)
Definition fon_collection_add_bool collection key (value : Z) error :=
  add_value collection key (VBool (negb (value =? 0)%Z)) error.

(** [c->add(key, std::string(value))]; a null [value] is [None]. *)
Definition fon_collection_add_string collection key (value : option (list ascii)) error :=
  match value with
  | Some s => add_value collection key (VString s) error
  | None =>
      (FON_ERROR_INVALID_ARGUMENT, collection,
       set_error error FON_ERROR_INVALID_ARGUMENT invalid_argument_message)
  end.

(** [std::vector<int32_t> vec(values, values + count)]; [values] is the
    memory behind the pointer, which holds [count] elements at least. *)
Definition fon_collection_add_int_array collection key (values : option (list Z))
    (count : Z) error :=
  match values with
  | Some vs =>
      if (count <? 0)%Z then
        (FON_ERROR_INVALID_ARGUMENT, collection,
         set_error error FON_ERROR_INVALID_ARGUMENT invalid_argument_message)
      else add_value collection key (VIntArray (take (Z.to_nat count) vs)) error
  | None =>
      (FON_ERROR_INVALID_ARGUMENT, collection,
       set_error error FON_ERROR_INVALID_ARGUMENT invalid_argument_message)
  end.

Definition fon_collection_add_float_array collection key (values : option (list float))
    (count : Z) error :=
  match values with
  | Some vs =>
      if (count <? 0)%Z then
        (FON_ERROR_INVALID_ARGUMENT, collection,
         set_error error FON_ERROR_INVALID_ARGUMENT invalid_argument_message)
      else add_value collection key (VFloatArray (take (Z.to_nat count) vs)) error
  | None =>
      (FON_ERROR_INVALID_ARGUMENT, collection,
       set_error error FON_ERROR_INVALID_ARGUMENT invalid_argument_message)
  end.

(** The scalar getters: [*value = c->get<T>(key)] in a [try] block, after
    the null checks. [value] is the cell behind the pointer, [None] when the
    pointer is null; [store] turns the value found into what is stored. *)
Definition get_value {T V} (get_if : FonValue → option T) (store : T → V)
    (collection : option FonCollection) (key : option (list ascii))
    (value : option V) (error : option FonError)
    : Z * option V * option FonError :=
  match collection, key, value with
  | Some c, Some k, Some _ =>
      match collection_get_as get_if k c with
      | inr x => (FON_OK, Some (store x), error)
      | inl e =>
          (FON_ERROR_INVALID_ARGUMENT, value,
           set_error error FON_ERROR_INVALID_ARGUMENT (what e))
      end
  | _, _, _ =>
      (FON_ERROR_INVALID_ARGUMENT, value,
       set_error error FON_ERROR_INVALID_ARGUMENT invalid_argument_message)
  end.

Definition fon_collection_get_int := get_value get_if_int32 (λ x : Z, x).
Definition fon_collection_get_long := get_value get_if_int64 (λ x : Z, x).
Definition fon_collection_get_float := get_value get_if_float (λ x : float, x).
Definition fon_collection_get_double := get_value get_if_double (λ x : double, x).

(** [*value = c->get<bool>(key) ? 1 : 0]. *)
Definition fon_collection_get_bool :=
  get_value get_if_bool (λ b : bool, if b then 1%Z else 0%Z).

(** [fon_collection_get_string]: [buffer] is the memory behind the pointer,
    [buffer_size] bytes at least. *)
Definition fon_collection_get_string (collection : option FonCollection)
    (key : option (list ascii)) (buffer : option (list ascii)) (buffer_size : Z)
    (error : option FonError) : Z * option (list ascii) * option FonError :=
  match collection, key, buffer with
  | Some c, Some k, Some b =>
      if (buffer_size <=? 0)%Z then
        (FON_ERROR_INVALID_ARGUMENT, buffer,
         set_error error FON_ERROR_INVALID_ARGUMENT invalid_argument_message)
      else
        match collection_get_as get_if_string k c with
        | inr s =>
            let b := strncpy b s (Z.to_nat (buffer_size - 1)) in
            let b := <[Z.to_nat (buffer_size - 1) := zero]> b in
            (FON_OK, Some b, error)
        | inl e =>
            (FON_ERROR_INVALID_ARGUMENT, buffer,
             set_error error FON_ERROR_INVALID_ARGUMENT (what e))
        end
  | _, _, _ =>
      (FON_ERROR_INVALID_ARGUMENT, buffer,
       set_error error FON_ERROR_INVALID_ARGUMENT invalid_argument_message)
  end.

(** The array getters: the size is stored first, then at most
    [buffer_size] elements are copied when there is a buffer. *)
Definition get_array {T} (get_if : FonValue → option (list T))
    (collection : option FonCollection) (key : option (list ascii))
    (buffer : option (list T)) (buffer_size : Z) (actual_size : option Z)
    (error : option FonError)
    : Z * option (list T) * option Z * option FonError :=
  match collection, key, actual_size with
  | Some c, Some k, Some _ =>
      match collection_get_as get_if k c with
      | inr arr =>
          let actual := Z.of_nat (length arr) in
          let buffer :=
            match buffer with
            | Some b =>
                if (0 <? buffer_size)%Z
                then Some (memcpy b arr (Z.to_nat (buffer_size `min` actual)))
                else buffer
            | None => None
            end in
          (FON_OK, buffer, Some actual, error)
      | inl e =>
          (FON_ERROR_INVALID_ARGUMENT, buffer, actual_size,
           set_error error FON_ERROR_INVALID_ARGUMENT (what e))
      end
  | _, _, _ =>
      (FON_ERROR_INVALID_ARGUMENT, buffer, actual_size,
       set_error error FON_ERROR_INVALID_ARGUMENT invalid_argument_message)
  end.

Definition fon_collection_get_int_array := get_array get_if_int32_vector.
Definition fon_collection_get_float_array := get_array get_if_float_vector.

End Api.
End FonExport.

(** * Properties *)

Lemma is_empty_true {A} (l : list A) : is_empty l = true ↔ l = [].
Proof. destruct l; simpl; split; congruence. Qed.

Lemma is_empty_false {A} (l : list A) : is_empty l = false ↔ l ≠ [].
Proof. destruct l; simpl; split; congruence. Qed.

(** ** The codec *)

Module RawFacts.
Import Raw.

Lemma put_group_length enc wp v : length (put_group enc wp v) = length enc.
Proof. unfold put_group. by rewrite !length_insert. Qed.

Lemma pack_full_blocks_length d n enc : length (pack_full_blocks d n enc) = length enc.
Proof.
  unfold pack_full_blocks. generalize (seq 0 n). intros l. revert enc.
  induction l as [|i l IH]; intros enc; simpl; [done|].
  by rewrite IH, put_group_length.
Qed.

(** The size [pack] gives the text buffer. *)
Definition packed_length (input_len : nat) : nat :=
  let padding := ((4 - input_len `mod` 4) `mod` 4)%nat in
  let output_len := (((input_len + padding) `div` 4) * 5)%nat in
  if (0 <? padding)%nat then (output_len + 1)%nat else output_len.

Lemma pack_encoded_length (x : RawData) :
  encoded_ x = [] → data_ x ≠ [] →
  data_ (pack x) = [] ∧ length (encoded_ (pack x)) = packed_length (length (data_ x)).
Proof.
  intros He Hd. unfold pack. rewrite He. cbn [is_empty negb orb].
  destruct (is_empty (data_ x)) eqn:E; [by apply is_empty_true in E|].
  cbn [data_ encoded_]. split; [done|]. fold (packed_length (length (data_ x))).
  destruct (0 <? length (data_ x) `mod` 4)%nat.
  - by rewrite length_insert, put_group_length, pack_full_blocks_length, length_replicate.
  - by rewrite pack_full_blocks_length, length_replicate.
Qed.

Lemma packed_length_pos n : (0 < n → 5 ≤ packed_length n)%nat.
Proof.
  intros Hn. unfold packed_length.
  pose proof (Nat.div_mod_eq (n + (4 - n `mod` 4) `mod` 4) 4).
  pose proof (Nat.mod_upper_bound (n + (4 - n `mod` 4) `mod` 4) 4).
  pose proof (Nat.mod_upper_bound n 4).
  pose proof (Nat.div_mod_eq n 4).
  assert (4 ≤ n + (4 - n `mod` 4) `mod` 4)%nat.
  { destruct (decide (n `mod` 4 = 0)%nat) as [E|E].
    - rewrite E. simpl. lia.
    - rewrite (Nat.mod_small (4 - n `mod` 4) 4) by lia. lia. }
  destruct (0 <? _)%nat; lia.
Qed.

(** The guard of [pack] and of [unpack]. *)
Definition pack_skips (x : RawData) : bool :=
  negb (is_empty (encoded_ x)) || is_empty (data_ x).
Definition unpack_skips (x : RawData) : bool :=
  negb (is_empty (data_ x)) || is_empty (encoded_ x).

Lemma pack_skip x : pack_skips x = true → pack x = x.
Proof. unfold pack_skips, pack. by intros ->. Qed.

Lemma unpack_skip x : unpack_skips x = true → unpack_run x = (x, None).
Proof. unfold unpack_skips, unpack_run. by intros ->. Qed.

Lemma pack_work x :
  pack_skips x = false → data_ (pack x) = [] ∧ encoded_ (pack x) ≠ [].
Proof.
  intros G. apply orb_false_iff in G as [Ge Gd].
  apply negb_false_iff, is_empty_true in Ge. apply is_empty_false in Gd.
  destruct (pack_encoded_length x Ge Gd) as [Hd Hl]. split; [done|].
  intros Hnil. rewrite Hnil in Hl. simpl in Hl.
  assert (0 < length (data_ x))%nat by (destruct (data_ x); [done|simpl; lia]).
  pose proof (packed_length_pos (length (data_ x))). lia.
Qed.

Lemma pack_pack x : pack (pack x) = pack x.
Proof.
  destruct (pack_skips x) eqn:G.
  - by rewrite !(pack_skip x G).
  - destruct (pack_work x G) as [_ He]. apply pack_skip.
    unfold pack_skips. apply is_empty_false in He. by rewrite He.
Qed.

Lemma RawData_eta x : mkRawData (data_ x) (encoded_ x) = x.
Proof. by destruct x. Qed.

(** The four ways a call of [unpack] ends. *)
Lemma unpack_run_cases x :
  unpack_run x = (x, None) ∨
  unpack_run x = (x, Some LengthError) ∨
  (∃ d e, unpack_run x = (mkRawData d (encoded_ x), Some e) ∧ data_ x = []) ∨
  (∃ d, unpack_run x = (mkRawData d [], None)).
Proof.
  unfold unpack_run. destruct (negb (is_empty (data_ x)) || is_empty (encoded_ x)) eqn:G; [by left|].
  apply orb_false_iff in G as [Gd _]. apply negb_false_iff, is_empty_true in Gd.
  match goal with |- context [if ?b then (x, Some LengthError) else _] => destruct b end;
    [by right; left|].
  match goal with |- context [unpack_groups ?a ?b ?c ?d] =>
    destruct (unpack_groups a b c d) as [d' [e|]] end.
  - right; right; left. by exists d', e.
  - right; right; right. by exists d'.
Qed.

Lemma unpack_state_idem x : unpack_state (unpack_state x) = unpack_state x.
Proof.
  unfold unpack_state at 2 3.
  destruct (unpack_run_cases x) as [H|[H|[(d & e & H & Hd)|(d & H)]]]; rewrite H; simpl.
  - unfold unpack_state. by rewrite H.
  - unfold unpack_state. by rewrite H.
  - destruct d as [|b d].
    + assert (mkRawData [] (encoded_ x) = x) as -> by (rewrite <- Hd; apply RawData_eta).
      unfold unpack_state. rewrite H. simpl. rewrite <- Hd. apply RawData_eta.
    + unfold unpack_state. by rewrite unpack_skip.
  - unfold unpack_state. rewrite unpack_skip; [done|].
    unfold unpack_skips. simpl. apply orb_true_r.
Qed.

Lemma unpack_again x y : unpack x = Ok y → unpack y = Ok y.
Proof.
  unfold unpack at 1.
  destruct (unpack_run_cases x) as [H|[H|[(d & e & H & Hd)|(d & H)]]]; rewrite H;
    intros [= <-]; [by unfold unpack; rewrite H|].
  unfold unpack. rewrite unpack_skip; [done|].
  unfold unpack_skips. simpl. apply orb_true_r.
Qed.

(** C8: [pack] leaves the object alone when the text form holds data or the
    byte form is empty, [unpack] does when the byte form holds data or the
    text form is empty, and calling either a second time changes nothing:
    [pack (pack x) = pack x], the object after two calls of [unpack] is the
    object after one, and an [unpack] that returned returns the same object
    when called again. *)
Theorem pack_unpack_noop_idempotent (x : RawData) :
  (is_packed x || is_empty (data_ x) = true → pack x = x) ∧
  (is_unpacked x || is_empty (encoded_ x) = true → unpack_run x = (x, None)) ∧
  pack (pack x) = pack x ∧
  unpack_state (unpack_state x) = unpack_state x ∧
  (∀ y, unpack x = Ok y → unpack y = Ok y).
Proof.
  split; [apply pack_skip|]. split; [apply unpack_skip|].
  split; [apply pack_pack|]. split; [apply unpack_state_idem | apply unpack_again].
Qed.

Lemma pack_unpack_noop_idempotent_witness :
  let x := mkRawData [] (str "HelloWorld") in
  let y := mkRawData [1; 2; 3; 4; 5]%Z [] in
  pack x = x ∧ unpack_run y = (y, None) ∧
  pack (pack y) = pack y ∧ unpack_state (unpack_state x) = unpack_state x ∧
  unpack (unpack_state x) = Ok (unpack_state x).
Proof.
  intros x y.
  split; [apply (pack_unpack_noop_idempotent x); reflexivity|].
  split; [apply (pack_unpack_noop_idempotent y); reflexivity|].
  split; [apply (pack_unpack_noop_idempotent y)|].
  split; [apply (pack_unpack_noop_idempotent x)|].
  apply (pack_unpack_noop_idempotent x). reflexivity.
Defined.

(** At most one of the two forms is non-empty. *)
Definition exclusive (x : RawData) : Prop :=
  is_packed x && is_unpacked x = false.

Lemma constructors_exclusive d e :
  exclusive RawData_default ∧ exclusive (RawData_of_data d) ∧ exclusive (RawData_of_encoded e).
Proof. unfold exclusive, is_packed, is_unpacked. simpl. by rewrite andb_false_r. Qed.

Lemma pack_exclusive x : exclusive x → exclusive (pack x).
Proof.
  intros Hx. destruct (pack_skips x) eqn:G; [by rewrite pack_skip|].
  destruct (pack_work x G) as [Hd _]. unfold exclusive, is_unpacked.
  rewrite Hd. simpl. apply andb_false_r.
Qed.

(** A call of [unpack] that returns keeps the two forms exclusive. *)
Lemma unpack_exclusive x y : exclusive x → unpack x = Ok y → exclusive y.
Proof.
  unfold unpack. intros Hx.
  destruct (unpack_run_cases x) as [H|[H|[(d & e & H & Hd)|(d & H)]]]; rewrite H;
    intros [= <-]; [done|].
  unfold exclusive, is_packed. done.
Qed.

(** C10, at the failing input: the text [0000_] (four zeros and a space)
    given to the text constructor and unpacked once. The call throws on the
    space after [data_] has been resized to four bytes, and the object is
    left with both forms non-empty. *)
Theorem unpack_throw_leaves_both_forms :
  let x := RawData_of_encoded (str "0000 ") in
  unpack_run x = (mkRawData [0; 0; 0; 0]%Z (str "0000 "), Some InvalidZ85Character) ∧
  is_packed (unpack_state x) = true ∧ is_unpacked (unpack_state x) = true.
Proof. vm_compute. done. Qed.

(** C2, at the failing input: eight bytes whose second word is 1. The
    packed text has no padding marker, yet it ends in the character 1;
    [unpack] reads that character as a marker and returns three bytes. *)
Theorem unpack_pack_loses_bytes :
  let x := RawData_of_data [0; 0; 0; 0; 0; 0; 0; 1]%Z in
  encoded_ (pack x) = str "0000000001" ∧
  unpack (pack x) = Ok (mkRawData [0; 0; 0]%Z []) ∧
  unpack (pack (RawData_of_data [0; 0; 0; 1]%Z)) = Err LengthError.
Proof. vm_compute. done. Qed.

End RawFacts.

(** ** The round trip of the codec *)

Module RawRoundTrip.
Import Raw RawFacts.
Local Open Scope Z_scope.

Definition is_byte (b : Z) : Prop := 0 ≤ b < 256.

(** The five base-85 digits [put_group] stores, leftmost first. *)
Definition digits85 (v : Z) : list Z :=
  [v / 85 / 85 / 85 / 85; v / 85 / 85 / 85 mod 85; v / 85 / 85 mod 85; v / 85 mod 85; v mod 85].

(** The four bytes [put_word] stores. *)
Definition bytes_of (v : Z) : list Z :=
  [Z.land (Z.shiftr v 24) 255; Z.land (Z.shiftr v 16) 255;
   Z.land (Z.shiftr v 8) 255; Z.land v 255].

Lemma land_low_high hi lo k :
  0 ≤ k → 0 ≤ lo < 2 ^ k → Z.land (hi * 2 ^ k) lo = 0.
Proof.
  intros Hk Hlo. apply Z.bits_inj'. intros n Hn.
  rewrite Z.land_spec, Z.bits_0.
  destruct (Z.lt_ge_cases n k) as [Hlt|Hge].
  - by rewrite Z.mul_pow2_bits_low.
  - destruct (decide (lo = 0)) as [->|Hne]; [by rewrite Z.bits_0, andb_false_r|].
    rewrite (Z.bits_above_log2 lo n), andb_false_r; [done|lia|].
    apply Z.lt_le_trans with k; [|done]. apply Z.log2_lt_pow2; lia.
Qed.

Lemma lor_low_high hi lo k :
  0 ≤ k → 0 ≤ lo < 2 ^ k → Z.lor (hi * 2 ^ k) lo = hi * 2 ^ k + lo.
Proof.
  intros Hk Hlo. rewrite <- Z.add_lor_land, land_low_high by done. lia.
Qed.

(** The word of four bytes is their big-endian sum. *)
Lemma word_of_bytes b0 b1 b2 b3 :
  is_byte b0 → is_byte b1 → is_byte b2 → is_byte b3 →
  Z.lor (Z.lor (Z.lor (u32 (Z.shiftl b0 24)) (u32 (Z.shiftl b1 16))) (u32 (Z.shiftl b2 8))) b3
  = b0 * 2 ^ 24 + b1 * 2 ^ 16 + b2 * 2 ^ 8 + b3.
Proof.
  unfold is_byte, u32. intros H0 H1 H2 H3.
  rewrite !Z.shiftl_mul_pow2 by lia.
  rewrite !Z.mod_small by lia.
  rewrite (lor_low_high b0 (b1 * 2 ^ 16) 24) by lia.
  replace (b0 * 2 ^ 24 + b1 * 2 ^ 16) with ((b0 * 2 ^ 8 + b1) * 2 ^ 16) by lia.
  rewrite (lor_low_high _ (b2 * 2 ^ 8) 16) by lia.
  replace ((b0 * 2 ^ 8 + b1) * 2 ^ 16 + b2 * 2 ^ 8)
    with ((b0 * 2 ^ 16 + b1 * 2 ^ 8 + b2) * 2 ^ 8) by lia.
  rewrite (lor_low_high _ b3 8) by lia. lia.
Qed.

Lemma bytes_of_word b0 b1 b2 b3 :
  is_byte b0 → is_byte b1 → is_byte b2 → is_byte b3 →
  bytes_of (b0 * 2 ^ 24 + b1 * 2 ^ 16 + b2 * 2 ^ 8 + b3) = [b0; b1; b2; b3].
Proof.
  unfold is_byte, bytes_of. intros H0 H1 H2 H3.
  change 255 with (Z.ones 8). rewrite !Z.land_ones, !Z.shiftr_div_pow2 by lia.
  repeat f_equal; Z.div_mod_to_equations; lia.
Qed.

Lemma digits85_range v :
  0 ≤ v < 2 ^ 32 → Forall (λ d, 0 ≤ d < 85) (digits85 v).
Proof.
  intros Hv. unfold digits85. repeat constructor; Z.div_mod_to_equations; lia.
Qed.

Lemma digits85_value v :
  0 ≤ v →
  (((v / 85 / 85 / 85 / 85 * 85 + v / 85 / 85 / 85 mod 85) * 85 + v / 85 / 85 mod 85) * 85
   + v / 85 mod 85) * 85 + v mod 85 = v.
Proof. intros Hv. Z.div_mod_to_equations. lia. Qed.



(** *** What [pack] writes *)

Lemma byte_at_is_byte d i : Forall is_byte d → is_byte (byte_at d i).
Proof.
  intros Hd. unfold byte_at. destruct (nth_lookup_or_length d i 0) as [Hi|Hi].
  - eapply Forall_forall; [exact Hd|]. by eapply list_elem_of_lookup_2.
  - rewrite nth_overflow by lia. unfold is_byte. lia.
Qed.

(** The big-endian word of the four bytes from [offset] on, a byte past
    the end counting as zero. *)
Definition word (d : list Z) (offset : nat) : Z :=
  byte_at d offset * 2 ^ 24 + byte_at d (offset + 1) * 2 ^ 16
  + byte_at d (offset + 2) * 2 ^ 8 + byte_at d (offset + 3).

Lemma word_range d offset : Forall is_byte d → 0 ≤ word d offset < 2 ^ 32.
Proof.
  intros Hd. unfold word.
  pose proof (byte_at_is_byte d offset Hd). pose proof (byte_at_is_byte d (offset + 1) Hd).
  pose proof (byte_at_is_byte d (offset + 2) Hd). pose proof (byte_at_is_byte d (offset + 3) Hd).
  unfold is_byte in *. lia.
Qed.

Lemma word_at_word d offset : Forall is_byte d → word_at d offset = word d offset.
Proof.
  intros Hd. unfold word_at, word. apply word_of_bytes; by apply byte_at_is_byte.
Qed.

Lemma tail_word_word d offset remaining :
  Forall is_byte d → (0 < remaining < 4)%nat → length d = (offset + remaining)%nat →
  tail_word d offset remaining = word d offset.
Proof.
  intros Hd Hr Hlen. unfold tail_word, word.
  pose proof (byte_at_is_byte d offset Hd) as H0.
  pose proof (byte_at_is_byte d (offset + 1) Hd) as H1.
  pose proof (byte_at_is_byte d (offset + 2) Hd) as H2.
  assert (∀ i, (remaining ≤ i)%nat → byte_at d (offset + i) = 0) as Hpast.
  { intros i Hi. unfold byte_at. apply nth_overflow. lia. }
  unfold is_byte, u32 in *.
  destruct remaining as [|[|[|[|r]]]]; try lia; cbn [seq foldl Nat.sub].
  - rewrite !(Hpast 1%nat), !(Hpast 2%nat), !(Hpast 3%nat) by lia.
    rewrite Nat.add_0_r, Z.shiftl_0_l, Z.mod_0_l, Z.lor_0_l by lia.
    rewrite !Z.shiftl_mul_pow2 by lia.
    rewrite (Z.mod_small (byte_at d offset * 2 ^ 8)) by lia.
    rewrite (Z.mod_small (byte_at d offset * 2 ^ 8 * 2 ^ 8)) by lia.
    rewrite Z.mod_small by lia. lia.
  - rewrite !(Hpast 2%nat), !(Hpast 3%nat) by lia.
    rewrite Nat.add_0_r, Z.shiftl_0_l, Z.mod_0_l, Z.lor_0_l by lia.
    rewrite !Z.shiftl_mul_pow2 by lia.
    rewrite (Z.mod_small (byte_at d offset * 2 ^ 8)) by lia.
    rewrite (lor_low_high _ (byte_at d (offset + 1)) 8) by lia.
    rewrite (Z.mod_small ((byte_at d offset * 2 ^ 8 + byte_at d (offset + 1)) * 2 ^ 8)) by lia.
    rewrite Z.mod_small by lia. lia.
  - rewrite !(Hpast 3%nat) by lia.
    rewrite Nat.add_0_r, Z.shiftl_0_l, Z.mod_0_l, Z.lor_0_l by lia.
    rewrite !Z.shiftl_mul_pow2 by lia.
    rewrite (Z.mod_small (byte_at d offset * 2 ^ 8)) by lia.
    rewrite (lor_low_high _ (byte_at d (offset + 1)) 8) by lia.
    rewrite (Z.mod_small ((byte_at d offset * 2 ^ 8 + byte_at d (offset + 1)) * 2 ^ 8)) by lia.
    rewrite (lor_low_high _ (byte_at d (offset + 2)) 8) by lia.
    rewrite Z.mod_small by lia. lia.
Qed.

(** The character [put_group] leaves at each of its five positions, and
    the positions it leaves alone. *)
Lemma put_group_lookup enc write_pos v k :
  (write_pos + 5 ≤ length enc)%nat → (k < 5)%nat →
  put_group enc write_pos v !! (write_pos + k)%nat = Some (enc_char (nth k (digits85 v) 0)).
Proof.
  intros Hlen Hk. unfold put_group.
  destruct k as [|[|[|[|[|k]]]]]; try lia; cbn [nth digits85].
  - rewrite Nat.add_0_r. apply list_lookup_insert_eq. rewrite !length_insert. lia.
  - rewrite list_lookup_insert_ne by lia.
    apply list_lookup_insert_eq. rewrite !length_insert. lia.
  - rewrite !list_lookup_insert_ne by lia.
    apply list_lookup_insert_eq. rewrite !length_insert. lia.
  - rewrite !list_lookup_insert_ne by lia.
    apply list_lookup_insert_eq. rewrite !length_insert. lia.
  - rewrite !list_lookup_insert_ne by lia.
    apply list_lookup_insert_eq. lia.
Qed.

Lemma put_group_lookup_other enc write_pos v i :
  (i < write_pos ∨ write_pos + 5 ≤ i)%nat →
  put_group enc write_pos v !! i = enc !! i.
Proof. intros Hi. unfold put_group. by rewrite !list_lookup_insert_ne by lia. Qed.

Lemma pack_full_blocks_S d m enc :
  pack_full_blocks d (S m) enc
  = put_group (pack_full_blocks d m enc) (5 * m) (word_at d (m * 4)).
Proof. unfold pack_full_blocks. by rewrite seq_S, foldl_app. Qed.

Lemma pack_full_blocks_lookup d m enc :
  Forall is_byte d → (5 * m ≤ length enc)%nat →
  (∀ g k, (g < m)%nat → (k < 5)%nat →
     pack_full_blocks d m enc !! (5 * g + k)%nat
     = Some (enc_char (nth k (digits85 (word d (4 * g))) 0))) ∧
  (∀ i, (5 * m ≤ i)%nat → pack_full_blocks d m enc !! i = enc !! i).
Proof.
  intros Hd. induction m as [|m IH]; intros Hlen.
  - split; [lia|done].
  - destruct IH as [IH1 IH2]; [lia|]. rewrite pack_full_blocks_S. split.
    + intros g k Hg Hk. destruct (decide (g = m)) as [->|Hne].
      * rewrite put_group_lookup by (rewrite ?pack_full_blocks_length; lia).
        rewrite word_at_word by done. by replace (m * 4)%nat with (4 * m)%nat by lia.
      * rewrite put_group_lookup_other by lia. apply IH1; lia.
    + intros i Hi. rewrite put_group_lookup_other by lia. apply IH2. lia.
Qed.



(** *** What [unpack] reads *)

Lemma decode_symbol_enc_char d : 0 ≤ d < 85 → decode_symbol (enc_char d) = Ok d.
Proof.
  intros Hd. assert (d = Z.of_nat (Z.to_nat d)) as -> by lia.
  assert (Z.to_nat d < 85)%nat as Hk by lia. revert Hk. generalize (Z.to_nat d).
  intros k Hk. do 85 (destruct k as [|k]; [reflexivity|]). lia.
Qed.

Lemma decode_group_spec enc i v :
  (∀ k, (k < 5)%nat → char_at enc (i + k) = enc_char (nth k (digits85 v) 0)) →
  0 ≤ v < 2 ^ 32 →
  decode_group enc i = Ok v.
Proof.
  intros Hchars Hv. unfold decode_group. cbn [seq foldl].
  pose proof (digits85_range v Hv) as Hr. unfold digits85 in Hr.
  repeat (apply Forall_cons in Hr as [? Hr]).
  rewrite !Hchars by lia. cbn [nth digits85].
  set (a := v / 85 / 85 / 85 / 85) in *. set (b := v / 85 / 85 / 85 mod 85) in *.
  set (c := v / 85 / 85 mod 85) in *. set (e := v / 85 mod 85) in *.
  set (f := v mod 85) in *.
  assert (v = (((a * 85 + b) * 85 + c) * 85 + e) * 85 + f) as Hval
    by (subst a b c e f; Z.div_mod_to_equations; lia).
  rewrite !decode_symbol_enc_char by done. cbn [mbind result_bind].
  clearbody a b c e f. f_equal. unfold u32.
  assert (2 ^ 32 = 4294967296) as -> by reflexivity.
  rewrite (Z.mod_small (0 * 85 + a)) by lia.
  rewrite (Z.mod_small ((0 * 85 + a) * 85 + b)) by lia.
  rewrite (Z.mod_small (((0 * 85 + a) * 85 + b) * 85 + c)) by lia.
  rewrite (Z.mod_small ((((0 * 85 + a) * 85 + b) * 85 + c) * 85 + e)) by lia.
  assert (2 ^ 32 = 4294967296) as Hpow by reflexivity.
  rewrite Z.mod_small by lia. lia.
Qed.

(** The byte buffer while it is being filled: the bytes written so far,
    then zeros. *)
Definition filling (d : list Z) (write_pos : nat) : list Z :=
  take write_pos d ++ replicate (length d - write_pos) 0.

Lemma put_byte_filling d write_pos b :
  (write_pos ≤ length d)%nat →
  ((write_pos < length d)%nat → b = byte_at d write_pos) →
  put_byte (length d) (filling d write_pos, write_pos) b
  = (filling d (S write_pos `min` length d), (S write_pos `min` length d)%nat).
Proof.
  intros Hle Hb. unfold put_byte. destruct (Nat.ltb_spec write_pos (length d)) as [Hlt|Hge].
  - rewrite Nat.min_l by lia. f_equal. unfold filling.
    destruct (lookup_lt_is_Some_2 d write_pos Hlt) as [x Hx].
    rewrite (take_S_r d write_pos x Hx), <- app_assoc.
    rewrite insert_app_r_alt by (rewrite length_take; lia).
    rewrite length_take, Nat.min_l, Nat.sub_diag by lia.
    replace (length d - write_pos)%nat with (S (length d - S write_pos)) by lia.
    cbn [replicate]. f_equal. change (<[0%nat:=b]> (0 :: ?l)) with (b :: l).
    cbn [app]. f_equal. rewrite Hb by done. unfold byte_at.
    by rewrite (nth_lookup_Some _ _ _ _ Hx).
  - assert (write_pos = length d) as Heq by lia.
    rewrite Nat.min_r by lia. by rewrite Heq.
Qed.

Lemma put_byte_full d b :
  put_byte (length d) (filling d (length d), length d) b = (filling d (length d), length d).
Proof. unfold put_byte. by rewrite Nat.ltb_irrefl. Qed.

Lemma put_word_filling d o :
  Forall is_byte d → (o ≤ length d)%nat →
  put_word (length d) (filling d o, o) (word d o)
  = (filling d ((o + 4) `min` length d), ((o + 4) `min` length d)%nat).
Proof.
  intros Hd Hle. unfold put_word.
  pose proof (bytes_of_word _ _ _ _ (byte_at_is_byte d o Hd)
    (byte_at_is_byte d (o + 1) Hd) (byte_at_is_byte d (o + 2) Hd)
    (byte_at_is_byte d (o + 3) Hd)) as Hb.
  fold (word d o) in Hb. unfold bytes_of in Hb. injection Hb as E0 E1 E2 E3.
  rewrite E0, E1, E2, E3. clear E0 E1 E2 E3.
  rewrite put_byte_filling by done.
  destruct (decide (o + 1 ≤ length d)%nat) as [H1|H1].
  2:{ rewrite (Nat.min_r (S o)), (Nat.min_r (o + 4)) by lia. by rewrite !put_byte_full. }
  rewrite (Nat.min_l (S o)) by lia.
  rewrite put_byte_filling by (lia || (intros; f_equal; lia)).
  destruct (decide (o + 2 ≤ length d)%nat) as [H2|H2].
  2:{ rewrite (Nat.min_r (S (S o))), (Nat.min_r (o + 4)) by lia. by rewrite !put_byte_full. }
  rewrite (Nat.min_l (S (S o))) by lia.
  rewrite put_byte_filling by (lia || (intros; f_equal; lia)).
  destruct (decide (o + 3 ≤ length d)%nat) as [H3|H3].
  2:{ rewrite (Nat.min_r (S (S (S o)))), (Nat.min_r (o + 4)) by lia.
      by rewrite !put_byte_full. }
  rewrite (Nat.min_l (S (S (S o)))) by lia.
  rewrite put_byte_filling by (lia || (intros; f_equal; lia)).
  by replace (S (S (S (S o)))) with (o + 4)%nat by lia.
Qed.

(** The group loop over a text whose groups hold the digits of the words
    of [d]. *)
Lemma unpack_groups_words enc d count g :
  Forall is_byte d →
  (∀ g' k, (g ≤ g' < g + count)%nat → (k < 5)%nat →
     char_at enc (5 * g' + k) = enc_char (nth k (digits85 (word d (4 * g'))) 0)) →
  (4 * g ≤ length d)%nat → (length d ≤ 4 * (g + count))%nat →
  (count = 0 → 4 * g = length d)%nat →
  unpack_groups enc (length d) ((λ k, 5 * k)%nat <$> seq g count)
    (filling d (4 * g), (4 * g)%nat)
  = (d, None).
Proof.
  intros Hd. revert g. induction count as [|count IH]; intros g Hchars Hlo Hhi Hzero.
  - cbn [seq fmap list_fmap unpack_groups fst]. unfold filling. rewrite Hzero by done.
    by rewrite firstn_all, Nat.sub_diag, app_nil_r.
  - cbn [seq fmap list_fmap unpack_groups].
    rewrite (decode_group_spec enc (5 * g) (word d (4 * g)));
      [|intros k Hk; apply Hchars; lia|by apply word_range].
    rewrite put_word_filling by done.
    destruct (decide (4 * g + 4 ≤ length d)%nat) as [Hfull|Hpart].
    + rewrite Nat.min_l by lia.
      replace (4 * g + 4)%nat with (4 * S g)%nat by lia.
      apply IH; try lia. intros g' k Hg' Hk. apply Hchars; lia.
    + rewrite Nat.min_r by lia.
      (* the buffer is full: the groups left write nothing *)
      assert (filling d (length d) = d) as Hfill.
      { unfold filling. by rewrite firstn_all, Nat.sub_diag, app_nil_r. }
      rewrite Hfill. clear IH Hzero Hlo.
      assert (∀ starts, Forall (λ i, ∃ g', i = (5 * g')%nat ∧ (g < g' < S g + count)%nat) starts →
                unpack_groups enc (length d) starts (d, length d) = (d, None)) as Hrest.
      { induction starts as [|i starts IHs]; intros Hs; [done|].
        apply Forall_cons in Hs as [(g' & -> & Hg') Hs]. cbn [unpack_groups].
        rewrite (decode_group_spec enc (5 * g') (word d (4 * g')));
          [|intros k Hk; apply Hchars; lia|by apply word_range].
        assert (∀ b, put_byte (length d) (d, length d) b = (d, length d)) as Hput
          by (intros b; unfold put_byte; by rewrite Nat.ltb_irrefl).
        unfold put_word. rewrite !Hput. by apply IHs. }
      apply Hrest. apply Forall_forall. intros i Hi.
      apply list_elem_of_fmap in Hi as (g' & -> & Hg'). apply elem_of_seq in Hg'.
      exists g'. split; [done|lia].
Qed.



(** *** The round trip *)

(** The test [last >= '1' && last <= '3'] of [unpack]. *)
Definition has_marker (enc : list ascii) : bool :=
  let last := char_at enc (length enc - 1) in
  (code "1" <=? code last) && (code last <=? code "3").

(** The number of groups [pack] writes. *)
Definition groups (n : nat) : nat := ((n + 3) `div` 4)%nat.

Lemma groups_full n : (n `mod` 4 = 0 → n = 4 * groups n)%nat.
Proof.
  intros Hr. unfold groups. pose proof (Nat.div_mod_eq n 4).
  pose proof (Nat.div_mod_eq (n + 3) 4). pose proof (Nat.mod_upper_bound (n + 3) 4). lia.
Qed.

Lemma groups_partial n :
  (n `mod` 4 ≠ 0 → groups n = S (n `div` 4) ∧ n = 4 * (n `div` 4) + n `mod` 4)%nat.
Proof.
  intros Hr. unfold groups. pose proof (Nat.div_mod_eq n 4).
  pose proof (Nat.mod_upper_bound n 4).
  pose proof (Nat.div_mod_eq (n + 3) 4). pose proof (Nat.mod_upper_bound (n + 3) 4). lia.
Qed.

Lemma div5_exact m : ((5 * m) `div` 5 = m)%nat.
Proof. rewrite Nat.mul_comm. apply Nat.div_mul. lia. Qed.

Lemma div5_up m : ((5 * m + 4) `div` 5 = m)%nat.
Proof. symmetry. apply (Nat.div_unique _ 5 m 4); lia. Qed.

(** The text [pack] writes, group by group. *)
Lemma pack_text d :
  Forall is_byte d → d ≠ [] →
  let enc := encoded_ (pack (RawData_of_data d)) in
  data_ (pack (RawData_of_data d)) = [] ∧
  (∀ g k, (g < groups (length d))%nat → (k < 5)%nat →
     char_at enc (5 * g + k) = enc_char (nth k (digits85 (word d (4 * g))) 0)) ∧
  ((length d `mod` 4 = 0)%nat → length enc = (5 * groups (length d))%nat) ∧
  ((length d `mod` 4 ≠ 0)%nat →
     length enc = (5 * groups (length d) + 1)%nat ∧
     char_at enc (5 * groups (length d))
     = chr (code "0" + Z.of_nat (4 - length d `mod` 4))).
Proof.
  intros Hd Hne enc.
  destruct (pack_encoded_length (RawData_of_data d) eq_refl Hne) as [Hdata _].
  split; [done|]. clear Hdata.
  assert (∀ (e : list ascii) i c, e !! i = Some c → char_at e i = c) as Hchar
    by (intros e i c Hi; unfold char_at; by rewrite (nth_lookup_Some _ _ _ _ Hi)).
  pose proof (Nat.mod_upper_bound (length d) 4 ltac:(lia)) as Hr.
  subst enc. unfold pack. cbn [RawData_of_data data_ encoded_ is_empty negb orb].
  destruct (is_empty d) eqn:E; [by apply is_empty_true in E|]. cbn [encoded_].
  set (n := length d) in *. set (G := (n `div` 4)%nat) in *.
  destruct (decide (n `mod` 4 = 0)%nat) as [Hr0|Hr0].
  - rewrite Hr0. change ((4 - 0) `mod` 4)%nat with 0%nat.
    change (0 <? 0)%nat with false. cbv iota.
    pose proof (groups_full n Hr0) as HG.
    assert (groups n = G) as HGG.
    { subst G. rewrite HG at 2. rewrite Nat.mul_comm. by rewrite Nat.div_mul by lia. }
    rewrite HGG, Nat.add_0_r. fold G.
    destruct (pack_full_blocks_lookup d G (replicate (G * 5) zero) Hd) as [Hin _];
      [rewrite length_replicate; lia|].
    split_and!; [|by rewrite pack_full_blocks_length, length_replicate; lia|done].
    intros g k Hg Hk. apply Hchar, Hin; lia.
  - destruct (groups_partial n Hr0) as [HG Hn]. fold G in HG, Hn. rewrite HG.
    assert ((4 - n `mod` 4) `mod` 4 = 4 - n `mod` 4)%nat as Hp
      by (apply Nat.mod_small; lia).
    rewrite Hp.
    assert ((n + (4 - n `mod` 4)) `div` 4 * 5 = 5 * S G)%nat as HlenG.
    { replace (n + (4 - n `mod` 4))%nat with (S G * 4)%nat by lia.
      rewrite Nat.div_mul by lia. lia. }
    rewrite HlenG.
    destruct (Nat.ltb_spec 0 (4 - n `mod` 4)) as [_|]; [|lia].
    destruct (Nat.ltb_spec 0 (n `mod` 4)) as [_|]; [|lia].
    set (blank := replicate (5 * S G + 1) zero).
    destruct (pack_full_blocks_lookup d G blank Hd) as [Hin Hout];
      [subst blank; rewrite length_replicate; lia|].
    assert (length (pack_full_blocks d G blank) = 5 * S G + 1)%nat as Hlb
      by (by rewrite pack_full_blocks_length; subst blank; rewrite length_replicate).
    split_and!.
    + intros g k Hg Hk. apply Hchar. rewrite list_lookup_insert_ne by lia.
      destruct (decide (g = G)) as [->|Hlt].
      * rewrite put_group_lookup by lia.
        by rewrite (tail_word_word d (G * 4) (n `mod` 4)), Nat.mul_comm by (done || lia).
      * rewrite put_group_lookup_other by lia. apply Hin; lia.
    + done.
    + intros _. split.
      * by rewrite length_insert, put_group_length, Hlb.
      * apply Hchar. replace (5 * S G)%nat with (5 * G + 5)%nat by lia.
        apply list_lookup_insert_eq. rewrite put_group_length, Hlb. lia.
Qed.



Lemma unpack_text enc d len padding :
  Forall is_byte d → d ≠ [] → Z.of_nat (length d) ≤ vector_max_size →
  (∀ g k, (g < groups (length d))%nat → (k < 5)%nat →
     char_at enc (5 * g + k) = enc_char (nth k (digits85 (word d (4 * g))) 0)) →
  len = (5 * groups (length d))%nat →
  Z.of_nat (length d) = Z.of_nat (groups (length d)) * 4 - padding →
  (let output_len := size_t (Z.of_nat (len `div` 5) * 4 - padding) in
   if vector_max_size <? output_len then (mkRawData [] enc, Some LengthError)
   else
     let output_len := Z.to_nat output_len in
     let '(d, exn) := unpack_groups enc output_len (group_starts len)
                                    (replicate output_len 0, 0%nat) in
     match exn with
     | Some e => (mkRawData d enc, Some e)
     | None => (mkRawData d [], None)
     end) = (mkRawData d [], None).
Proof.
  intros Hd Hne Hmax Hchars -> Hlen. cbv zeta.
  rewrite div5_exact, <- Hlen. unfold size_t.
  assert (vector_max_size < 2 ^ 64) by done.
  rewrite Z.mod_small by lia.
  destruct (Z.ltb_spec vector_max_size (Z.of_nat (length d))) as [|_]; [lia|].
  rewrite Nat2Z.id. unfold group_starts. rewrite div5_up.
  pose proof (unpack_groups_words enc d (groups (length d)) 0 Hd) as Hloop.
  change (4 * 0)%nat with 0%nat in Hloop. unfold filling in Hloop.
  rewrite take_0, Nat.sub_0_r in Hloop. cbn [app] in Hloop.
  rewrite Hloop; [done| |lia| |].
  - intros g k Hg Hk. apply Hchars; lia.
  - unfold groups. pose proof (Nat.div_mod_eq (length d + 3) 4).
    pose proof (Nat.mod_upper_bound (length d + 3) 4). lia.
  - intros H0. destruct d; [done|]. unfold groups in H0. cbn [length] in H0.
    pose proof (Nat.div_mod_eq (S (length d) + 3) 4).
    pose proof (Nat.mod_upper_bound (S (length d) + 3) 4). lia.
Qed.

(** Packing then unpacking gives the bytes back when the byte count is not
    a multiple of four, or when the packed text does not end in one of the
    characters 1, 2, 3. *)
Theorem unpack_pack (d : list Z) :
  Forall is_byte d → Z.of_nat (length d) ≤ vector_max_size →
  (length d `mod` 4 ≠ 0)%nat ∨ has_marker (encoded_ (pack (RawData_of_data d))) = false →
  unpack (pack (RawData_of_data d)) = Ok (RawData_of_data d).
Proof.
  intros Hd Hmax Hcase. destruct (decide (d = [])) as [->|Hne]; [done|].
  destruct (pack_text d Hd Hne) as (Hdata & Hchars & Hfull & Hpart).
  destruct (pack_work (RawData_of_data d)) as [_ Henc].
  { unfold pack_skips. cbn. destruct d; done. }
  unfold has_marker in Hcase.
  destruct (pack (RawData_of_data d)) as [dx enc]. cbn [data_ encoded_] in *. subst dx.
  unfold unpack, unpack_run. cbn [data_ encoded_ is_empty negb orb].
  destruct (is_empty enc) eqn:E; [by apply is_empty_true in E|].
  pose proof (Nat.mod_upper_bound (length d) 4 ltac:(lia)) as Hr.
  destruct (decide (length d `mod` 4 = 0)%nat) as [Hr0|Hr0].
  - destruct Hcase as [|Hcase]; [done|]. rewrite Hcase.
    rewrite (unpack_text enc d _ 0); try done.
    + by apply Hfull.
    + pose proof (groups_full _ Hr0). lia.
  - destruct (Hpart Hr0) as [Hlen Hlast]. destruct (groups_partial _ Hr0) as [HG Hn].
    replace (length enc - 1)%nat with (5 * groups (length d))%nat by lia.
    rewrite Hlast.
    assert (length d `mod` 4 = 1 ∨ length d `mod` 4 = 2 ∨ length d `mod` 4 = 3)%nat
      as [Hr1|[Hr1|Hr1]] by lia; rewrite Hr1 in *;
      change ((code "1" <=? code (chr (code "0" + Z.of_nat _)))
              && (code (chr (code "0" + Z.of_nat _)) <=? code "3")) with true; cbv iota;
      change (code (chr (code "0" + Z.of_nat ?p)) - code "0") with (Z.of_nat p);
      rewrite (unpack_text enc d _ _); try done; lia.
Qed.

(** The two cases at work: three bytes, packed with a marker, and a full
    block whose text ends in the character 0. *)
Example unpack_pack_three_bytes :
  unpack (pack (RawData_of_data [72; 105; 33])) = Ok (RawData_of_data [72; 105; 33]).
Proof.
  apply unpack_pack.
  - repeat (apply Forall_cons_2; [unfold is_byte; lia|]). apply Forall_nil_2.
  - by vm_compute.
  - left. by vm_compute.
Qed.

Example unpack_pack_full_block :
  unpack (pack (RawData_of_data [0; 0; 0; 0])) = Ok (RawData_of_data [0; 0; 0; 0]).
Proof.
  apply unpack_pack.
  - repeat (apply Forall_cons_2; [unfold is_byte; lia|]). apply Forall_nil_2.
  - by vm_compute.
  - right. by vm_compute.
Qed.

End RawRoundTrip.

(** ** Quoted strings *)

Lemma skip_comma_app_nil text : skip_comma (text ++ []) (length text) = length text.
Proof.
  unfold skip_comma. rewrite app_nil_r, (proj2 (Nat.ltb_ge _ _)); [done|lia].
Qed.

Lemma char_at_app_r (s t : list ascii) : char_at (s ++ t) (length s) = char_at t 0.
Proof. unfold char_at. rewrite app_nth2, Nat.sub_diag; [done|lia]. Qed.

Lemma char_at_app_l (s t : list ascii) i : i < length s → char_at (s ++ t) i = char_at s i.
Proof. unfold char_at. intros. by rewrite app_nth1. Qed.

Lemma skip_comma_app_cons text c rest :
  skip_comma (text ++ c :: rest) (length text) =
  if (c =? ",")%char then S (length text) else length text.
Proof.
  unfold skip_comma. rewrite char_at_app_r, length_app. simpl.
  by rewrite (proj2 (Nat.ltb_lt _ _)) by lia.
Qed.

Lemma hex_upper_cases n :
  hex_upper n ∈ zero :: str "0123456789ABCDEF".
Proof.
  unfold hex_upper. generalize (Z.to_nat n). intros k.
  do 17 (destruct k as [|k]; [simpl; set_solver|]). simpl. set_solver.
Qed.

Lemma hex_upper_not_special n :
  (hex_upper n =? dquote)%char = false ∧ (hex_upper n =? backslash)%char = false.
Proof.
  pose proof (hex_upper_cases n) as Hc. simpl in Hc.
  repeat (apply elem_of_cons in Hc as [-> | Hc]; [done|]).
  by apply elem_of_nil in Hc.
Qed.

(** The last character of a non-empty text, NUL for the empty one. *)
Definition last_char (prev : ascii) (s : list ascii) : ascii := List.last s prev.

(** Scanning over the escape of one character never stops, whatever came
    before it. *)
Lemma scan_escape_char c prev t :
  scan_end_quote prev (escape_char c ++ t) =
  length (escape_char c) + scan_end_quote (last_char prev (escape_char c)) t.
Proof.
  unfold escape_char.
  repeat match goal with
  | |- context [if (?a =? ?b)%char then _ else _] =>
      destruct (Ascii.eqb_spec a b) as [->|?]; [reflexivity|]
  end.
  destruct (code c <? 32)%Z.
  - unfold u_escape. cbn [app scan_end_quote length last_char List.last].
    change ((backslash =? dquote)%char) with false.
    change (("u" =? dquote)%char) with false. cbn [andb negb].
    by rewrite !(proj1 (hex_upper_not_special _)).
  - cbn [app scan_end_quote length last_char List.last].
    by rewrite (proj2 (Ascii.eqb_neq c dquote)).
Qed.

Lemma last_char_escape prev c :
  last_char prev (escape_char c) = backslash ↔ c = backslash.
Proof.
  unfold escape_char.
  destruct (Ascii.eqb_spec c dquote) as [->|?]; [done|].
  destruct (Ascii.eqb_spec c backslash) as [->|?]; [done|].
  repeat match goal with
  | |- context [if (?a =? ?b)%char then _ else _] =>
      destruct (Ascii.eqb_spec a b) as [->|?]; [done|]
  end.
  destruct (code c <? 32)%Z; simpl; [|done].
  split; [|done]. intros E.
  pose proof (proj2 (hex_upper_not_special (code c mod 16))) as Hh.
  rewrite E in Hh. done.
Qed.

Lemma escape_char_nonempty c : escape_char c ≠ [].
Proof.
  unfold escape_char.
  repeat match goal with
  | |- context [if ?b then _ else _] => destruct b; [done|]
  end. done.
Qed.

(** The characters that survive a trip through the quoting: everything
    from the space on, and the five named control characters. *)
Definition char_ok (c : ascii) : Prop :=
  (32 ≤ code c)%Z ∨ c ∈ [char_n; char_r; char_t; char_b; char_f].

Definition string_ok (s : list ascii) : Prop :=
  Forall char_ok s ∧ List.last s zero ≠ backslash.

Lemma last_cons_cons {A} (a b : A) l d : List.last (a :: b :: l) d = List.last (b :: l) d.
Proof. done. Qed.

Lemma scan_escaped s prev rest :
  (s = [] → prev ≠ backslash) →
  List.last s zero ≠ backslash →
  scan_end_quote prev (concat (escape_char <$> s) ++ dquote :: rest) =
  length (concat (escape_char <$> s)).
Proof.
  revert prev. induction s as [|c s IH]; intros prev Hprev Hlast.
  - simpl. change ((dquote =? dquote)%char) with true.
    by rewrite (proj2 (Ascii.eqb_neq prev backslash)) by auto.
  - rewrite fmap_cons. cbn [concat]. rewrite <- app_assoc, scan_escape_char, length_app.
    f_equal. apply IH.
    + intros ->. simpl in Hlast. intros E. by apply last_char_escape in E.
    + destruct s; [done|]. by rewrite last_cons_cons in Hlast.
Qed.

Lemma unescape_no_backslash s : find_char backslash s = None → unescape s = s.
Proof.
  induction s as [|c s IH]; [done|]. simpl.
  destruct (Ascii.eqb_spec c backslash) as [->|?]; [done|].
  intros Hf. destruct (find_char backslash s); [done|]. by rewrite IH.
Qed.

Lemma unescape_escape_char c t :
  char_ok c → unescape (escape_char c ++ t) = c :: unescape t.
Proof.
  intros Hc. unfold escape_char.
  repeat match goal with
  | |- context [if (?a =? ?b)%char then _ else _] =>
      destruct (Ascii.eqb_spec a b) as [->|?]; [reflexivity|]
  end.
  destruct (code c <? 32)%Z eqn:E.
  - exfalso. destruct Hc as [Hc|Hc]; [lia|].
    repeat (apply elem_of_cons in Hc as [-> | Hc]; [done|]).
    by apply elem_of_nil in Hc.
  - simpl. by rewrite (proj2 (Ascii.eqb_neq c backslash)).
Qed.

Lemma unescape_escaped s :
  Forall char_ok s → unescape (concat (escape_char <$> s)) = s.
Proof.
  induction 1 as [|c s Hc _ IH]; [done|].
  rewrite fmap_cons. cbn [concat]. by rewrite unescape_escape_char, IH.
Qed.

(** [parse_string] always answers the expansion of the content: a content
    without backslash is its own expansion. *)
Lemma parse_string_unfold data :
  char_at data 0 = dquote →
  parse_string data =
    let end_quote := S (scan_end_quote dquote (drop 1 data)) in
    Ok (unescape (substr data 1 (end_quote - 1)), skip_comma data (end_quote + 1)).
Proof.
  intros Hq. unfold parse_string. rewrite Hq. simpl.
  destruct (find_char backslash _) eqn:E; [done|].
  by rewrite (unescape_no_backslash _ E).
Qed.

(** A quoted text whose body the scan runs through, and nothing else. *)
Lemma parse_string_quoted body rest :
  scan_end_quote dquote (body ++ dquote :: rest) = length body →
  parse_string ([dquote] ++ body ++ [dquote] ++ rest) =
  Ok (unescape body,
      skip_comma ([dquote] ++ body ++ [dquote] ++ rest) (length ([dquote] ++ body ++ [dquote]))).
Proof.
  intros Hscan. rewrite parse_string_unfold by done.
  cbn [app drop]. rewrite drop_0, Hscan.
  unfold substr. cbn [drop]. rewrite drop_0, Nat.sub_succ, Nat.sub_0_r, take_app_length.
  do 2 f_equal. rewrite length_cons, length_app. simpl. lia.
Qed.

Lemma length_serialize_string s :
  length (serialize_string s) = S (S (length (concat (escape_char <$> s)))).
Proof. unfold serialize_string. rewrite !length_app. simpl. lia. Qed.

(** The round trip of a string the quoting can carry. *)
Lemma parse_serialize_string s rest :
  string_ok s →
  parse_string (serialize_string s ++ rest) =
  Ok (s, skip_comma (serialize_string s ++ rest) (length (serialize_string s))).
Proof.
  intros [Hok Hlast]. unfold serialize_string. rewrite <- !app_assoc.
  rewrite parse_string_quoted by (apply scan_escaped; done).
  by rewrite unescape_escaped.
Qed.

(** ** Decimal integers *)

Lemma small_digit d :
  (0 ≤ d < 10)%Z →
  (d = 0 ∨ d = 1 ∨ d = 2 ∨ d = 3 ∨ d = 4 ∨ d = 5 ∨ d = 6 ∨ d = 7 ∨ d = 8 ∨ d = 9)%Z.
Proof. lia. Qed.

Lemma digit_char_is_digit d : (0 ≤ d < 10)%Z → is_digit (digit_char d) = true.
Proof. intros Hd%small_digit. by repeat destruct Hd as [->|Hd]; try subst d. Qed.

Lemma digit_value_char d : (0 ≤ d < 10)%Z → digit_value (digit_char d) = d.
Proof. intros Hd%small_digit. by repeat destruct Hd as [->|Hd]; try subst d. Qed.

Lemma digits_value_snoc ds c :
  digits_value (ds ++ [c]) = (digits_value ds * 10 + digit_value c)%Z.
Proof. unfold digits_value. by rewrite foldl_app. Qed.

(** What [digits_from] pushes in front of [acc]. *)
Lemma digits_from_spec fuel n acc :
  (0 ≤ n < 2 ^ Z.of_nat (S fuel))%Z →
  ∃ ds, digits_from (S fuel) n acc = ds ++ acc ∧ ds ≠ [] ∧
        Forall (λ c, is_digit c = true) ds ∧ digits_value ds = n.
Proof.
  revert n acc. induction fuel as [|fuel IH]; intros n acc Hn.
  - change (2 ^ Z.of_nat 1)%Z with 2%Z in Hn. exists [digit_char (n mod 10)].
    cbn [digits_from]. rewrite (proj2 (Z.ltb_lt n 10)) by lia.
    rewrite Z.mod_small by lia. split; [done|]. split; [done|].
    split; [constructor; [apply digit_char_is_digit; lia|done]|].
    unfold digits_value. simpl. rewrite digit_value_char; lia.
  - assert (0 ≤ n mod 10 < 10)%Z as Hm by (apply Z.mod_pos_bound; lia).
    rewrite (Nat2Z.inj_succ (S fuel)), Z.pow_succ_r in Hn by lia.
    change (digits_from (S (S fuel)) n acc) with
      (if (n <? 10)%Z then digit_char (n mod 10) :: acc
       else digits_from (S fuel) (n / 10) (digit_char (n mod 10) :: acc)).
    destruct (Z.ltb_spec n 10) as [Hlt|Hge].
    + exists [digit_char (n mod 10)]. rewrite Z.mod_small by lia.
      split; [done|]. split; [done|].
      split; [constructor; [apply digit_char_is_digit; lia|done]|].
      unfold digits_value. simpl. rewrite digit_value_char; lia.
    + destruct (IH (n / 10)%Z (digit_char (n mod 10) :: acc)) as (ds & Hds & Hne & Hdig & Hval).
      { split; [apply Z.div_pos; lia|].
        apply Z.div_lt_upper_bound; lia. }
      exists (ds ++ [digit_char (n mod 10)]). rewrite Hds, <- app_assoc.
      split; [done|]. split; [by destruct ds|].
      split; [apply Forall_app; split; [done|]; constructor;
              [apply digit_char_is_digit; lia|done]|].
      rewrite digits_value_snoc, Hval, digit_value_char by lia.
      pose proof (Z.div_mod n 10). lia.
Qed.

Lemma decimal_spec n :
  (0 ≤ n)%Z →
  decimal n ≠ [] ∧ Forall (λ c, is_digit c = true) (decimal n) ∧
  digits_value (decimal n) = n.
Proof.
  intros Hn. unfold decimal.
  destruct (digits_from_spec (Z.to_nat (Z.log2 n)) n []) as (ds & -> & ? & ? & ?).
  - split; [done|]. rewrite Nat2Z.inj_succ, Z2Nat.id by apply Z.log2_nonneg.
    destruct (decide (n = 0%Z)) as [->|?]; [done|].
    apply Z.log2_spec. lia.
  - by rewrite app_nil_r.
Qed.

Lemma span_digits_app ds rest :
  Forall (λ c, is_digit c = true) ds →
  is_digit (char_at rest 0) = false →
  span_digits (ds ++ rest) = ds.
Proof.
  intros Hds Hrest. induction Hds as [|c ds Hc _ IH]; simpl.
  - destruct rest as [|c rest]; [done|]. simpl. unfold char_at in Hrest. simpl in Hrest.
    by rewrite Hrest.
  - by rewrite Hc, IH.
Qed.

Lemma is_digit_minus : is_digit "-" = false.
Proof. done. Qed.

Lemma from_chars_int_minus T body :
  is_signed T = true →
  from_chars_int T ("-"%char :: body) =
  let ds := span_digits body in
  if is_empty ds then (0%Z, 0, invalid_argument)
  else if (- digits_value ds <? min_value T)%Z || (max_value T <? - digits_value ds)%Z
       then (0%Z, S (length ds), result_out_of_range)
       else ((- digits_value ds)%Z, S (length ds), errc_ok).
Proof. intros Hs. unfold from_chars_int. rewrite Hs. reflexivity. Qed.

Lemma from_chars_int_digit T c body :
  is_digit c = true →
  from_chars_int T (c :: body) =
  let ds := span_digits (c :: body) in
  if (digits_value ds <? min_value T)%Z || (max_value T <? digits_value ds)%Z
  then (0%Z, length ds, result_out_of_range)
  else (digits_value ds, length ds, errc_ok).
Proof.
  intros Hc. unfold from_chars_int.
  assert (is_signed T && (char_at (c :: body) 0 =? "-")%char
          && negb (is_empty (c :: body)) = false) as ->.
  { unfold char_at. simpl. destruct (Ascii.eqb_spec c "-") as [->|?]; [done|].
    by rewrite andb_false_r. }
  cbn [span_digits]. rewrite Hc. done.
Qed.

(** [from_chars] reads back what [to_chars] wrote, up to the first
    character that is not a digit. *)
Lemma from_chars_to_chars_int T v rest :
  in_range T v →
  is_digit (char_at rest 0) = false →
  from_chars_int T (to_chars_int v ++ rest) = (v, length (to_chars_int v), errc_ok).
Proof.
  intros [Hlo Hhi] Hrest. unfold to_chars_int.
  destruct (Z.ltb_spec v 0) as [Hneg|Hpos].
  - assert (is_signed T = true) as Hs by (destruct T; simpl in *; done || lia).
    destruct (decimal_spec (- v)) as (Hne & Hdig & Hval); [lia|].
    rewrite <- app_comm_cons, from_chars_int_minus by done. cbn zeta.
    rewrite span_digits_app by done.
    destruct (decimal (- v)) as [|d ds] eqn:E; [done|]. cbn [is_empty].
    rewrite Hval, Z.opp_involutive.
    rewrite (proj2 (Z.ltb_ge v _)), (proj2 (Z.ltb_ge _ v)) by lia. done.
  - destruct (decimal_spec v) as (Hne & Hdig & Hval); [lia|].
    destruct (decimal v) as [|d ds] eqn:E; [done|].
    rewrite <- app_comm_cons, from_chars_int_digit by (by apply Forall_cons in Hdig as [? _]).
    cbn zeta. rewrite app_comm_cons, span_digits_app by done.
    rewrite Hval.
    rewrite (proj2 (Z.ltb_ge v _)), (proj2 (Z.ltb_ge _ v)) by lia. done.
Qed.

(** ** Unquoted scalars and arrays *)

(** The characters of a number literal: no delimiter, bracket or quote. *)
Definition is_plain (c : ascii) : bool :=
  negb (is_value_end c) && negb (c =? "[")%char && negb (c =? dquote)%char.

(** What may follow a value in a line or in an array. *)
Definition comma_or_end (rest : list ascii) : Prop :=
  rest = [] ∨ ∃ r, rest = ","%char :: r.

(** [text] is a literal that [parse] reads back as [x], alone or before a
    comma. *)
Definition reparses {T} (parse : list ascii → result (T * nat))
    (text : list ascii) (x : T) : Prop :=
  text ≠ [] ∧ Forall (λ c, is_plain c = true) text ∧
  ∀ rest, comma_or_end rest → parse (text ++ rest) = Ok (x, length text).

Ltac char_cases c :=
  repeat match goal with
  | |- context [(c =? ?b)%char] => destruct (Ascii.eqb_spec c b) as [->|?]; try done
  end.

Lemma digit_is_plain c : is_digit c = true → is_plain c = true.
Proof.
  intros Hc. unfold is_plain, is_value_end. char_cases c.
Qed.

Lemma to_chars_int_plain v : Forall (λ c, is_plain c = true) (to_chars_int v).
Proof.
  unfold to_chars_int. destruct (Z.ltb_spec v 0).
  - constructor; [done|]. destruct (decimal_spec (- v)) as (_ & Hd & _); [lia|].
    eapply Forall_impl; [exact Hd|]. apply digit_is_plain.
  - destruct (decimal_spec v) as (_ & Hd & _); [lia|].
    eapply Forall_impl; [exact Hd|]. apply digit_is_plain.
Qed.

Lemma to_chars_int_nonempty v : to_chars_int v ≠ [].
Proof.
  unfold to_chars_int. destruct (Z.ltb_spec v 0); [done|].
  by destruct (decimal_spec v) as (? & _); [lia|].
Qed.

Lemma comma_or_end_no_digit rest : comma_or_end rest → is_digit (char_at rest 0) = false.
Proof. by intros [->|[r ->]]. Qed.

Lemma int_reparses T v :
  in_range T v → reparses (parse_number_int T) (to_chars_int v) v.
Proof.
  intros Hv. split; [apply to_chars_int_nonempty|]. split; [apply to_chars_int_plain|].
  intros rest Hrest. unfold parse_number_int.
  by rewrite from_chars_to_chars_int by auto using comma_or_end_no_digit.
Qed.

Lemma find_value_end_plain text rest :
  Forall (λ c, is_plain c = true) text → comma_or_end rest →
  find_value_end (text ++ rest) = length text.
Proof.
  intros Ht Hrest. induction Ht as [|c text Hc _ IH]; simpl.
  - by destruct Hrest as [->|[r ->]].
  - unfold is_plain in Hc. destruct (is_value_end c); [done|]. by rewrite IH.
Qed.

Lemma skip_comma_comma_or_end text rest :
  comma_or_end rest →
  skip_comma (text ++ rest) (length text) = length text + length (take 1 rest).
Proof.
  intros [->|[r ->]].
  - rewrite skip_comma_app_nil. simpl. lia.
  - rewrite skip_comma_app_cons. simpl. lia.
Qed.

(** *** Arrays *)

Definition no_bracket_quote (c : ascii) : bool :=
  negb (c =? "[")%char && negb (c =? "]")%char && negb (c =? dquote)%char.

Lemma closing_bracket_body prev body rest :
  Forall (λ c, no_bracket_quote c = true) body →
  closing_bracket_from prev 1 false (body ++ "]"%char :: rest) = Some (length body).
Proof.
  intros Hb. revert prev. induction Hb as [|c body Hc _ IH]; intros prev.
  - cbn [app length closing_bracket_from].
    change (("]" =? dquote)%char) with false. change (("]" =? "[")%char) with false.
    change (("]" =? "]")%char) with true. done.
  - cbn [app length closing_bracket_from]. unfold no_bracket_quote in Hc.
    rewrite !andb_true_iff, !negb_true_iff in Hc. destruct Hc as [[-> ->] ->].
    cbn [andb negb]. by rewrite IH.
Qed.

Lemma find_closing_bracket_array body rest :
  Forall (λ c, no_bracket_quote c = true) body →
  find_closing_bracket ("["%char :: body ++ "]"%char :: rest) = Ok (S (length body)).
Proof.
  intros Hb. unfold find_closing_bracket. cbn [closing_bracket_from].
  change (("[" =? dquote)%char) with false. change (("[" =? "[")%char) with true.
  cbn [andb negb]. by rewrite closing_bracket_body.
Qed.

Lemma plain_no_bracket_quote c : is_plain c = true → no_bracket_quote c = true.
Proof.
  unfold is_plain, no_bracket_quote, is_value_end. char_cases c.
Qed.

Lemma comma_join_from_no_bracket_quote first texts :
  Forall (Forall (λ c, is_plain c = true)) texts →
  Forall (λ c, no_bracket_quote c = true) (comma_join_from first texts).
Proof.
  intros Ht. revert first. induction Ht as [|t texts Hh _ IH]; intros first; [done|].
  cbn [comma_join_from]. apply Forall_app. split; [by destruct first; repeat constructor|].
  apply Forall_app. split; [|apply IH].
  eapply Forall_impl; [exact Hh|]. apply plain_no_bracket_quote.
Qed.

Lemma comma_join_from_false_comma_or_end texts :
  comma_or_end (comma_join_from false texts).
Proof. destruct texts; [by left|]. right. by eexists. Qed.

Lemma comma_join_from_false_cons t texts :
  comma_join_from false (t :: texts) = ","%char :: comma_join_from true (t :: texts).
Proof. done. Qed.

Lemma drop_app_length_S {A} (l : list A) x k : drop (S (length l)) (l ++ x :: k) = k.
Proof. induction l; [done|]. simpl. done. Qed.

Lemma bind_Ok {A B} (a : A) (f : A → result B) : mbind f (Ok a) = f a.
Proof. done. Qed.

(** The element loop reads back a comma-joined run of literals. *)
Lemma parse_elements_comma_join {T} (parse : list ascii → result (T * nat)) texts xs fuel :
  Forall2 (reparses parse) texts xs →
  length (comma_join texts) < fuel →
  parse_elements parse fuel (comma_join texts) = Ok xs.
Proof.
  intros Hall. revert fuel. unfold comma_join.
  induction Hall as [|t x texts xs (Hne & Hplain & Hparse) _ IH]; intros fuel Hfuel.
  - destruct fuel; [lia|]. done.
  - destruct fuel as [|fuel]; [lia|].
    change (comma_join_from true (t :: texts)) with (t ++ comma_join_from false texts) in *.
    rewrite length_app in Hfuel.
    assert (0 < length t) as Hlen by (destruct t; [done|simpl; lia]).
    cbn [parse_elements].
    destruct (is_empty (t ++ comma_join_from false texts)) eqn:E.
    { apply is_empty_true in E. by destruct t. }
    rewrite Hparse by apply comma_join_from_false_comma_or_end. rewrite bind_Ok.
    destruct texts as [|t' texts'].
    + cbn [comma_join_from]. rewrite skip_comma_app_nil.
      rewrite (proj2 (Nat.eqb_neq _ 0)) by lia.
      rewrite drop_app_length.
      change (@nil ascii) with (comma_join_from true []) at 1.
      rewrite (IH fuel) by (simpl; lia). done.
    + rewrite comma_join_from_false_cons, skip_comma_app_cons.
      change (("," =? ",")%char) with true. cbn match.
      rewrite drop_app_length_S.
      rewrite (IH fuel); [done|].
      rewrite comma_join_from_false_cons in Hfuel. simpl in Hfuel. simpl. lia.
Qed.

Lemma parse_array_comma_join {T} (parse : list ascii → result (T * nat)) texts xs rest :
  Forall2 (reparses parse) texts xs →
  parse_array parse (serialize_array texts ++ rest) =
  Ok (xs, skip_comma (serialize_array texts ++ rest) (length (serialize_array texts))).
Proof.
  intros Hall. unfold parse_array, serialize_array.
  assert (Forall (λ c, no_bracket_quote c = true) (comma_join texts)) as Hnb.
  { apply comma_join_from_no_bracket_quote.
    clear -Hall. induction Hall as [|???? (_ & ? & _)]; by constructor. }
  rewrite <- !app_assoc. cbn [app char_at nth].
  change (("[" =? "[")%char) with true. cbn [negb].
  rewrite find_closing_bracket_array, bind_Ok by done.
  unfold substr. cbn [drop]. rewrite drop_0, Nat.sub_succ, Nat.sub_0_r, take_app_length.
  rewrite (parse_elements_comma_join parse texts xs) by (done || lia).
  rewrite bind_Ok. do 3 f_equal. rewrite length_cons, length_app. simpl. lia.
Qed.

(** ** Values and lines *)

Section FonFacts.
Context `{FloatLib}.

Definition is_quote_safe (c : ascii) : bool :=
  negb (c =? dquote)%char && negb (c =? backslash)%char.

(** The values the line grammar carries: integers of their width, floats
    whose literal the library reads back, booleans, strings the quoting
    can carry, raw blobs that hold one form and whose text is free of
    quotes and backslashes, and arrays of numbers. *)
Definition wf_value (v : FonValue) : Prop :=
  match v with
  | VByte x => in_range UInt8 x
  | VShort x => in_range Int16 x
  | VInt x => in_range Int32 x
  | VUInt x => in_range UInt32 x
  | VLong x => in_range Int64 x
  | VULong x => in_range UInt64 x
  | VFloat x => reparses parse_number_float (to_chars_float x) x
  | VDouble x => reparses parse_number_double (to_chars_double x) x
  | VBool _ => True
  | VString s => string_ok s
  | VRaw None => False
  | VRaw (Some raw) =>
      RawFacts.exclusive raw ∧
      Forall (λ c, is_quote_safe c = true) (Raw.encoded_ (Raw.pack raw))
  | VByteArray l => Forall (in_range UInt8) l
  | VShortArray l => Forall (in_range Int16) l
  | VIntArray l => Forall (in_range Int32) l
  | VUIntArray l => Forall (in_range UInt32) l
  | VLongArray l => Forall (in_range Int64) l
  | VULongArray l => Forall (in_range UInt64) l
  | VFloatArray l => Forall (λ x, reparses parse_number_float (to_chars_float x) x) l
  | VDoubleArray l => Forall (λ x, reparses parse_number_double (to_chars_double x) x) l
  | VBoolArray _ => False
  | VStringArray _ => False
  end.

(** A key the line grammar carries: no equals sign, no leading comma. *)
Definition key_ok (k : list ascii) : Prop :=
  find_char "=" k = None ∧ (char_at k 0 =? ",")%char = false.

Lemma reparses_alone {T} (parse : list ascii → result (T * nat)) text x :
  reparses parse text x → parse text = Ok (x, length text).
Proof. intros (_ & _ & Hp). rewrite <- (app_nil_r text) at 1. apply Hp. by left. Qed.

Lemma reparses_head {T} (parse : list ascii → result (T * nat)) text x rest :
  reparses parse text x →
  is_empty (text ++ rest) = false ∧ (char_at (text ++ rest) 0 =? "[")%char = false.
Proof.
  intros (Hne & Hplain & _). destruct text as [|c text]; [done|]. split; [done|].
  apply Forall_cons in Hplain as [Hc _]. unfold is_plain in Hc.
  rewrite !andb_true_iff, !negb_true_iff in Hc. unfold char_at. simpl.
  by destruct Hc as [[_ ->] _].
Qed.

Lemma reparses_value_str {T} (parse : list ascii → result (T * nat)) text x rest :
  reparses parse text x → comma_or_end rest →
  find_value_end (text ++ rest) = length text ∧
  substr (text ++ rest) 0 (length text) = text.
Proof.
  intros (_ & Hplain & _) Hrest. split; [by apply find_value_end_plain|].
  unfold substr. by rewrite drop_0, take_app_length.
Qed.

(** Decide the comparisons between two given characters. *)
Ltac decide_tags :=
  repeat match goal with
  | |- context [(?a =? ?b)%char] =>
      let r := eval vm_compute in (a =? b)%char in
      first [constr_eq r true | constr_eq r false];
      change ((a =? b)%char) with r
  end.

Ltac number_case Hre Hrest :=
  let Hne := fresh in let Hbr := fresh in let Hend := fresh in let Hsub := fresh in
  match type of Hrest with comma_or_end ?rest =>
    destruct (reparses_head _ _ _ rest Hre) as [Hne Hbr];
    destruct (reparses_value_str _ _ _ rest Hre Hrest) as [Hend Hsub]
  end;
  unfold parse_value; rewrite Hne, Hbr; decide_tags; cbn match; cbn zeta;
  rewrite Hend, Hsub, (reparses_alone _ _ _ Hre); reflexivity.

Lemma Forall2_reparses {T} (parse : list ascii → result (T * nat)) (to_chars : T → list ascii) l :
  Forall (λ x, reparses parse (to_chars x) x) l →
  Forall2 (reparses parse) (to_chars <$> l) l.
Proof. induction 1; by constructor. Qed.

Lemma Forall2_int_reparses T l :
  Forall (in_range T) l →
  Forall2 (reparses (parse_number_int T)) (to_chars_int <$> l) l.
Proof. induction 1; constructor; [by apply int_reparses|done]. Qed.

Ltac head_case data Hne Hbr c :=
  assert (is_empty data = false) as Hne by done;
  assert (char_at data 0 = c) as Hbr by done;
  unfold parse_value; rewrite Hne, Hbr; decide_tags; cbn match.

Ltac array_case Hall :=
  match goal with
  | |- parse_value _ ?data _ = _ =>
      let Hne := fresh in let Hbr := fresh in
      head_case data Hne Hbr "["%char;
      rewrite (parse_array_comma_join _ _ _ _ Hall); reflexivity
  end.

Lemma scan_quote_safe prev enc rest :
  Forall (λ c, is_quote_safe c = true) enc →
  (prev =? backslash)%char = false →
  scan_end_quote prev (enc ++ dquote :: rest) = length enc.
Proof.
  intros He. revert prev. induction He as [|c enc Hc _ IH]; intros prev Hprev.
  - simpl. change ((dquote =? dquote)%char) with true. by rewrite Hprev.
  - unfold is_quote_safe in Hc. rewrite andb_true_iff, !negb_true_iff in Hc.
    destruct Hc as [Hq Hb]. simpl. rewrite Hq. simpl. by rewrite IH.
Qed.

Lemma find_backslash_safe enc :
  Forall (λ c, is_quote_safe c = true) enc → find_char backslash enc = None.
Proof.
  induction 1 as [|c enc Hc _ IH]; [done|].
  unfold is_quote_safe in Hc. rewrite andb_true_iff, !negb_true_iff in Hc.
  destruct Hc as [_ Hb]. simpl. by rewrite Hb, IH.
Qed.

Lemma exclusive_pack_data raw : RawFacts.exclusive raw → Raw.data_ (Raw.pack raw) = [].
Proof.
  intros Hx. destruct (RawFacts.pack_skips raw) eqn:G.
  - rewrite RawFacts.pack_skip by done.
    unfold RawFacts.exclusive, Raw.is_packed, Raw.is_unpacked in Hx.
    unfold RawFacts.pack_skips in G.
    destruct (Raw.data_ raw); [done|]. destruct (Raw.encoded_ raw); done.
  - by destruct (RawFacts.pack_work raw G).
Qed.

(** Every value of [wf_value] is read back from its text, alone or before
    a comma, with the tag [get_type_char] gives it. *)
Lemma parse_value_serialize v rest :
  wf_value v → comma_or_end rest →
  parse_value false ((serialize_value v).1 ++ rest) (get_type_char v) =
  Ok ((serialize_value v).2,
      skip_comma ((serialize_value v).1 ++ rest) (length (serialize_value v).1)).
Proof.
  intros Hv Hrest.
  destruct v as [x|x|x|x|x|x|x|x|b|s|[raw|]|l|l|l|l|l|l|l|l|l|l];
    cbn [wf_value serialize_value get_type_char fst snd] in *; try done.
  - pose proof (int_reparses _ _ Hv) as Hre. number_case Hre Hrest.
  - pose proof (int_reparses _ _ Hv) as Hre. number_case Hre Hrest.
  - pose proof (int_reparses _ _ Hv) as Hre. number_case Hre Hrest.
  - pose proof (int_reparses _ _ Hv) as Hre. number_case Hre Hrest.
  - pose proof (int_reparses _ _ Hv) as Hre. number_case Hre Hrest.
  - pose proof (int_reparses _ _ Hv) as Hre. number_case Hre Hrest.
  - number_case Hv Hrest.
  - number_case Hv Hrest.
  - (* bool *)
    unfold parse_value. cbn [app is_empty char_at nth].
    assert (find_value_end (bool_char b :: rest) = 1) as Hend.
    { change (bool_char b :: rest) with ([bool_char b] ++ rest).
      apply find_value_end_plain; [|done]. by destruct b; repeat constructor. }
    destruct b; decide_tags; cbn match; cbn zeta; rewrite Hend; reflexivity.
  - (* string *)
    head_case (serialize_string s ++ rest) Hne Hbr dquote.
    by rewrite parse_serialize_string.
  - (* raw *)
    destruct Hv as [Hx Hsafe].
    head_case (([dquote] ++ Raw.encoded_ (Raw.pack raw) ++ [dquote]) ++ rest) Hne Hbr dquote.
    rewrite <- !app_assoc.
    rewrite parse_string_quoted by (by apply scan_quote_safe).
    rewrite unescape_no_backslash by (by apply find_backslash_safe).
    rewrite bind_Ok. cbn match. rewrite bind_Ok.
    unfold Raw.RawData_of_encoded. rewrite <- (exclusive_pack_data raw Hx).
    by rewrite RawFacts.RawData_eta.
  - apply Forall2_int_reparses in Hv. array_case Hv.
  - apply Forall2_int_reparses in Hv. array_case Hv.
  - apply Forall2_int_reparses in Hv. array_case Hv.
  - apply Forall2_int_reparses in Hv. array_case Hv.
  - apply Forall2_int_reparses in Hv. array_case Hv.
  - apply Forall2_int_reparses in Hv. array_case Hv.
  - apply Forall2_reparses in Hv. array_case Hv.
  - apply Forall2_reparses in Hv. array_case Hv.
Qed.



(** *** The entry loop *)

(** The value as [serialize_value] leaves it. *)
Definition after_serialize (v : FonValue) : FonValue := (serialize_value v).2.

Definition entry_ok (kv : list ascii * FonValue) : Prop :=
  key_ok kv.1 ∧ wf_value kv.2.

Definition add_entry (c : FonCollection) (kv : list ascii * FonValue) : FonCollection :=
  collection_add kv.1 (after_serialize kv.2) c.

(** What is left of [rest] once a value before it has been read: the comma
    is consumed with the value, and one more comma by the loop. *)
Definition after_value (rest : list ascii) : list ascii :=
  match rest with
  | [] => []
  | _ :: r =>
      match r with
      | c :: r' => if (c =? ",")%char then r' else r
      | [] => []
      end
  end.

Lemma drop_after_value text rest :
  comma_or_end rest →
  drop (skip_comma (text ++ rest) (skip_comma (text ++ rest) (length text))) (text ++ rest)
  = after_value rest.
Proof.
  intros [->|[r ->]].
  - rewrite !skip_comma_app_nil. by rewrite drop_app_length.
  - rewrite skip_comma_app_cons. change (("," =? ",")%char) with true. cbn match.
    unfold skip_comma. rewrite length_app. cbn [length after_value].
    destruct r as [|c r'].
    + cbn [length]. rewrite (proj2 (Nat.ltb_ge _ _)) by lia. cbn [andb].
      by rewrite drop_app_length_S.
    + cbn [length]. rewrite (proj2 (Nat.ltb_lt _ _)) by lia. cbn [andb].
      replace (char_at (text ++ ","%char :: c :: r') (S (length text))) with c.
      2:{ unfold char_at. rewrite app_nth2 by lia.
          by replace (S (length text) - length text) with 1 by lia. }
      destruct (c =? ",")%char.
      * change (","%char :: c :: r') with ([","%char] ++ c :: r').
        rewrite app_assoc.
        replace (S (S (length text))) with (S (length (text ++ [","%char])))
          by (rewrite length_app; simpl; lia).
        by rewrite drop_app_length_S.
      * by rewrite drop_app_length_S.
Qed.

Lemma find_char_app c s t :
  find_char c s = None → find_char c (s ++ c :: t) = Some (length s).
Proof.
  induction s as [|x s IH]; simpl.
  - by rewrite Ascii.eqb_refl.
  - destruct (x =? c)%char; [done|]. destruct (find_char c s); [done|].
    intros _. by rewrite IH.
Qed.

(** One turn of the loop on a well-formed entry. *)
Lemma deserialize_entry fuel k v rest c :
  key_ok k → wf_value v → comma_or_end rest →
  deserialize_entries false (S fuel) (serialize_entry (k, v) ++ rest) c =
  deserialize_entries false fuel (after_value rest) (add_entry c (k, v)).
Proof.
  intros [Hk _] Hv Hrest. unfold serialize_entry. cbn [fst snd].
  rewrite <- !app_assoc. cbn [app deserialize_entries].
  destruct (is_empty _) eqn:E; [apply is_empty_true in E; by destruct k|]. clear E.
  rewrite find_char_app by done.
  unfold substr. rewrite drop_0, take_app_length.
  replace (length k + 1) with (S (length k)) by lia. rewrite drop_app_length_S.
  cbn [length Nat.leb orb char_at nth drop]. change ((":" =? ":")%char) with true.
  cbn [negb]. cbn match. rewrite !drop_0, parse_value_serialize by done. rewrite bind_Ok.
  cbn match. by rewrite drop_after_value.
Qed.

Lemma after_value_entries kv l junk :
  key_ok kv.1 →
  after_value (serialize_entries false (kv :: l) ++ junk) =
  serialize_entry kv ++ serialize_entries false l ++ junk.
Proof.
  intros [Hk Hc]. cbn [serialize_entries]. rewrite <- !app_assoc. cbn [app after_value].
  unfold serialize_entry. destruct kv as [k v]. cbn [fst snd] in *.
  destruct k as [|x k]; [done|]. unfold char_at in Hc. simpl in Hc. simpl. by rewrite Hc.
Qed.

Lemma serialize_entries_false_comma_or_end l junk :
  comma_or_end junk → comma_or_end (serialize_entries false l ++ junk).
Proof. intros Hj. destruct l; [done|]. right. by eexists. Qed.

(** The loop on a run of well-formed entries followed by [junk]. *)
Lemma deserialize_entries_serialized l junk c fuel :
  Forall entry_ok l → comma_or_end junk →
  deserialize_entries false (length l + fuel)
    (after_value (serialize_entries false l ++ junk)) c =
  deserialize_entries false fuel (after_value junk) (foldl add_entry c l).
Proof.
  intros Hl Hj. revert c. induction Hl as [|[k v] l [Hk Hv] _ IH]; intros c; [done|].
  rewrite after_value_entries by done. cbn [length Nat.add].
  rewrite deserialize_entry by auto using serialize_entries_false_comma_or_end.
  by rewrite IH.
Qed.

Lemma serialize_entries_true l :
  serialize_entries true l = after_value (serialize_entries false l ++ []) ∨
  ∃ kv l', l = kv :: l' ∧ ¬ key_ok kv.1.
Proof.
  destruct l as [|kv l]; [by left|].
  destruct (decide ((char_at kv.1 0 =? ",")%char = false)) as [Hc|Hc].
  - left. rewrite app_nil_r. cbn [serialize_entries app after_value].
    unfold serialize_entry. destruct kv as [[|x k] v]; [done|].
    unfold char_at in Hc. simpl in *. by rewrite Hc.
  - right. exists kv, l. split; [done|]. by intros [_ ?].
Qed.

Lemma length_serialize_entries first l :
  length l ≤ length (serialize_entries first l).
Proof.
  revert first. induction l as [|kv l IH]; intros first; [done|].
  cbn [serialize_entries]. rewrite !length_app. unfold serialize_entry at 1.
  rewrite !length_app. specialize (IH false). simpl. lia.
Qed.

(** Adding the entries of a map one by one gives the map back. *)
Lemma foldl_add_entry_lookup l c k :
  NoDup l.*1 →
  foldl add_entry c l !! k =
  match (list_to_map l : FonCollection) !! k with
  | Some v => Some (after_serialize v)
  | None => c !! k
  end.
Proof.
  unfold FonCollection in *.
  revert c. induction l as [|[k0 v0] l IH]; intros c Hnd; [done|].
  rewrite fmap_cons in Hnd. apply NoDup_cons in Hnd as [Hnin Hnd]. cbn [fst] in Hnin.
  cbn [foldl]. rewrite IH by done.
  cbn [list_to_map foldr]. unfold add_entry, collection_add, FonCollection. cbn [fst snd].
  destruct (decide (k0 = k)) as [->|Hne].
  - rewrite lookup_insert_eq.
    rewrite (not_elem_of_list_to_map_1 l k) by done. by rewrite lookup_insert_eq.
  - rewrite (lookup_insert_ne (list_to_map l)) by done.
    destruct (list_to_map l !! k); [done|]. by rewrite lookup_insert_ne.
Qed.

Lemma foldl_add_entry_map (m : FonCollection) :
  foldl add_entry ∅ (map_to_list m) = after_serialize <$> m.
Proof.
  unfold FonCollection in *. apply map_eq. intros k.
  rewrite foldl_add_entry_lookup by apply NoDup_fst_map_to_list.
  unfold FonCollection. rewrite list_to_map_to_list, lookup_fmap, lookup_empty.
  by destruct (m !! k).
Qed.

Lemma after_serialize_tag v : get_type_char (after_serialize v) = get_type_char v.
Proof. by destruct v as [| | | | | | | | | |[r|]| | | | | | | | | |]. Qed.

Lemma after_serialize_not_raw v :
  (∀ r, v ≠ VRaw (Some r)) → after_serialize v = v.
Proof.
  intros Hv. destruct v as [| | | | | | | | | |[r|]| | | | | | | | | |]; try done.
  by destruct (Hv r).
Qed.

Lemma after_serialize_raw r :
  after_serialize (VRaw (Some r)) = VRaw (Some (Raw.pack r)).
Proof. done. Qed.



(** *** Lines *)

Lemma deserialize_entries_stop fuel rem c :
  find_char "=" rem = None → deserialize_entries false (S fuel) rem c = Ok c.
Proof. intros Hf. cbn [deserialize_entries]. rewrite Hf. by destruct (is_empty rem). Qed.

Lemma char_at_drop s n i : char_at (drop n s) i = char_at s (n + i).
Proof.
  unfold char_at. revert s. induction n as [|n IH]; intros s; [done|].
  destruct s as [|x s]; [by destruct i|]. apply IH.
Qed.

(** The first equals sign of [rem] is not followed by a tag and a colon. *)
Definition bad_entry (rem : list ascii) : Prop :=
  ∃ eq_pos, find_char "=" rem = Some eq_pos ∧
    (length rem ≤ eq_pos + 2 ∨ char_at rem (eq_pos + 2) ≠ ":"%char).

Lemma deserialize_entries_bad fuel rem c :
  bad_entry rem → deserialize_entries false (S fuel) rem c = Err InvalidFormat.
Proof.
  intros (eq_pos & Hf & Hbad). cbn [deserialize_entries]. rewrite Hf.
  destruct (is_empty rem) eqn:E; [apply is_empty_true in E; by subst|].
  assert ((length (drop (eq_pos + 1) rem) <=? 1) = true ∨
          (char_at (drop (eq_pos + 1) rem) 1 =? ":")%char = false) as Hcase.
  { destruct Hbad as [Hlen|Hch].
    - left. apply Nat.leb_le. rewrite length_drop. lia.
    - right. apply Ascii.eqb_neq. rewrite char_at_drop.
      by replace (eq_pos + 1 + 1) with (eq_pos + 2) by lia. }
  destruct Hcase as [->|Hc]; [done|]. rewrite Hc. cbn [negb]. by rewrite orb_true_r.
Qed.

Lemma find_char_tail c x s :
  find_char c (x :: s) = None → find_char c s = None.
Proof. simpl. destruct (x =? c)%char; [done|]. by destruct (find_char c s). Qed.

Lemma after_value_comma rem :
  after_value (","%char :: rem) = rem ∨
  ∃ rem', rem = ","%char :: rem' ∧ after_value (","%char :: rem) = rem'.
Proof.
  destruct rem as [|c rem']; [by left|]. cbn [after_value].
  destruct (Ascii.eqb_spec c ","); [|by left]. subst. right. by eexists.
Qed.

Lemma bad_entry_tail rem' : bad_entry (","%char :: rem') → bad_entry rem'.
Proof.
  intros (eq_pos & Hf & Hbad). simpl in Hf.
  destruct (find_char "=" rem') as [p|] eqn:E; [|done]. injection Hf as <-.
  exists p. split; [done|]. destruct Hbad as [Hl|Hc]; [left; simpl in Hl; lia|right].
  intros Hc'. apply Hc. unfold char_at in *. by simpl.
Qed.

(** The text of a line: the entries of [l], and [rem] after a comma. *)
Definition line_with_tail (l : list (list ascii * FonValue)) (rem : list ascii)
    : list ascii :=
  match l with
  | [] => rem
  | _ => serialize_entries true l ++ ","%char :: rem
  end.

(** After the entries of [l], the loop is at [rem] (less a leading comma)
    with the entries added and fuel to spare. *)
Lemma deserialize_line_with_tail l rem :
  Forall entry_ok l →
  ∃ fuel rem', (rem' = rem ∨ rem = ","%char :: rem') ∧
    deserialize_line false (line_with_tail l rem) =
    deserialize_entries false (S fuel) rem' (foldl add_entry ∅ l).
Proof.
  intros Hl. unfold deserialize_line. destruct l as [|kv l].
  - exists (length rem), rem. split; [by left|done].
  - cbn [line_with_tail].
    assert (key_ok kv.1) as Hk by (by apply Forall_cons in Hl as [[? _] _]).
    destruct (serialize_entries_true (kv :: l)) as [Htrue|(kv' & l' & [= <- <-] & Hbad)];
      [|done].
    assert (serialize_entries true (kv :: l) ++ ","%char :: rem =
            after_value (serialize_entries false (kv :: l) ++ ","%char :: rem)) as ->.
    { rewrite after_value_entries by done. cbn [serialize_entries app].
      by rewrite <- !app_assoc. }
    set (text := after_value _).
    assert (length (kv :: l) ≤ length text) as Hlen.
    { unfold text. rewrite after_value_entries by done.
      rewrite app_assoc, length_app.
      pose proof (length_serialize_entries true (kv :: l)) as Hle.
      cbn [serialize_entries app] in Hle. lia. }
    replace (S (length text))
      with (length (kv :: l) + S (length text - length (kv :: l))) by lia.
    unfold text. rewrite deserialize_entries_serialized by (done || right; by eexists).
    destruct (after_value_comma rem) as [->|(rem' & -> & ->)].
    + eexists _, rem. split; [by left|done].
    + eexists _, rem'. split; [by right|done].
Qed.



(** A line of well-formed entries is read back entry by entry. *)
Lemma deserialize_line_entries l :
  Forall entry_ok l →
  deserialize_line false (serialize_entries true l) = Ok (foldl add_entry ∅ l).
Proof.
  intros Hl. unfold deserialize_line. destruct l as [|kv l]; [done|].
  assert (key_ok kv.1) as Hk by (by apply Forall_cons in Hl as [[? _] _]).
  destruct (serialize_entries_true (kv :: l)) as [->|(kv' & l' & [= <- <-] & Hbad)];
    [|done].
  set (text := after_value _).
  assert (length (kv :: l) ≤ length text) as Hlen.
  { unfold text. rewrite after_value_entries, app_nil_r by done.
    apply (length_serialize_entries true (kv :: l)). }
  replace (S (length text))
    with (length (kv :: l) + S (length text - length (kv :: l))) by lia.
  unfold text. by rewrite deserialize_entries_serialized by (done || by left).
Qed.

(** C1, amended: a record whose keys have no equals sign and no leading
    comma and whose values are integers of their width, floats whose literal
    the library reads back, booleans, strings without other control
    characters and not ending in a backslash, raw blobs that are not null, do
    not hold both forms at once and whose packed text has no quote and no
    backslash (a text packed from bytes never has one), and arrays of
    numbers, is read back from its line with the raw blobs left packed
    ([deserialize_raw_unpack] off): the parsed record is the original as
    serialization leaves it, with the same keys, tags and values, a raw blob
    being in its packed form. *)
Theorem line_round_trip (m : FonCollection) :
  map_Forall (λ k v, key_ok k ∧ wf_value v) m →
  deserialize_line false (serialize_to_string m).1 = Ok (serialize_to_string m).2 ∧
  (∀ k, (serialize_to_string m).2 !! k = after_serialize <$> m !! k) ∧
  (∀ v, get_type_char (after_serialize v) = get_type_char v) ∧
  (∀ v, (∀ r, v ≠ VRaw (Some r)) → after_serialize v = v) ∧
  (∀ r, after_serialize (VRaw (Some r)) = VRaw (Some (Raw.pack r))).
Proof.
  intros Hm. split; [|split; [|split; [|split]]].
  - unfold serialize_to_string. cbn [fst snd]. rewrite <- foldl_add_entry_map.
    apply deserialize_line_entries. apply Forall_forall. intros [k v] Hin.
    unfold FonCollection in *. apply elem_of_map_to_list in Hin. by apply Hm in Hin.
  - intros k. unfold serialize_to_string. cbn [snd]. unfold FonCollection.
    by rewrite lookup_fmap.
  - apply after_serialize_tag.
  - apply after_serialize_not_raw.
  - apply after_serialize_raw.
Qed.

(** C6, amended: after any run of well-formed entries, a remaining text
    whose first equals sign is not followed by a tag character and a colon
    makes [deserialize_line] fail with the format error, and a remaining text
    without any equals sign is dropped: the record of the entries read so
    far is returned. *)
Theorem malformed_tail (l : list (list ascii * FonValue)) (rem : list ascii) :
  Forall entry_ok l →
  (bad_entry rem → deserialize_line false (line_with_tail l rem) = Err InvalidFormat) ∧
  (find_char "=" rem = None →
   deserialize_line false (line_with_tail l rem) = Ok (foldl add_entry ∅ l)).
Proof.
  intros Hl.
  destruct (deserialize_line_with_tail l rem Hl) as (fuel & rem' & Hrem & ->).
  split.
  - intros Hbad. apply deserialize_entries_bad.
    destruct Hrem as [->| ->]; [done|]. by apply bad_entry_tail.
  - intros Hf. apply deserialize_entries_stop.
    destruct Hrem as [->| ->]; [done|]. by apply find_char_tail in Hf.
Qed.

End FonFacts.

(** ** Worked inputs *)

(** A float library for the worked inputs: the floats that are integers,
    which [to_chars] writes without a fraction. *)
#[export] Instance integral_floats : FloatLib := {|
  float := Z;
  double := Z;
  to_chars_float := to_chars_int;
  from_chars_float := λ data,
    match from_chars_int Int64 data with
    | (value, ptr, errc_ok) => Some (value, ptr)
    | _ => None
    end;
  strtof := λ _, 0%Z;
  to_chars_double := to_chars_int;
  from_chars_double := λ data,
    match from_chars_int Int64 data with
    | (value, ptr, errc_ok) => Some (value, ptr)
    | _ => None
    end;
  strtod := λ _, 0%Z
|}.

Lemma integral_float_reparses (x : Z) :
  in_range Int64 x → reparses parse_number_float (to_chars_float x) x.
Proof.
  intros Hx. split; [apply to_chars_int_nonempty|]. split; [apply to_chars_int_plain|].
  intros rest Hrest. unfold parse_number_float. cbn [from_chars_float to_chars_float integral_floats].
  by rewrite from_chars_to_chars_int by auto using comma_or_end_no_digit.
Qed.

(** The record of the scenario of the specification, with a float and a
    raw blob added. *)
Definition sample_entries : list (list ascii * FonValue) :=
  [ (str "id", VInt 7);
    (str "name", VString (str "a,b"));
    (str "tags", VIntArray [1; 2; 3]%Z);
    (str "ratio", VFloat 3%Z);
    (str "blob", VRaw (Some (Raw.RawData_of_data [1; 2; 3; 4; 5]%Z))) ].

Definition sample_record : FonCollection := list_to_map sample_entries.

Lemma sample_entries_ok : Forall entry_ok sample_entries.
Proof.
  unfold sample_entries.
  apply Forall_cons_2; [split; [done|]; cbn [snd wf_value]; done|].
  apply Forall_cons_2;
    [split; [done|]; cbn [snd wf_value]; split; [|done];
     repeat (apply Forall_cons_2; [by left|]); apply Forall_nil_2|].
  apply Forall_cons_2; [split; [done|]; cbn [snd wf_value]; repeat constructor; done|].
  apply Forall_cons_2;
    [split; [done|]; cbn [snd wf_value]; by apply integral_float_reparses|].
  apply Forall_cons_2; [split; [done|]; cbn [snd wf_value]; split; [done|]|done].
  repeat constructor.
Qed.

Lemma sample_record_ok : map_Forall (λ k v, key_ok k ∧ wf_value v) sample_record.
Proof.
  intros k v Hkv. unfold sample_record, FonCollection in Hkv.
  apply elem_of_list_to_map_2 in Hkv.
  by apply (proj1 (Forall_forall _ _) sample_entries_ok (k, v)).
Qed.

Lemma line_round_trip_witness :
  map_Forall (λ k v, key_ok k ∧ wf_value v) sample_record ∧
  deserialize_line false (serialize_to_string sample_record).1
  = Ok (serialize_to_string sample_record).2.
Proof.
  split; [exact sample_record_ok|].
  exact (proj1 (line_round_trip sample_record sample_record_ok)).
Defined.

(** The two scenarios of the specification: the line of the record with an
    id, a name and tags, and the five-byte blob. *)
Lemma scenario_line :
  deserialize_line false
    (str "id=i:7,name=s:" ++ [dquote] ++ str "a,b" ++ [dquote] ++ str ",tags=i:[1,2,3]")
  = Ok (<[str "id" := VInt 7]>
          (<[str "name" := VString (str "a,b")]>
             (<[str "tags" := VIntArray [1; 2; 3]%Z]> ∅))).
Proof. reflexivity. Qed.

Lemma scenario_blob :
  let x := Raw.RawData_of_data [1; 2; 3; 4; 5]%Z in
  Raw.encoded_ (Raw.pack x) = str "0rJua1POJ53" ∧ Raw.unpack (Raw.pack x) = Ok x.
Proof. split; reflexivity. Qed.

(** C1 as stated fails: a boolean array and a text array are written but
    not read; a key with an equals sign is not read, and a key with a leading
    comma is read without it; a null raw blob comes back as an empty one; a
    control character and a final backslash come back as other text; a blob
    built from a text with a quote comes back cut at the quote, and a blob
    that holds both forms, as a failed [unpack] leaves it, is written as it
    is and comes back with its text alone. *)
Lemma line_round_trip_fails :
  deserialize_line false
    (serialize_to_string (<[str "flags" := VBoolArray [true; false]]> ∅)).1
  = Err UnsupportedArrayType ∧
  deserialize_line false
    (serialize_to_string (<[str "names" := VStringArray [str "a"]]> ∅)).1
  = Err UnsupportedArrayType ∧
  deserialize_line false (serialize_to_string (<[str "a=b" := VInt 1]> ∅)).1
  = Err InvalidFormat ∧
  deserialize_line false
    (serialize_to_string (<[str ",b" := VInt 1]> (<[str "c" := VInt 2]> ∅))).1
  = Ok (<[str "b" := VInt 1]> (<[str "c" := VInt 2]> ∅)) ∧
  deserialize_line false (serialize_to_string (<[str "r" := VRaw None]> ∅)).1
  = Ok (<[str "r" := VRaw (Some Raw.RawData_default)]> ∅) ∧
  deserialize_line false (serialize_to_string (<[str "s" := VString ["001"%char]]> ∅)).1
  = Ok (<[str "s" := VString (str "u0001")]> ∅) ∧
  deserialize_line false (serialize_to_string (<[str "s" := VString [backslash]]> ∅)).1
  = Ok (<[str "s" := VString [backslash; dquote]]> ∅) ∧
  deserialize_line false
    (serialize_to_string
       (<[str "r" := VRaw (Some (Raw.RawData_of_encoded (str "a" ++ [dquote] ++ str "b")))]>
          ∅)).1
  = Ok (<[str "r" := VRaw (Some (Raw.RawData_of_encoded (str "a")))]> ∅) ∧
  (let both := Raw.mkRawData [0; 0; 0; 0]%Z (str "0000 ") in
   (serialize_to_string (<[str "r" := VRaw (Some both)]> ∅)).2
   = <[str "r" := VRaw (Some both)]> ∅ ∧
   deserialize_line false (serialize_to_string (<[str "r" := VRaw (Some both)]> ∅)).1
   = Ok (<[str "r" := VRaw (Some (Raw.RawData_of_encoded (str "0000 ")))]> ∅)).
Proof. repeat split; reflexivity. Qed.

(** C6 as stated fails: the text after the first entry has no equals sign,
    and the line is accepted with the first entry alone. *)
Lemma malformed_tail_accepted :
  deserialize_line false (str "a=i:1,garbage") = Ok (<[str "a" := VInt 1]> ∅).
Proof. reflexivity. Qed.

Lemma malformed_tail_witness :
  Forall entry_ok sample_entries ∧
  bad_entry (str "x=1") ∧
  deserialize_line false (line_with_tail sample_entries (str "x=1")) = Err InvalidFormat ∧
  find_char "=" (str "garbage") = None ∧
  deserialize_line false (line_with_tail sample_entries (str "garbage"))
  = Ok (foldl add_entry ∅ sample_entries).
Proof.
  assert (bad_entry (str "x=1")) as Hbad.
  { exists 1. split; [reflexivity|]. left. simpl. lia. }
  split; [exact sample_entries_ok|]. split; [exact Hbad|].
  split; [exact (proj1 (malformed_tail sample_entries (str "x=1") sample_entries_ok) Hbad)|].
  split; [reflexivity|].
  exact (proj2 (malformed_tail sample_entries (str "garbage") sample_entries_ok) eq_refl).
Defined.

(** The escapes [serialize_string] writes for the other control
    characters: a backslash, [u], two zeros and two upper-case hex digits. *)
Lemma control_escape_form c :
  (code c < 32)%Z → c ∉ [char_n; char_r; char_t; char_b; char_f] →
  escape_char c = [backslash; "u"; "0"; "0"; hex_upper (code c / 16); hex_upper (code c mod 16)]%char.
Proof.
  intros Hlt Hnot. destruct c as [[] [] [] [] [] [] [] []];
    try (exfalso; vm_compute in Hlt; done); try reflexivity;
    exfalso; apply Hnot; set_solver.
Qed.

(** C4, at the failing inputs: the control character 1 is written as the
    six characters of its [u] escape and read back as the five characters
    [u0001]; a lone backslash is written as two and read back, past the
    closing quote, as a backslash and a quote. *)
Theorem control_escape_not_read_back :
  serialize_string ["001"%char] = [dquote; backslash] ++ str "u0001" ++ [dquote] ∧
  parse_string (serialize_string ["001"%char]) = Ok (str "u0001", 8) ∧
  parse_string (serialize_string [backslash]) = Ok ([backslash; dquote], 5).
Proof. repeat split; reflexivity. Qed.

(** C5, at the failing input: in the text quote, backslash, backslash,
    quote, the second quote follows two backslashes, yet the scan steps over
    it; with more text behind it the string runs on to the end of the
    line. *)
Theorem quote_after_escaped_backslash_skipped :
  scan_end_quote dquote [backslash; backslash; dquote] = 3 ∧
  parse_string [dquote; backslash; backslash; dquote] = Ok ([backslash; dquote], 5) ∧
  parse_string ([dquote; backslash; backslash; dquote] ++ str ",b=i:1")
  = Ok ([backslash; dquote] ++ str ",b=i:1", 11).
Proof. repeat split; reflexivity. Qed.

(** ** The fan-out *)

Lemma elem_of_concat {B} (x : B) (ls : list (list B)) :
  x ∈ concat ls ↔ ∃ l, x ∈ l ∧ l ∈ ls.
Proof.
  induction ls as [|l ls IH]; simpl.
  - split; [by intros ?%elem_of_nil|]. by intros (l & _ & ?%elem_of_nil).
  - rewrite elem_of_app, IH. split.
    + intros [Hx|(l' & Hx & Hl')]; [exists l; split; [done|by left]|].
      exists l'. split; [done|by right].
    + intros (l' & Hx & [->|Hl']%elem_of_cons); [by left|]. right. by exists l'.
Qed.

Section PoolFacts.
Context {A : Type}.
Variable body : nat → result (option A).

(** The indices of the range of a task. *)
Definition task_indices (w : task) : list nat := seq (next w) (stop w - next w).

(** The first exception the body throws over a run of indices. *)
Fixpoint first_error (indices : list nat) : option error :=
  match indices with
  | [] => None
  | i :: indices' =>
      match body i with
      | Err e => Some e
      | Ok _ => first_error indices'
      end
  end.

(** The failure of a task: the first exception of its loop. *)
Definition task_failure (w : task) : option error := first_error (task_indices w).

(** The buffer once every index has been done without exception. *)
Definition filled (s0 : list A) : list A :=
  imap (λ i s, match body i with Ok (Some a) => a | _ => s end) s0.

Lemma first_error_app l1 l2 :
  first_error (l1 ++ l2) =
  match first_error l1 with Some e => Some e | None => first_error l2 end.
Proof.
  induction l1 as [|i l1 IH]; [done|]. simpl. by destruct (body i).
Qed.

Lemma first_error_concat ls :
  first_error (concat ls) = first_failure (first_error <$> ls).
Proof.
  induction ls as [|l ls IH]; [done|]. simpl. rewrite first_error_app, IH.
  by destruct (first_error l).
Qed.

Lemma first_error_None l :
  first_error l = None ↔ ∀ i, i ∈ l → ∃ o, body i = Ok o.
Proof.
  induction l as [|j l IH]; simpl.
  - split; [|done]. intros _ i Hi. by apply elem_of_nil in Hi.
  - destruct (body j) as [o|e] eqn:E.
    + rewrite IH. split.
      * intros Hl i [->|Hi]%elem_of_cons; [by eexists|by apply Hl].
      * intros Hl i Hi. apply Hl. by right.
    + split; [done|]. intros Hl. destruct (Hl j) as [o Ho]; [by left|congruence].
Qed.

Section Invariant.
Variable s0 : list A.
Variable tasks0 : list task.

(** Every launched task starts inside the buffer with no exception. *)
Definition launched (w0 : task) : Prop :=
  thrown w0 = None ∧ next w0 ≤ stop w0 ∧ stop w0 ≤ length s0.

(** A slot holds what it held at the start or what the body stores there. *)
Definition slot_ok (ss : list A) (i : nat) : Prop :=
  ss !! i = s0 !! i ∨ ∃ a, body i = Ok (Some a) ∧ ss !! i = Some a.

(** How far a task has come: the indices behind it were done without
    exception and their values are in the buffer; the exception it holds is
    the one of the index it stopped at. *)
Definition progress (ss : list A) (w0 w : task) : Prop :=
  stop w = stop w0 ∧ next w0 ≤ next w ∧ next w ≤ stop w ∧
  first_error (seq (next w0) (next w - next w0)) = None ∧
  (∀ i a, next w0 ≤ i < next w → body i = Ok (Some a) → ss !! i = Some a) ∧
  (∀ e, thrown w = Some e → body (next w) = Err e ∧ next w < stop w).

Definition pool_inv (p : pool) : Prop :=
  length (slots p) = length s0 ∧
  (∀ i, slot_ok (slots p) i) ∧
  Forall2 (progress (slots p)) tasks0 (tasks p).

Lemma pool_inv_init :
  Forall launched tasks0 → pool_inv (mkPool s0 tasks0).
Proof.
  intros Hl. split; [done|]. split; [by left|]. cbn [slots tasks].
  induction Hl as [|w0 l (Hth & Hle & _) _ IH]; constructor; [|done].
  unfold progress. rewrite Nat.sub_diag. split_and!; try done; try lia; congruence.
Qed.

Lemma store_keeps (ss : list A) j a' i a :
  body j = Ok (Some a') → body i = Ok (Some a) → ss !! i = Some a →
  <[j := a']> ss !! i = Some a.
Proof.
  intros Hj Hi Hs. destruct (decide (j = i)) as [->|Hne].
  - assert (a' = a) as -> by congruence.
    apply list_lookup_insert_eq. by apply lookup_lt_Some in Hs.
  - by rewrite list_lookup_insert_ne.
Qed.

Lemma progress_store (ss : list A) j a' w0 w :
  body j = Ok (Some a') → progress ss w0 w → progress (<[j := a']> ss) w0 w.
Proof.
  intros Hj (? & ? & ? & ? & Hs & ?). unfold progress. split_and!; try done.
  intros i a Hi Hb. eapply store_keeps; eauto.
Qed.

Lemma slot_ok_store (ss : list A) j a' i :
  body j = Ok (Some a') → slot_ok ss i → slot_ok (<[j := a']> ss) i.
Proof.
  intros Hj Hs. destruct (decide (j = i)) as [->|Hne].
  - destruct (decide (i < length ss)) as [Hlt|Hge].
    + right. exists a'. split; [done|]. by apply list_lookup_insert_eq.
    + by rewrite list_insert_ge by lia.
  - unfold slot_ok. by rewrite list_lookup_insert_ne.
Qed.

Lemma pool_inv_step p t :
  Forall launched tasks0 → pool_inv p → pool_inv (step body p t).
Proof.
  intros Hl (Hlen & Hslots & Htasks). unfold step.
  destruct (tasks p !! t) as [w|] eqn:Ht; [|done].
  destruct (task_done w) eqn:Hdone; [done|].
  destruct (Forall2_lookup_r _ _ _ _ _ Htasks Ht) as (w0 & Ht0 & Hp).
  assert (launched w0) as (_ & _ & Hin).
  { eapply Forall_forall; [exact Hl|]. eapply list_elem_of_lookup_2, Ht0. }
  destruct Hp as (Hstop & Hlo & Hhi & Hfirst & Hdone_slots & Hthrown).
  unfold task_done in Hdone. destruct (thrown w) eqn:Hth; [done|].
  apply Nat.leb_gt in Hdone.
  assert (tasks0 = <[t := w0]> tasks0) as Hid by (by rewrite list_insert_id).
  destruct (body (next w)) as [o|err] eqn:Hb.
  - (* the index is done *)
    set (ss := match o with Some a => <[next w := a]> (slots p) | None => slots p end).
    assert (∀ w1 w2, progress (slots p) w1 w2 → progress ss w1 w2) as Hmono.
    { intros w1 w2 Hp. unfold ss. destruct o; [by apply progress_store|done]. }
    split; [|split]; cbn [slots tasks]; fold ss.
    + unfold ss. destruct o; [by rewrite length_insert|done].
    + intros i. unfold ss. destruct o; [by apply slot_ok_store|done].
    + rewrite Hid. apply Forall2_insert; [by eapply Forall2_impl|].
      unfold progress. cbn [next stop thrown]. split_and!; try done; try lia.
      * replace (S (next w) - next w0) with ((next w - next w0) + 1) by lia.
        rewrite seq_app, first_error_app, Hfirst. simpl.
        replace (next w0 + (next w - next w0)) with (next w) by lia. by rewrite Hb.
      * intros i a Hi Hbi. destruct (decide (i = next w)) as [->|Hne].
        -- rewrite Hb in Hbi. injection Hbi as ->. unfold ss.
           apply list_lookup_insert_eq. lia.
        -- apply (Hmono w0 w); [|lia|done].
           unfold progress. split_and!; try done. intros e' He'. congruence.
  - (* the body throws *)
    split; [done|]. split; [done|]. cbn [slots tasks].
    rewrite Hid. apply Forall2_insert; [done|].
    unfold progress. cbn [next stop thrown]. split_and!; try done.
    intros e' [= <-]. split; [done|lia].
Qed.

Lemma pool_inv_run schedule p :
  Forall launched tasks0 → pool_inv p → pool_inv (run body schedule p).
Proof.
  intros Hl. revert p. unfold run.
  induction schedule as [|t schedule IH]; intros p Hp; [done|].
  simpl. by apply IH, pool_inv_step.
Qed.

(** A task that is done holds its own failure. *)
Lemma progress_done ss w0 w :
  progress ss w0 w → task_done w = true → thrown w = task_failure w0.
Proof.
  intros (Hstop & Hlo & Hhi & Hfirst & _ & Hthrown) Hdone.
  unfold task_failure, task_indices, task_done in *.
  destruct (thrown w) as [e|] eqn:Hth.
  - destruct (Hthrown e eq_refl) as [Hb Hlt].
    replace (stop w0 - next w0) with ((next w - next w0) + (stop w - next w)) by lia.
    rewrite seq_app, first_error_app, Hfirst.
    replace (next w0 + (next w - next w0)) with (next w) by lia.
    destruct (stop w - next w) as [|k] eqn:Ek; [lia|]. simpl. by rewrite Hb.
  - apply Nat.leb_le in Hdone. by replace (stop w0) with (next w) by lia.
Qed.

Lemma pool_done_failures p :
  pool_inv p → all_done p = true → thrown <$> tasks p = task_failure <$> tasks0.
Proof.
  intros (_ & _ & Htasks) Hdone. unfold all_done in Hdone.
  rewrite forallb_forall in Hdone.
  induction Htasks as [|w0 w l0 l Hp _ IH]; [done|].
  rewrite !fmap_cons. f_equal.
  - eapply progress_done; [exact Hp|]. apply Hdone. by left.
  - apply IH. intros x Hx. apply Hdone. by right.
Qed.

(** Once every task is done without failure, every index of a range was
    done and the buffer is filled over the ranges. *)
Lemma pool_done_slots p i :
  pool_inv p → all_done p = true →
  first_failure (task_failure <$> tasks0) = None →
  i ∈ concat (task_indices <$> tasks0) →
  slots p !! i = filled s0 !! i.
Proof.
  intros Hinv Hdone Hnone Hi.
  pose proof (pool_done_failures p Hinv Hdone) as Hf.
  destruct Hinv as (Hlen & Hslots & Htasks).
  apply elem_of_concat in Hi as (l & Hil & Hl).
  apply list_elem_of_fmap in Hl as (w0 & -> & Hw0).
  apply list_elem_of_lookup in Hw0 as (t & Ht0).
  destruct (Forall2_lookup_l _ _ _ _ _ Htasks Ht0) as (w & Ht & Hp).
  assert (thrown w = None) as Hth.
  { assert (first_error (concat (task_indices <$> tasks0)) = None) as Hall.
    { by rewrite first_error_concat, <- list_fmap_compose. }
    assert (task_failure w0 = None) as Hw.
    { apply first_error_None. intros j Hj.
      rewrite first_error_None in Hall. apply Hall.
      apply elem_of_concat. exists (task_indices w0). split; [done|].
      apply list_elem_of_fmap. exists w0. split; [done|].
      by eapply list_elem_of_lookup_2. }
    rewrite <- Hw. eapply progress_done; [exact Hp|].
    unfold all_done in Hdone. rewrite forallb_forall in Hdone. apply Hdone.
    apply list_elem_of_In. by eapply list_elem_of_lookup_2. }
  assert (task_done w = true) as Hd.
  { unfold all_done in Hdone. rewrite forallb_forall in Hdone. apply Hdone.
    apply list_elem_of_In. by eapply list_elem_of_lookup_2. }
  destruct Hp as (Hstop & Hlo & Hhi & Hfirst & Hdone_slots & _).
  unfold task_done in Hd. rewrite Hth in Hd. apply Nat.leb_le in Hd.
  unfold task_indices in Hil. apply elem_of_seq in Hil.
  assert (∃ o, body i = Ok o) as [o Ho].
  { rewrite first_error_None in Hfirst. apply Hfirst. apply elem_of_seq. lia. }
  unfold filled. rewrite list_lookup_imap.
  destruct o as [a|].
  - rewrite (Hdone_slots i a) by (lia || done).
    assert (i < length s0) as Hlt.
    { rewrite <- Hlen. eapply lookup_lt_Some. apply (Hdone_slots i a); [lia|done]. }
    destruct (lookup_lt_is_Some_2 s0 i Hlt) as [s Hs]. rewrite Hs. simpl. by rewrite Ho.
  - destruct (Hslots i) as [->|(a & Ha & _)]; [|congruence].
    destruct (s0 !! i); [|done]. simpl. by rewrite Ho.
Qed.

End Invariant.
End PoolFacts.

(** *** The ranges tile the buffer *)

Lemma launch_launched {A} (s0 : list A) threads t chunk_size :
  Forall (launched s0) (launch threads t chunk_size (length s0)).
Proof.
  revert t. induction threads as [|threads IH]; intros t; [constructor|].
  cbn [launch]. destruct (Nat.leb_spec (length s0) (t * chunk_size)); [constructor|].
  constructor; [|apply IH]. unfold launched. cbn [next stop thrown]. split; [done|lia].
Qed.

Lemma launch_indices threads t chunk_size total :
  total ≤ (t + threads) * chunk_size →
  concat (task_indices <$> launch threads t chunk_size total) =
  seq ((t * chunk_size) `min` total) (total - t * chunk_size).
Proof.
  revert t. induction threads as [|threads IH]; intros t Hcover.
  - simpl. replace (total - t * chunk_size) with 0 by lia. done.
  - cbn [launch]. destruct (Nat.leb_spec total (t * chunk_size)) as [Hle|Hlt].
    + simpl. by replace (total - t * chunk_size) with 0 by lia.
    + rewrite fmap_cons. cbn [concat]. rewrite IH by lia.
      unfold task_indices. cbn [next stop].
      rewrite (Nat.min_l (t * chunk_size) total) by lia.
      replace (S t * chunk_size) with (t * chunk_size + chunk_size) by lia.
      set (start := t * chunk_size) in *.
      destruct (Nat.le_ge_cases (start + chunk_size) total) as [H1|H1].
      * rewrite !(Nat.min_l (start + chunk_size) total) by lia.
        replace (total - start)
          with ((start + chunk_size - start) + (total - (start + chunk_size))) by lia.
        rewrite (seq_app (start + chunk_size - start)). do 2 f_equal. lia.
      * rewrite !(Nat.min_r (start + chunk_size) total) by lia.
        replace (total - (start + chunk_size)) with 0 by lia.
        by rewrite app_nil_r.
Qed.

Lemma chunks_cover total threads :
  0 < threads → total ≤ threads * ((total + threads - 1) `div` threads).
Proof.
  intros Hpos.
  pose proof (Nat.div_mod_eq (total + threads - 1) threads) as Hdm.
  pose proof (Nat.mod_upper_bound (total + threads - 1) threads). lia.
Qed.

Section FanOutFacts.
Context {A : Type}.
Variable body : nat → result (option A).

(** The loop run by a single thread from index 0 to [total]. *)
Definition one_by_one (init : A) (total : nat) : result (list A) :=
  match first_error body (seq 0 total) with
  | Some e => Err e
  | None => Ok (filled body (replicate total init))
  end.

(** The launched tasks of a fan-out. *)
Definition launched_tasks (total threads : nat) : list task :=
  launch threads 0 ((total + threads - 1) `div` threads) total.

Lemma launched_tasks_failures total threads :
  0 < threads →
  first_failure (task_failure body <$> launched_tasks total threads)
  = first_error body (seq 0 total).
Proof.
  intros Hpos. unfold launched_tasks, task_failure.
  rewrite (list_fmap_compose task_indices (first_error body)).
  rewrite <- first_error_concat, launch_indices by (simpl; by apply chunks_cover).
  simpl. by rewrite Nat.sub_0_r.
Qed.

(** Whatever the interleaving and the number of threads, a fan-out that
    has come to its end holds in every future the failure of its own task,
    and answers as the single-threaded loop does. *)
Lemma fan_out_spec init total threads schedule r :
  0 < threads →
  fan_out body init total threads schedule = Some r →
  let p := run body schedule
             (mkPool (replicate total init) (launched_tasks total threads)) in
  thrown <$> tasks p = task_failure body <$> launched_tasks total threads ∧
  r = match first_failure (task_failure body <$> launched_tasks total threads) with
      | Some e => Err e
      | None => Ok (slots p)
      end ∧
  r = one_by_one init total.
Proof.
  intros Hpos. unfold fan_out. fold (launched_tasks total threads).
  set (s0 := replicate total init). set (tasks0 := launched_tasks total threads).
  set (p := run body schedule (mkPool s0 tasks0)).
  destruct (all_done p) eqn:Hdone; [|done]. intros [= <-]. cbn zeta.
  assert (Forall (launched s0) tasks0) as Hl.
  { unfold tasks0, launched_tasks.
    pose proof (launch_launched s0 threads 0 ((total + threads - 1) `div` threads)) as Hll.
    unfold s0 in Hll at 2. by rewrite length_replicate in Hll. }
  assert (pool_inv body s0 tasks0 p) as Hinv.
  { apply pool_inv_run; [done|]. by apply pool_inv_init. }
  pose proof (pool_done_failures body s0 tasks0 p Hinv Hdone) as Hf.
  split; [done|]. unfold join. rewrite Hf. split; [done|].
  unfold one_by_one. fold tasks0. unfold tasks0 at 1.
  rewrite launched_tasks_failures by done.
  destruct (first_error body (seq 0 total)) eqn:Hfirst; [done|]. f_equal.
  apply list_eq. intros i. destruct (decide (i < total)) as [Hlt|Hge].
  - apply (pool_done_slots body s0 tasks0); [done|done| |].
    + unfold tasks0. by rewrite launched_tasks_failures.
    + unfold tasks0, launched_tasks.
      rewrite launch_indices by (simpl; by apply chunks_cover).
      simpl. rewrite Nat.sub_0_r. apply elem_of_seq. lia.
  - destruct Hinv as (Hlen & _). rewrite !lookup_ge_None_2; [done| |].
    + unfold filled. rewrite length_imap. unfold s0. rewrite length_replicate. lia.
    + rewrite Hlen. unfold s0. rewrite length_replicate. lia.
Qed.

(** An interleaving that brings every fan-out to its end: each task in
    turn, as many moves as its range is long. *)
Definition in_turn (ws : list task) : list nat :=
  concat (imap (λ t w, replicate (stop w - next w) t) ws).

End FanOutFacts.

(** ** Files *)

Lemma after_terminator_length c rest :
  length (after_terminator c rest) ≤ length rest.
Proof.
  unfold after_terminator. destruct (c =? char_r)%char; [|done].
  destruct rest as [|c' rest']; [done|]. destruct (c' =? char_n)%char; simpl; lia.
Qed.

(** The lines the splitter keeps are the non-empty lines of the file, in
    their order. *)
Lemma split_lines_from_filter n cur content :
  length content ≤ n →
  split_lines_from cur content = filter (λ line, line ≠ []) (file_lines_from cur content).
Proof.
  revert cur content. induction n as [|n IH]; intros cur content Hn.
  - destruct content; [|simpl in Hn; lia]. simpl. by destruct cur.
  - destruct content as [|c rest]; [simpl; by destruct cur|].
    cbn [split_lines_from file_lines_from].
    destruct ((c =? char_n)%char || (c =? char_r)%char).
    + rewrite filter_cons. rewrite IH.
      2:{ pose proof (after_terminator_length c rest). simpl in Hn. lia. }
      destruct (decide (cur ≠ [])) as [Hc|Hc]; destruct cur; try done.
      by destruct Hc.
    + apply IH. simpl in Hn. lia.
Qed.

Lemma split_lines_filter content :
  split_lines content = filter (λ line, line ≠ []) (file_lines content).
Proof. by apply (split_lines_from_filter (length content)). Qed.

Lemma split_lines_nonempty content i line :
  split_lines content !! i = Some line → is_empty line = false.
Proof.
  rewrite split_lines_filter. intros Hl%list_elem_of_lookup_2.
  apply list_elem_of_filter in Hl as [Hne _]. by apply is_empty_false.
Qed.

Section FilesFacts.
Context `{FloatLib}.
Variable deserialize_raw_unpack : bool.
Variable hardware_concurrency : nat.

(** *** Reading *)

Lemma build_dump_from_lookup (cs : list FonCollection) k (d : FonDump) (id : N) :
  foldl (λ dump ic, if (0 <? size ic.2)%nat then dump_add (N.of_nat ic.1) ic.2 dump else dump)
        d (zip (seq k (length cs)) cs) !! id =
  match (if decide (k ≤ N.to_nat id) then cs !! (N.to_nat id - k) else None) with
  | Some c => if (0 <? size c)%nat then Some c else d !! id
  | None => d !! id
  end.
Proof.
  unfold FonDump in *. revert k d. induction cs as [|c cs IH]; intros k d.
  - simpl. by destruct (decide _).
  - cbn [length seq zip zip_with foldl fst snd]. rewrite IH.
    assert (∀ d' : gmap N FonCollection,
      d' = (if (0 <? size c)%nat then dump_add (N.of_nat k) c d else d) →
      N.to_nat id ≠ k → d' !! id = d !! id) as Hother.
    { intros d' -> Hne. destruct (0 <? size c)%nat; [|done].
      unfold dump_add, FonDump. apply lookup_insert_ne. lia. }
    destruct (decide (S k ≤ N.to_nat id)) as [Hle|Hgt].
    + rewrite decide_True by lia.
      replace (N.to_nat id - k) with (S (N.to_nat id - S k)) by lia. cbn [lookup list_lookup].
      rewrite (Hother _ eq_refl) by lia. done.
    + destruct (decide (k ≤ N.to_nat id)) as [Hle|Hlt].
      * assert (N.to_nat id = k) as Hk by lia.
        replace (N.to_nat id - k) with 0 by lia. cbn [lookup list_lookup].
        destruct (0 <? size c)%nat; [|done].
        unfold dump_add, FonDump. replace (N.of_nat k) with id by lia.
        apply lookup_insert_eq.
      * apply (Hother _ eq_refl). lia.
Qed.

Lemma build_dump_lookup (cs : list FonCollection) (id : N) :
  build_dump cs !! id =
  match cs !! N.to_nat id with
  | Some c => if (0 <? size c)%nat then Some c else None
  | None => None
  end.
Proof.
  unfold build_dump. rewrite build_dump_from_lookup.
  rewrite decide_True by lia. rewrite Nat.sub_0_r. unfold FonDump.
  rewrite lookup_empty. done.
Qed.

(** The parsed collections of a load that went through. *)
Lemma parse_slot_filled lines :
  Forall (λ line, is_empty line = false) lines →
  first_error (parse_slot deserialize_raw_unpack lines) (seq 0 (length lines)) = None →
  Forall2 (λ line c, deserialize_line deserialize_raw_unpack line = Ok c) lines
    (filled (parse_slot deserialize_raw_unpack lines) (replicate (length lines) ∅)).
Proof.
  intros Hne Hfirst. apply Forall2_same_length_lookup. split.
  - unfold filled. by rewrite length_imap, length_replicate.
  - intros i line c Hline Hc. unfold filled in Hc. rewrite list_lookup_imap in Hc.
    rewrite lookup_replicate_2 in Hc by (by eapply lookup_lt_Some). simpl in Hc.
    rewrite first_error_None in Hfirst.
    destruct (Hfirst i) as [o Ho].
    { apply elem_of_seq. apply lookup_lt_Some in Hline. lia. }
    rewrite Ho in Hc. unfold parse_slot in Ho. rewrite Hline in Ho.
    rewrite (proj1 (Forall_forall _ _) Hne line) in Ho
      by (by eapply list_elem_of_lookup_2).
    destruct (deserialize_line deserialize_raw_unpack line) as [c'|e]; [|done].
    simpl in Ho. injection Ho as <-. by injection Hc as ->.
Qed.


End FilesFacts.

(** ** The order in which failures surface *)

Lemma first_failure_first pre e post :
  Forall (λ o : option error, o = None) pre → first_failure (pre ++ Some e :: post) = Some e.
Proof. induction 1 as [|o pre -> _ IH]; [done|]. by simpl. Qed.

Lemma first_failure_none outcomes :
  Forall (λ o : option error, o = None) outcomes → first_failure outcomes = None.
Proof. induction 1 as [|o pre -> _ IH]; [done|]. by simpl. Qed.

(** C9: when a fan-out has come to its end, whatever the interleaving of
    the workers, every future holds the failure of its own task; the calling
    thread gets the failure of the first task, in launch order, that failed,
    whatever the tasks launched after it did, and a value only when no task
    failed. *)
Theorem first_launched_failure_wins {A} (body : nat → result (option A))
    (init : A) (total threads : nat) (schedule : list nat) (r : result (list A)) :
  0 < threads →
  fan_out body init total threads schedule = Some r →
  let outcomes := task_failure body <$> launched_tasks total threads in
  thrown <$> tasks (run body schedule
                      (mkPool (replicate total init) (launched_tasks total threads)))
  = outcomes ∧
  (∀ pre e post,
     outcomes = pre ++ Some e :: post → Forall (λ o, o = None) pre → r = Err e) ∧
  (Forall (λ o, o = None) outcomes → ∃ values, r = Ok values).
Proof.
  intros Hpos Hf. destruct (fan_out_spec body init total threads schedule r Hpos Hf)
    as (Hthrown & Hr & _).
  cbn zeta. split; [done|]. split.
  - intros pre e post Hout Hpre. rewrite Hout in Hr.
    by rewrite first_failure_first in Hr.
  - intros Hnone. rewrite first_failure_none in Hr by done. by eexists.
Qed.

(** Two lines that fail to parse in different ways, two threads, and the
    second task moving first. *)
Lemma first_launched_failure_wins_witness :
  let lines := [str "a=i:"; str "b=x:1"] in
  let body := parse_slot false lines in
  0 < 2 ∧
  fan_out body ∅ 2 2 [1; 0] = Some (Err EmptyValue) ∧
  task_failure body <$> launched_tasks 2 2 = [] ++ Some EmptyValue :: [Some UnknownType] ∧
  thrown <$> tasks (run body [1; 0] (mkPool (replicate 2 ∅) (launched_tasks 2 2)))
  = [Some EmptyValue; Some UnknownType] ∧
  deserialize_from_file false 4 (str "a=i:" ++ [char_n] ++ str "b=x:1" ++ [char_n]) 2 [1; 0]
  = Some (Err EmptyValue).
Proof.
  intros lines body.
  assert (0 < 2) as Hpos by lia.
  assert (fan_out body ∅ 2 2 [1; 0] = Some (Err EmptyValue)) as Hf by reflexivity.
  split; [exact Hpos|]. split; [exact Hf|]. split; [reflexivity|].
  split; [|reflexivity].
  exact (proj1 (first_launched_failure_wins body ∅ 2 2 [1; 0] (Err EmptyValue) Hpos Hf)).
Defined.

(** ** Worked files *)

(** A file of three lines, the second one empty. *)
Definition gapped_file : list ascii :=
  str "a=i:1" ++ [char_n; char_n] ++ str "b=i:2" ++ [char_n].

Definition gapped_dump : FonDump :=
  <[1%N := <[str "b" := VInt 2]> ∅]> (<[0%N := <[str "a" := VInt 1]> ∅]> ∅).



(** ** Every fan-out can come to its end *)

Section Completion.
Context {A : Type}.
Variable body : nat → result (option A).

Lemma step_done p t w :
  tasks p !! t = Some w → task_done w = true → step body p t = p.
Proof. intros Ht Hd. unfold step. by rewrite Ht, Hd. Qed.

Lemma run_done p t w n :
  tasks p !! t = Some w → task_done w = true → run body (replicate n t) p = p.
Proof.
  intros Ht Hd. induction n as [|n IH]; [done|].
  unfold run in *. simpl. by rewrite (step_done p t w).
Qed.

(** Enough moves of one task bring it to its end and touch no other
    task. *)
Lemma run_one_task n p t w :
  tasks p !! t = Some w → stop w - next w ≤ n →
  ∃ w', tasks (run body (replicate n t) p) = <[t := w']> (tasks p) ∧ task_done w' = true.
Proof.
  revert p w. induction n as [|n IH]; intros p w Ht Hn.
  - exists w. split; [by rewrite list_insert_id|].
    unfold task_done. destruct (thrown w); [done|]. apply Nat.leb_le. lia.
  - destruct (task_done w) eqn:Hd.
    { exists w. rewrite (run_done p t w) by done. by rewrite list_insert_id. }
    assert (t < length (tasks p)) as Hlt by (by eapply lookup_lt_Some).
    change (run body (replicate (S n) t) p) with (run body (replicate n t) (step body p t)).
    unfold step. rewrite Ht, Hd.
    unfold task_done in Hd. destruct (thrown w) eqn:Hth; [done|].
    apply Nat.leb_gt in Hd.
    destruct (body (next w)) as [o|e].
    + set (w1 := mkTask (S (next w)) (stop w) None).
      set (p1 := mkPool _ _).
      destruct (IH p1 w1) as (w' & Hrun & Hdone).
      { unfold p1. cbn [tasks]. by apply list_lookup_insert_eq. }
      { unfold w1. cbn [next stop]. lia. }
      exists w'. split; [|done]. rewrite Hrun. unfold p1. cbn [tasks].
      by rewrite list_insert_insert_eq.
    + set (w1 := mkTask (next w) (stop w) (Some e)).
      set (p1 := mkPool _ _).
      exists w1. split; [|done].
      rewrite (run_done p1 t w1); [done| |done].
      unfold p1. cbn [tasks]. by apply list_lookup_insert_eq.
Qed.

Definition in_turn_from (k : nat) (ws : list task) : list nat :=
  concat (imap (λ t w, replicate (stop w - next w) (k + t)) ws).

Lemma in_turn_from_cons k w ws :
  in_turn_from k (w :: ws) = replicate (stop w - next w) k ++ in_turn_from (S k) ws.
Proof.
  unfold in_turn_from. rewrite imap_cons. cbn [concat]. rewrite Nat.add_0_r.
  do 2 f_equal. apply imap_ext. intros i x _. simpl. f_equal. lia.
Qed.

Lemma run_app s1 s2 p : run body (s1 ++ s2) p = run body s2 (run body s1 p).
Proof. unfold run. apply foldl_app. Qed.

Lemma in_turn_from_done ws pre p :
  tasks p = pre ++ ws → Forall (λ w, task_done w = true) pre →
  all_done (run body (in_turn_from (length pre) ws) p) = true.
Proof.
  revert pre p. induction ws as [|w ws IH]; intros pre p Htasks Hpre.
  - unfold all_done. cbn. rewrite Htasks, app_nil_r.
    apply forallb_forall. intros x Hx%list_elem_of_In.
    by apply (proj1 (Forall_forall _ _) Hpre).
  - rewrite in_turn_from_cons, run_app.
    destruct (run_one_task (stop w - next w) p (length pre) w) as (w' & Hrun & Hdone).
    { rewrite Htasks. by rewrite list_lookup_middle. }
    { done. }
    replace (S (length pre)) with (length (pre ++ [w'])) by (rewrite length_app; simpl; lia).
    apply IH.
    + rewrite Hrun, Htasks. rewrite <- app_assoc. simpl.
      rewrite insert_app_r_alt by lia. by rewrite Nat.sub_diag.
    + apply Forall_app. split; [done|]. by constructor.
Qed.

Lemma in_turn_done slots ws :
  all_done (run body (in_turn ws) (mkPool slots ws)) = true.
Proof. by apply (in_turn_from_done ws []). Qed.

(** Taken in turn, the tasks of a fan-out reach the join. *)
Lemma fan_out_in_turn init total threads :
  0 < threads →
  fan_out body init total threads (in_turn (launched_tasks total threads))
  = Some (one_by_one body init total).
Proof.
  intros Hpos.
  destruct (fan_out body init total threads (in_turn (launched_tasks total threads)))
    as [r|] eqn:Hf.
  - by destruct (fan_out_spec body init total threads _ r Hpos Hf) as (_ & _ & ->).
  - unfold fan_out in Hf. fold (launched_tasks total threads) in Hf.
    by rewrite in_turn_done in Hf.
Qed.

End Completion.

(** For every file and every positive number of threads there is an
    interleaving under which the load returns. *)
Lemma deserialize_from_file_returns `{FloatLib} flag hardware_concurrency content max_threads :
  0 < resolve_threads hardware_concurrency max_threads →
  ∃ schedule r,
    deserialize_from_file flag hardware_concurrency content max_threads schedule = Some r.
Proof.
  intros Hpos.
  exists (in_turn (launched_tasks (length (split_lines content))
                     (resolve_threads hardware_concurrency max_threads))).
  unfold deserialize_from_file, deserialize_from_file_parallel.
  rewrite (proj2 (Nat.eqb_neq _ 0)) by lia.
  rewrite fan_out_in_turn by done. by eexists.
Qed.

(** ** Raw blobs in lines *)

Lemma enc_char_quote_safe d : is_quote_safe (Raw.enc_char d) = true.
Proof.
  unfold Raw.enc_char. generalize (Z.to_nat d). intros k.
  do 86 (destruct k as [|k]; [reflexivity|]). reflexivity.
Qed.

Lemma put_group_quote_safe enc write_pos value :
  Forall (λ c, is_quote_safe c = true) enc →
  Forall (λ c, is_quote_safe c = true) (Raw.put_group enc write_pos value).
Proof.
  intros He. unfold Raw.put_group.
  repeat (apply Forall_insert; [|apply enc_char_quote_safe]). done.
Qed.

(** The text [pack] produces from bytes never holds a quote or a
    backslash: a blob built from bytes is always carried by a line. *)
Lemma pack_quote_safe x :
  Raw.encoded_ x = [] → Forall (λ c, is_quote_safe c = true) (Raw.encoded_ (Raw.pack x)).
Proof.
  intros He. unfold Raw.pack. rewrite He. cbn [is_empty negb orb].
  destruct (is_empty (Raw.data_ x)); [by rewrite He|]. cbn [Raw.encoded_].
  set (n := length (Raw.data_ x)).
  assert (∀ k, Forall (λ c, is_quote_safe c = true)
                 (Raw.pack_full_blocks (Raw.data_ x) (n `div` 4) (replicate k zero))) as Hfull.
  { intros k. unfold Raw.pack_full_blocks. generalize (seq 0 (n `div` 4)).
    intros l. assert (Forall (λ c, is_quote_safe c = true) (replicate k zero)) as H0
      by (by apply Forall_replicate).
    revert H0. generalize (replicate k zero).
    induction l as [|i l IH]; intros enc Henc; [done|]. simpl.
    by apply IH, put_group_quote_safe. }
  destruct (0 <? n `mod` 4); [|apply Hfull].
  apply Forall_insert; [by apply put_group_quote_safe|].
  assert ((4 - n `mod` 4) `mod` 4 < 4) as Hp by (apply Nat.mod_upper_bound; lia).
  destruct ((4 - n `mod` 4) `mod` 4) as [|[|[|[|p]]]]; try reflexivity. lia.
Qed.

Section Aliasing.
Context `{FloatLib}.

(** A value that was serialized before is written with the same text and
    stays as it is: a worker that meets a blob another record already had
    packed writes what it would have written itself. *)
Lemma serialize_value_after v :
  serialize_value (after_serialize v) = ((serialize_value v).1, after_serialize v).
Proof.
  destruct v as [| | | | | | | | | |[r|]| | | | | | | | | |]; try reflexivity.
  unfold after_serialize. cbn [serialize_value fst snd].
  by rewrite RawFacts.pack_pack.
Qed.

End Aliasing.

(** ** More on the codec *)

Module RawCodec.
Import Raw RawFacts RawRoundTrip.
Local Open Scope Z_scope.

(** *** The two tables *)

Lemma decode_symbol_sound c d : decode_symbol c = Ok d → 0 ≤ d < 85 ∧ enc_char d = c.
Proof.
  intros Hd. destruct c as [[] [] [] [] [] [] [] []]; vm_compute in Hd;
    try discriminate Hd; injection Hd as <-; (split; [lia|reflexivity]).
Qed.

Lemma decode_symbol_Err c e : decode_symbol c = Err e → e = InvalidZ85Character.
Proof.
  unfold decode_symbol. destruct (_ || _); [congruence|].
  destruct (_ =? 255); congruence.
Qed.

Lemma enc_char_alphabet d : 0 ≤ d < 85 → enc_char d ∈ z85_encode.
Proof.
  intros Hd. unfold enc_char. apply list_elem_of_lookup. exists (Z.to_nat d).
  destruct (nth_lookup_or_length z85_encode (Z.to_nat d) zero) as [Hl|Hl]; [done|].
  change (length z85_encode) with 85%nat in Hl. lia.
Qed.

Lemma decode_symbol_alphabet c d : decode_symbol c = Ok d → c ∈ z85_encode.
Proof. intros [Hd <-]%decode_symbol_sound. by apply enc_char_alphabet. Qed.

Lemma decode_symbol_in_bounds enc i d :
  decode_symbol (char_at enc i) = Ok d → (i < length enc)%nat.
Proof.
  intros Hd. destruct (decide (i < length enc)%nat) as [|Hge]; [done|].
  unfold char_at in Hd. rewrite nth_overflow in Hd by lia. done.
Qed.

(** *** The group loop *)

Lemma decode_group_Ok enc i v :
  decode_group enc i = Ok v →
  ∀ j, (j < 5)%nat → ∃ d, decode_symbol (char_at enc (i + j)) = Ok d.
Proof.
  unfold decode_group. cbn [seq foldl]. rewrite bind_Ok.
  destruct (decode_symbol (char_at enc (i + 0))) as [d0|] eqn:E0; [|done].
  rewrite !bind_Ok.
  destruct (decode_symbol (char_at enc (i + 1))) as [d1|] eqn:E1; [|done].
  rewrite !bind_Ok.
  destruct (decode_symbol (char_at enc (i + 2))) as [d2|] eqn:E2; [|done].
  rewrite !bind_Ok.
  destruct (decode_symbol (char_at enc (i + 3))) as [d3|] eqn:E3; [|done].
  rewrite !bind_Ok.
  destruct (decode_symbol (char_at enc (i + 4))) as [d4|] eqn:E4; [|done].
  intros _ j Hj. destruct j as [|[|[|[|[|j]]]]]; try lia; by eexists.
Qed.

Lemma decode_group_Err enc i e : decode_group enc i = Err e → e = InvalidZ85Character.
Proof.
  unfold decode_group. cbn [seq foldl]. rewrite bind_Ok.
  destruct (decode_symbol (char_at enc (i + 0))) as [d0|e0] eqn:E0;
    [|by intros [= <-]; apply decode_symbol_Err in E0].
  rewrite !bind_Ok.
  destruct (decode_symbol (char_at enc (i + 1))) as [d1|e1] eqn:E1;
    [|by intros [= <-]; apply decode_symbol_Err in E1].
  rewrite !bind_Ok.
  destruct (decode_symbol (char_at enc (i + 2))) as [d2|e2] eqn:E2;
    [|by intros [= <-]; apply decode_symbol_Err in E2].
  rewrite !bind_Ok.
  destruct (decode_symbol (char_at enc (i + 3))) as [d3|e3] eqn:E3;
    [|by intros [= <-]; apply decode_symbol_Err in E3].
  rewrite !bind_Ok.
  destruct (decode_symbol (char_at enc (i + 4))) as [d4|e4] eqn:E4;
    [done|by intros [= <-]; apply decode_symbol_Err in E4].
Qed.

Lemma is_byte_land x : is_byte (Z.land x 255).
Proof.
  unfold is_byte. change 255 with (Z.ones 8). rewrite Z.land_ones by lia.
  apply Z.mod_pos_bound. lia.
Qed.

(** What [put_word] keeps: the size of the buffer and the bytes being
    bytes. *)
Lemma put_byte_keeps n st b :
  is_byte b →
  length (put_byte n st b).1 = length st.1 ∧
  (Forall is_byte st.1 → Forall is_byte (put_byte n st b).1).
Proof.
  intros Hb. destruct st as [buf wp]. unfold put_byte.
  destruct (wp <? n)%nat; cbn [fst]; [|done].
  split; [by rewrite length_insert|]. intros Hbuf. by apply Forall_insert.
Qed.

Lemma put_word_keeps n st v :
  length (put_word n st v).1 = length st.1 ∧
  (Forall is_byte st.1 → Forall is_byte (put_word n st v).1).
Proof.
  unfold put_word.
  pose proof (put_byte_keeps n st _ (is_byte_land (Z.shiftr v 24))) as [L1 B1].
  set (st1 := put_byte n st _) in *.
  pose proof (put_byte_keeps n st1 _ (is_byte_land (Z.shiftr v 16))) as [L2 B2].
  set (st2 := put_byte n st1 _) in *.
  pose proof (put_byte_keeps n st2 _ (is_byte_land (Z.shiftr v 8))) as [L3 B3].
  set (st3 := put_byte n st2 _) in *.
  pose proof (put_byte_keeps n st3 _ (is_byte_land v)) as [L4 B4].
  split; [congruence|auto].
Qed.

Lemma unpack_groups_keeps enc n starts st :
  length (unpack_groups enc n starts st).1 = length st.1 ∧
  (Forall is_byte st.1 → Forall is_byte (unpack_groups enc n starts st).1).
Proof.
  revert st. induction starts as [|i starts IH]; intros st; [done|].
  cbn [unpack_groups]. destruct (decode_group enc i) as [v|e]; [|done].
  destruct (IH (put_word n st v)) as [L B]. destruct (put_word_keeps n st v) as [L' B'].
  split; [congruence|auto].
Qed.

Lemma unpack_groups_returns enc n starts st d :
  unpack_groups enc n starts st = (d, None) →
  Forall (λ i, ∃ v, decode_group enc i = Ok v) starts.
Proof.
  revert st. induction starts as [|i starts IH]; intros st; [by constructor|].
  cbn [unpack_groups]. destruct (decode_group enc i) as [v|e] eqn:E; [|done].
  intros Hrest. constructor; [by eexists|]. by eapply IH.
Qed.

Lemma unpack_groups_throws enc n starts st d e :
  unpack_groups enc n starts st = (d, Some e) → e = InvalidZ85Character.
Proof.
  revert st. induction starts as [|i starts IH]; intros st; [done|].
  cbn [unpack_groups]. destruct (decode_group enc i) as [v|e'] eqn:E.
  - apply IH.
  - intros [= _ <-]. by apply decode_group_Err in E.
Qed.

(** *** [unpack] on a text *)

(** The number of characters [unpack] reads as symbols, the value of the
    marker it found, and the number of bytes it makes room for. *)
Definition symbols_length (enc : list ascii) : nat :=
  if has_marker enc then (length enc - 1)%nat else length enc.

Definition marker_value (enc : list ascii) : Z :=
  if has_marker enc then code (char_at enc (length enc - 1)) - code "0" else 0.

Definition decoded_length (enc : list ascii) : Z :=
  Z.of_nat (symbols_length enc `div` 5) * 4 - marker_value enc.

Lemma unpack_run_text enc :
  enc ≠ [] →
  unpack_run (RawData_of_encoded enc) =
  if vector_max_size <? size_t (decoded_length enc)
  then (RawData_of_encoded enc, Some LengthError)
  else
    let output_len := Z.to_nat (size_t (decoded_length enc)) in
    let '(d, exn) := unpack_groups enc output_len (group_starts (symbols_length enc))
                                   (replicate output_len 0, 0%nat) in
    match exn with
    | Some e => (mkRawData d enc, Some e)
    | None => (mkRawData d [], None)
    end.
Proof.
  intros Hne. unfold unpack_run, decoded_length, symbols_length, marker_value, has_marker.
  cbn [RawData_of_encoded data_ encoded_ is_empty negb orb].
  destruct (is_empty enc) eqn:E; [by apply is_empty_true in E|].
  by destruct (_ && _).
Qed.

Lemma marker_value_range enc :
  if has_marker enc then 1 ≤ marker_value enc ≤ 3 else marker_value enc = 0.
Proof.
  unfold marker_value. destruct (has_marker enc) eqn:E; [|done].
  unfold has_marker in E. apply andb_true_iff in E as [E1 E2].
  apply Z.leb_le in E1, E2. change (code "1") with 49 in E1.
  change (code "3") with 51 in E2. change (code "0") with 48. lia.
Qed.

Lemma has_marker_nonempty enc : has_marker enc = true → enc ≠ [].
Proof. by intros E ->. Qed.

Lemma marker_alphabet c :
  (code "1" <=? code c) && (code c <=? code "3") = true → c ∈ z85_encode.
Proof.
  intros Hc. destruct c as [[] [] [] [] [] [] [] []]; vm_compute in Hc;
    try discriminate Hc; unfold z85_encode; simpl; set_solver.
Qed.

(** The string can be as long as a vector can. *)
Definition fits (enc : list ascii) : Prop := Z.of_nat (length enc) ≤ vector_max_size.

Lemma decoded_length_bound enc : fits enc → decoded_length enc ≤ vector_max_size.
Proof.
  unfold fits, decoded_length. intros Hfit.
  pose proof (marker_value_range enc) as Hm.
  assert (symbols_length enc ≤ length enc)%nat as Hs
    by (unfold symbols_length; destruct (has_marker enc); lia).
  pose proof (Nat.div_mod_eq (symbols_length enc) 5).
  destruct (has_marker enc); lia.
Qed.

(** A call that returns found every group in the text. *)
Lemma unpack_Ok_groups enc y :
  enc ≠ [] → decoded_length enc ≤ vector_max_size →
  unpack (RawData_of_encoded enc) = Ok y →
  0 ≤ decoded_length enc ∧
  y = mkRawData (data_ y) [] ∧
  length (data_ y) = Z.to_nat (decoded_length enc) ∧
  Forall is_byte (data_ y) ∧
  ∀ k j, (k < (symbols_length enc + 4) `div` 5)%nat → (j < 5)%nat →
    ∃ d, decode_symbol (char_at enc (5 * k + j)) = Ok d.
Proof.
  intros Hne Hhi. unfold unpack. rewrite unpack_run_text by done.
  pose proof (marker_value_range enc) as Hm.
  assert (-3 ≤ decoded_length enc) as Hlo.
  { unfold decoded_length. destruct (has_marker enc); lia. }
  assert (vector_max_size = 2 ^ 63 - 1) as Hmax by done.
  destruct (Z.ltb_spec vector_max_size (size_t (decoded_length enc))) as [|Hsz]; [done|].
  assert (0 ≤ decoded_length enc) as Hpos.
  { destruct (decide (0 ≤ decoded_length enc)) as [|Hneg]; [done|]. exfalso.
    unfold size_t in Hsz.
    replace (decoded_length enc) with (decoded_length enc + 2 ^ 64 + (-1) * 2 ^ 64) in Hsz by lia.
    rewrite Z.mod_add, Z.mod_small in Hsz by lia. lia. }
  assert (size_t (decoded_length enc) = decoded_length enc) as ->
    by (unfold size_t; apply Z.mod_small; lia).
  cbv zeta.
  destruct (unpack_groups _ _ _ _) as [d [e|]] eqn:Hg; [done|]. intros [= <-].
  cbn [data_]. split; [done|]. split; [done|].
  pose proof (unpack_groups_keeps enc (Z.to_nat (decoded_length enc))
    (group_starts (symbols_length enc))
    (replicate (Z.to_nat (decoded_length enc)) 0, 0%nat)) as [Hlen Hbytes].
  rewrite Hg in Hlen, Hbytes. cbn [fst] in Hlen, Hbytes.
  rewrite length_replicate in Hlen. split; [done|].
  split; [apply Hbytes, Forall_replicate; unfold is_byte; lia|].
  intros k j Hk Hj. apply unpack_groups_returns in Hg.
  assert ((5 * k)%nat ∈ group_starts (symbols_length enc)) as Hin.
  { unfold group_starts. apply list_elem_of_fmap. exists k. split; [done|].
    apply elem_of_seq. lia. }
  destruct (proj1 (Forall_forall _ _) Hg _ Hin) as [v Hv].
  by apply (decode_group_Ok _ _ _ Hv).
Qed.

Lemma decode_symbol_of_alphabet c : c ∈ z85_encode → ∃ d, decode_symbol c = Ok d.
Proof.
  intros [i Hi]%list_elem_of_lookup. exists (Z.of_nat i).
  assert (i < 85)%nat as Hlt by (by apply lookup_lt_Some in Hi).
  rewrite <- (decode_symbol_enc_char (Z.of_nat i)) by lia. f_equal.
  unfold enc_char. rewrite Nat2Z.id. symmetry. by apply nth_lookup_Some.
Qed.

Lemma decode_group_valid enc i :
  (∀ j, (j < 5)%nat → ∃ d, decode_symbol (char_at enc (i + j)) = Ok d) →
  ∃ v, decode_group enc i = Ok v.
Proof.
  intros Hall. unfold decode_group. cbn [seq foldl].
  destruct (Hall 0%nat) as [d0 ->]; [lia|]. destruct (Hall 1%nat) as [d1 ->]; [lia|].
  destruct (Hall 2%nat) as [d2 ->]; [lia|]. destruct (Hall 3%nat) as [d3 ->]; [lia|].
  destruct (Hall 4%nat) as [d4 ->]; [lia|]. rewrite !bind_Ok. by eexists.
Qed.

Lemma unpack_groups_valid enc n starts st :
  Forall (λ i, ∃ v, decode_group enc i = Ok v) starts →
  ∃ d, unpack_groups enc n starts st = (d, None).
Proof.
  intros Hall. revert st. induction Hall as [|i starts [v Hv] _ IH]; intros st.
  - by eexists.
  - cbn [unpack_groups]. rewrite Hv. apply IH.
Qed.

(** The texts [unpack] takes: groups of five symbols, then possibly a
    marker; a final 1, 2 or 3 counts as a marker also when it is the last
    symbol of a group, and at least one byte must be left. *)
Definition well_shaped (enc : list ascii) : Prop :=
  if has_marker enc
  then (length enc `mod` 5 = 1 ∧ 6 ≤ length enc)%nat ∨ (length enc `mod` 5 = 0 ∧ 10 ≤ length enc)%nat
  else (length enc `mod` 5 = 0)%nat.

Lemma symbols_cover enc :
  enc ≠ [] → well_shaped enc →
  1 ≤ decoded_length enc ∧
  ∀ k j, (k < (symbols_length enc + 4) `div` 5)%nat → (j < 5)%nat → (5 * k + j < length enc)%nat.
Proof.
  intros Hne Hshape. unfold well_shaped, decoded_length, symbols_length in *.
  pose proof (marker_value_range enc) as Hm.
  assert (0 < length enc)%nat as Hpos by (destruct enc; [done|simpl; lia]).
  pose proof (Nat.div_mod_eq (length enc) 5) as HL.
  destruct (has_marker enc).
  - pose proof (Nat.div_mod_eq (length enc - 1) 5) as H1.
    pose proof (Nat.mod_upper_bound (length enc - 1) 5 ltac:(lia)) as H1'.
    pose proof (Nat.div_mod_eq (length enc - 1 + 4) 5) as H2.
    pose proof (Nat.mod_upper_bound (length enc - 1 + 4) 5 ltac:(lia)) as H2'.
    split; [lia|]. intros k j Hk Hj. lia.
  - pose proof (Nat.div_mod_eq (length enc + 4) 5) as H2.
    pose proof (Nat.mod_upper_bound (length enc + 4) 5 ltac:(lia)) as H2'.
    split; [lia|]. intros k j Hk Hj. lia.
Qed.

Lemma symbols_shape enc :
  enc ≠ [] → 0 ≤ decoded_length enc →
  (∀ k j, (k < (symbols_length enc + 4) `div` 5)%nat → (j < 5)%nat →
     (5 * k + j < length enc)%nat) →
  well_shaped enc ∧ 1 ≤ decoded_length enc ∧
  ∀ i, (i < symbols_length enc)%nat →
    ∃ k j, i = (5 * k + j)%nat ∧ (k < (symbols_length enc + 4) `div` 5)%nat ∧ (j < 5)%nat.
Proof.
  intros Hne Hz Hin. unfold well_shaped, decoded_length, symbols_length in *.
  pose proof (marker_value_range enc) as Hm.
  assert (0 < length enc)%nat as Hpos by (destruct enc; [done|simpl; lia]).
  pose proof (Nat.div_mod_eq (length enc) 5) as HL.
  pose proof (Nat.mod_upper_bound (length enc) 5 ltac:(lia)) as HL'.
  assert (∀ n i, (i < n)%nat →
    ∃ k j, i = (5 * k + j)%nat ∧ (k < (n + 4) `div` 5)%nat ∧ (j < 5)%nat) as Hsplit.
  { intros n i Hi. exists (i `div` 5)%nat, (i `mod` 5)%nat.
    pose proof (Nat.div_mod_eq i 5). pose proof (Nat.mod_upper_bound i 5 ltac:(lia)).
    pose proof (Nat.div_mod_eq (n + 4) 5). pose proof (Nat.mod_upper_bound (n + 4) 5 ltac:(lia)).
    split; [lia|]. split; [|lia].
    apply Nat.Div0.div_lt_upper_bound; lia. }
  destruct (has_marker enc).
  - pose proof (Nat.div_mod_eq (length enc - 1) 5) as H1.
    pose proof (Nat.mod_upper_bound (length enc - 1) 5 ltac:(lia)) as H1'.
    pose proof (Nat.div_mod_eq (length enc - 1 + 4) 5) as H2.
    pose proof (Nat.mod_upper_bound (length enc - 1 + 4) 5 ltac:(lia)) as H2'.
    assert (0 < (length enc - 1) `div` 5)%nat as Hq by lia.
    specialize (Hin ((length enc - 1 + 4) `div` 5 - 1)%nat 4%nat ltac:(lia) ltac:(lia)).
    split; [lia|]. split; [lia|]. apply Hsplit.
  - pose proof (Nat.div_mod_eq (length enc + 4) 5) as H2.
    pose proof (Nat.mod_upper_bound (length enc + 4) 5 ltac:(lia)) as H2'.
    specialize (Hin ((length enc + 4) `div` 5 - 1)%nat 4%nat ltac:(lia) ltac:(lia)).
    split; [lia|]. split; [lia|]. apply Hsplit.
Qed.

(** What a call that returns tells about the text and gives back. *)
Lemma unpack_Ok_facts enc y :
  enc ≠ [] → decoded_length enc ≤ vector_max_size →
  unpack (RawData_of_encoded enc) = Ok y →
  encoded_ y = [] ∧ data_ y ≠ [] ∧ Forall is_byte (data_ y) ∧
  Z.of_nat (length (data_ y)) = decoded_length enc ∧
  Forall (λ c, c ∈ z85_encode) enc ∧ well_shaped enc.
Proof.
  intros Hne Hfit Hy.
  destruct (unpack_Ok_groups enc y Hne Hfit Hy) as (Hz & Hform & Hlen & Hbytes & Hgroups).
  assert (∀ k j, (k < (symbols_length enc + 4) `div` 5)%nat → (j < 5)%nat →
            (5 * k + j < length enc)%nat) as Hin.
  { intros k j Hk Hj. destruct (Hgroups k j Hk Hj) as [d Hd].
    by eapply decode_symbol_in_bounds. }
  destruct (symbols_shape enc Hne Hz Hin) as (Hshape & Hone & Hsplit).
  split; [by rewrite Hform|]. split; [intros E; rewrite E in Hlen; simpl in Hlen; lia|].
  split; [done|]. split; [lia|]. split; [|done].
  apply Forall_forall. intros c [i Hi]%list_elem_of_lookup.
  assert (char_at enc i = c) as Hc by (unfold char_at; by apply nth_lookup_Some).
  assert (i < length enc)%nat as Hlt by (by eapply lookup_lt_Some).
  destruct (decide (i < symbols_length enc)%nat) as [Hs|Hs].
  - destruct (Hsplit i Hs) as (k & j & -> & Hk & Hj).
    destruct (Hgroups k j Hk Hj) as [d Hd]. rewrite Hc in Hd.
    by eapply decode_symbol_alphabet.
  - unfold symbols_length in Hs. destruct (has_marker enc) eqn:E; [|lia].
    assert (i = length enc - 1)%nat as -> by lia. subst c. by apply marker_alphabet.
Qed.

(** Every text of that shape made of symbols is taken. *)
Lemma unpack_returns enc :
  enc ≠ [] → fits enc → Forall (λ c, c ∈ z85_encode) enc → well_shaped enc →
  ∃ y, unpack (RawData_of_encoded enc) = Ok y.
Proof.
  intros Hne Hfit Hall Hshape.
  destruct (symbols_cover enc Hne Hshape) as [Hone Hin].
  pose proof (decoded_length_bound enc Hfit) as Hhi.
  assert (vector_max_size = 2 ^ 63 - 1) as Hmax by done.
  unfold unpack. rewrite unpack_run_text by done.
  assert (size_t (decoded_length enc) = decoded_length enc) as ->
    by (unfold size_t; apply Z.mod_small; lia).
  destruct (Z.ltb_spec vector_max_size (decoded_length enc)) as [|_]; [lia|]. cbv zeta.
  destruct (unpack_groups_valid enc (Z.to_nat (decoded_length enc))
    (group_starts (symbols_length enc))
    (replicate (Z.to_nat (decoded_length enc)) 0, 0%nat)) as [d ->]; [|by eexists].
  apply Forall_forall. intros i Hi. unfold group_starts in Hi.
  apply list_elem_of_fmap in Hi as (k & -> & Hk). apply elem_of_seq in Hk.
  apply decode_group_valid. intros j Hj. apply decode_symbol_of_alphabet.
  specialize (Hin k j ltac:(lia) Hj).
  destruct (lookup_lt_is_Some_2 enc _ Hin) as [c Hc].
  unfold char_at. rewrite (nth_lookup_Some _ _ _ _ Hc).
  apply (proj1 (Forall_forall _ _) Hall c). by eapply list_elem_of_lookup_2.
Qed.

(** *** The text [pack] writes *)

Lemma enc_char_marker k :
  0 ≤ k < 85 →
  (code "1" <=? code (enc_char k)) && (code (enc_char k) <=? code "3") = true ↔ 1 ≤ k ≤ 3.
Proof.
  intros Hk. assert (k = Z.of_nat (Z.to_nat k)) as -> by lia.
  assert (Z.to_nat k < 85)%nat as Hn by lia. revert Hn. generalize (Z.to_nat k).
  intros n Hn.
  do 85 (destruct n as [|n];
    [split; [intros Hm; vm_compute in Hm; first [discriminate Hm|lia]
            |intros Hr; first [reflexivity|lia]]|]).
  lia.
Qed.

Lemma pack_of_data d :
  d ≠ [] → pack (RawData_of_data d) = RawData_of_encoded (encoded_ (pack (RawData_of_data d))).
Proof.
  intros Hne. destruct (pack_encoded_length (RawData_of_data d) eq_refl Hne) as [Hdata _].
  unfold RawData_of_encoded. rewrite <- Hdata. by rewrite RawData_eta.
Qed.

(** Whether the text of a whole number of blocks ends in 1, 2 or 3 is
    decided by the last four bytes. *)
Lemma has_marker_full_blocks d :
  Forall is_byte d → d ≠ [] → (length d `mod` 4 = 0)%nat →
  has_marker (encoded_ (pack (RawData_of_data d))) = true ↔
  1 ≤ word d (length d - 4) `mod` 85 ≤ 3.
Proof.
  intros Hd Hne Hr. destruct (pack_text d Hd Hne) as (_ & Hchars & Hfull & _).
  specialize (Hfull Hr). pose proof (groups_full _ Hr) as HG.
  assert (0 < length d)%nat as Hpos by (destruct d; [done|simpl; lia]).
  unfold has_marker. rewrite Hfull.
  replace (5 * groups (length d) - 1)%nat with (5 * (groups (length d) - 1) + 4)%nat by lia.
  rewrite Hchars by lia.
  replace (4 * (groups (length d) - 1))%nat with (length d - 4)%nat by lia.
  cbn [nth digits85]. apply enc_char_marker. apply Z.mod_pos_bound. lia.
Qed.

Lemma digits85_nth v k :
  0 ≤ v < 2 ^ 32 → (k < 5)%nat → 0 ≤ nth k (digits85 v) 0 < 85.
Proof.
  intros Hv Hk. pose proof (digits85_range v Hv) as Hr.
  assert (length (digits85 v) = 5%nat) as Hlen by done.
  destruct (nth_lookup_or_length (digits85 v) k 0) as [Hl|Hl]; [|lia].
  apply (proj1 (Forall_forall _ _) Hr). by eapply list_elem_of_lookup_2.
Qed.

Lemma pack_alphabet d :
  Forall is_byte d → d ≠ [] →
  Forall (λ c, c ∈ z85_encode) (encoded_ (pack (RawData_of_data d))).
Proof.
  intros Hd Hne. destruct (pack_text d Hd Hne) as (_ & Hchars & Hfull & Hpart).
  apply Forall_forall. intros c [i Hi]%list_elem_of_lookup.
  assert (char_at (encoded_ (pack (RawData_of_data d))) i = c) as Hc
    by (unfold char_at; by apply nth_lookup_Some).
  assert (i < length (encoded_ (pack (RawData_of_data d))))%nat as Hlt
    by (by eapply lookup_lt_Some).
  clear Hi. subst c.
  destruct (decide (i < 5 * groups (length d))%nat) as [Hin|Hout].
  - pose proof (Nat.div_mod_eq i 5) as Hi.
    pose proof (Nat.mod_upper_bound i 5 ltac:(lia)) as Hi'.
    rewrite Hi, Hchars by lia.
    apply enc_char_alphabet, digits85_nth; [by apply word_range|lia].
  - pose proof (Nat.mod_upper_bound (length d) 4 ltac:(lia)) as Hr.
    destruct (decide (length d `mod` 4 = 0)%nat) as [Hr0|Hr0].
    + rewrite (Hfull Hr0) in Hlt. lia.
    + destruct (Hpart Hr0) as [Hlen Hmark]. rewrite Hlen in Hlt.
      assert (i = 5 * groups (length d))%nat as -> by lia. rewrite Hmark.
      assert (length d `mod` 4 = 1 ∨ length d `mod` 4 = 2 ∨ length d `mod` 4 = 3)%nat
        as Hcases by lia.
      apply marker_alphabet. by destruct Hcases as [->|[->| ->]].
Qed.

(** ** Properties of the codec beyond the round trip *)

(** X1: the decode table is the inverse of the alphabet: a character
    decodes to a digit exactly when it is the symbol of that digit, and the
    digits are those below 85. *)
Theorem z85_tables_inverse c d :
  decode_symbol c = Ok d ↔ 0 ≤ d < 85 ∧ enc_char d = c.
Proof.
  split; [apply decode_symbol_sound|]. intros [Hd <-]. by apply decode_symbol_enc_char.
Qed.

(** The bytes [unpack] gives back wrongly: a positive multiple of four of
    them, the last four a big-endian number that leaves 1, 2 or 3 modulo
    85. *)
Definition ends_like_marker (d : list Z) : Prop :=
  d ≠ [] ∧ (length d `mod` 4 = 0)%nat ∧ 1 ≤ word d (length d - 4) `mod` 85 ≤ 3.

Lemma unpack_pack_bytes (d : list Z) :
  Forall is_byte d → Z.of_nat (length d) ≤ vector_max_size → ¬ ends_like_marker d →
  unpack (pack (RawData_of_data d)) = Ok (RawData_of_data d).
Proof.
  intros Hd Hmax Hnot. apply unpack_pack; [done..|].
  destruct (decide (length d `mod` 4 = 0)%nat) as [Hr|Hr]; [|by left]. right.
  destruct (decide (d = [])) as [->|Hne]; [done|].
  destruct (has_marker _) eqn:E; [|done].
  apply has_marker_full_blocks in E; [|done..]. by destruct Hnot.
Qed.

(** X2: for bytes, [unpack] after [pack] gives the bytes back exactly when
    it is not the case that the byte count is a positive multiple of four
    and the last four bytes, as a big-endian number, leave the remainder 1,
    2 or 3 modulo 85. *)
Theorem unpack_pack_iff (d : list Z) :
  Forall is_byte d → Z.of_nat (length d) ≤ vector_max_size →
  (unpack (pack (RawData_of_data d)) = Ok (RawData_of_data d) ↔
   ¬ (d ≠ [] ∧ (length d `mod` 4 = 0)%nat ∧ 1 ≤ word d (length d - 4) `mod` 85 ≤ 3)).
Proof.
  intros Hd Hmax. split; [|by apply unpack_pack_bytes].
  intros Hok (Hne & Hr & Hw).
  apply has_marker_full_blocks in Hw; [|done..].
  destruct (pack_text d Hd Hne) as (_ & _ & Hfull & _). specialize (Hfull Hr).
  destruct (pack_work (RawData_of_data d)) as [_ Henc].
  { unfold pack_skips. cbn. by destruct d. }
  rewrite pack_of_data in Hok by done.
  pose proof (groups_full _ Hr) as HG.
  assert (0 < length d)%nat as Hpos by (destruct d; [done|simpl; lia]).
  pose proof (marker_value_range (encoded_ (pack (RawData_of_data d)))) as Hm.
  rewrite Hw in Hm.
  assert (decoded_length (encoded_ (pack (RawData_of_data d)))
          < Z.of_nat (length d)) as Hshort.
  { unfold decoded_length, symbols_length. rewrite Hw, Hfull.
    pose proof (Nat.div_mod_eq (5 * groups (length d) - 1) 5).
    pose proof (Nat.mod_upper_bound (5 * groups (length d) - 1) 5 ltac:(lia)). lia. }
  destruct (unpack_Ok_facts _ _ Henc ltac:(lia) Hok) as (_ & _ & _ & Hlen & _).
  cbn [RawData_of_data data_] in Hlen. lia.
Qed.

Lemma unpack_pack_iff_witness :
  Forall is_byte [1; 2; 3; 4; 5] ∧ Z.of_nat (length [1; 2; 3; 4; 5]) ≤ vector_max_size ∧
  (unpack (pack (RawData_of_data [1; 2; 3; 4; 5])) = Ok (RawData_of_data [1; 2; 3; 4; 5]) ↔
   ¬ ([1; 2; 3; 4; 5] ≠ [] ∧ (length [1; 2; 3; 4; 5] `mod` 4 = 0)%nat ∧
      1 ≤ word [1; 2; 3; 4; 5] (length [1; 2; 3; 4; 5] - 4) `mod` 85 ≤ 3)).
Proof.
  assert (Forall is_byte [1; 2; 3; 4; 5]) as Hd
    by (repeat (apply Forall_cons_2; [unfold is_byte; lia|]); apply Forall_nil_2).
  assert (Z.of_nat (length [1; 2; 3; 4; 5]) ≤ vector_max_size) as Hmax by (by vm_compute).
  split; [exact Hd|]. split; [exact Hmax|]. exact (unpack_pack_iff _ Hd Hmax).
Defined.

(** X3: the text [pack] writes for bytes: five characters for every four
    bytes or part of four, one more when the byte count is not a multiple of
    four, every character a symbol of the alphabet; the bytes are cleared. *)
Theorem pack_text_shape (d : list Z) :
  Forall is_byte d → d ≠ [] →
  data_ (pack (RawData_of_data d)) = [] ∧
  length (encoded_ (pack (RawData_of_data d)))
  = (5 * ((length d + 3) `div` 4) + (if (length d `mod` 4 =? 0)%nat then 0 else 1))%nat ∧
  Forall (λ c, c ∈ z85_encode) (encoded_ (pack (RawData_of_data d))).
Proof.
  intros Hd Hne. destruct (pack_text d Hd Hne) as (Hdata & _ & Hfull & Hpart).
  split; [done|]. split; [|by apply pack_alphabet]. fold (groups (length d)).
  destruct (Nat.eqb_spec (length d `mod` 4) 0) as [Hr|Hr].
  - rewrite (Hfull Hr). lia.
  - by destruct (Hpart Hr) as [-> _].
Qed.

Lemma pack_text_shape_witness :
  Forall is_byte [1; 2; 3; 4; 5] ∧ [1; 2; 3; 4; 5] ≠ [] ∧
  length (encoded_ (pack (RawData_of_data [1; 2; 3; 4; 5]))) = 11%nat.
Proof.
  assert (Forall is_byte [1; 2; 3; 4; 5]) as Hd
    by (repeat (apply Forall_cons_2; [unfold is_byte; lia|]); apply Forall_nil_2).
  assert ([1; 2; 3; 4; 5] ≠ []) as Hne by done.
  split; [exact Hd|]. split; [exact Hne|].
  exact (proj1 (proj2 (pack_text_shape _ Hd Hne))).
Defined.

(** X4: a text is taken by [unpack] exactly when every character is a
    symbol of the alphabet and the text is groups of five symbols, with or
    without one more character 1, 2 or 3; a final 1, 2 or 3 is read as a
    marker also when it is the fifth symbol of the last group, and then two
    groups at least are needed. *)
Theorem unpack_accepts (enc : list ascii) :
  enc ≠ [] → fits enc →
  ((∃ y, unpack (RawData_of_encoded enc) = Ok y) ↔
   Forall (λ c, c ∈ z85_encode) enc ∧ well_shaped enc).
Proof.
  intros Hne Hfit. split.
  - intros [y Hy].
    by destruct (unpack_Ok_facts enc y Hne (decoded_length_bound enc Hfit) Hy)
      as (_ & _ & _ & _ & ? & ?).
  - intros [Hall Hshape]. by apply unpack_returns.
Qed.

Lemma unpack_accepts_witness :
  str "0000000001" ≠ [] ∧ fits (str "0000000001") ∧
  ((∃ y, unpack (RawData_of_encoded (str "0000000001")) = Ok y) ↔
   Forall (λ c, c ∈ z85_encode) (str "0000000001") ∧ well_shaped (str "0000000001")).
Proof.
  assert (str "0000000001" ≠ []) as Hne by done.
  assert (fits (str "0000000001")) as Hfit by (by vm_compute).
  split; [exact Hne|]. split; [exact Hfit|]. exact (unpack_accepts _ Hne Hfit).
Defined.

(** X5: a call of [unpack] on a text that returns leaves the bytes alone:
    the text is cleared, there is at least one byte, every byte is below 256,
    and their number is four for every five symbols less the value of the
    marker. *)
Theorem unpack_result (enc : list ascii) (y : RawData) :
  enc ≠ [] → fits enc → unpack (RawData_of_encoded enc) = Ok y →
  encoded_ y = [] ∧ data_ y ≠ [] ∧ Forall is_byte (data_ y) ∧
  Z.of_nat (length (data_ y))
  = Z.of_nat (symbols_length enc `div` 5) * 4 - marker_value enc.
Proof.
  intros Hne Hfit Hy.
  by destruct (unpack_Ok_facts enc y Hne (decoded_length_bound enc Hfit) Hy)
    as (? & ? & ? & ? & _).
Qed.

Lemma unpack_result_witness :
  str "0rJua1POJ53" ≠ [] ∧ fits (str "0rJua1POJ53") ∧
  unpack (RawData_of_encoded (str "0rJua1POJ53")) = Ok (RawData_of_data [1; 2; 3; 4; 5]) ∧
  Z.of_nat (length [1; 2; 3; 4; 5])
  = Z.of_nat (symbols_length (str "0rJua1POJ53") `div` 5) * 4 - marker_value (str "0rJua1POJ53").
Proof.
  assert (str "0rJua1POJ53" ≠ []) as Hne by done.
  assert (fits (str "0rJua1POJ53")) as Hfit by (by vm_compute).
  assert (unpack (RawData_of_encoded (str "0rJua1POJ53"))
          = Ok (RawData_of_data [1; 2; 3; 4; 5])) as Hy by reflexivity.
  split; [exact Hne|]. split; [exact Hfit|]. split; [exact Hy|].
  exact (proj2 (proj2 (proj2 (unpack_result _ _ Hne Hfit Hy)))).
Defined.

(** [unpack] throws nothing but the runtime error of an invalid
    character and the length error of [resize]. *)
Theorem unpack_throws_only (x : RawData) (e : error) :
  unpack x = Err e → e = InvalidZ85Character ∨ e = LengthError.
Proof.
  unfold unpack, unpack_run. destruct (_ || _); [done|].
  destruct (vector_max_size <? _); [intros [= <-]; by right|].
  destruct (unpack_groups _ _ _ _) as [d [e'|]] eqn:Hg; [|done].
  intros [= <-]. left. by eapply unpack_groups_throws.
Qed.

Lemma unpack_throws_only_witness :
  unpack (RawData_of_encoded (str "0000 ")) = Err InvalidZ85Character ∧
  (InvalidZ85Character = InvalidZ85Character ∨ InvalidZ85Character = LengthError).
Proof.
  assert (unpack (RawData_of_encoded (str "0000 ")) = Err InvalidZ85Character) as Hx
    by reflexivity.
  split; [exact Hx|]. exact (unpack_throws_only _ _ Hx).
Defined.

(** X6: the length error is thrown exactly for the texts of at most five
    characters that end in 1, 2 or 3: the marker is taken off, no whole group
    is left, and the byte count wraps around below zero. *)
Theorem unpack_length_error (enc : list ascii) :
  fits enc →
  (unpack (RawData_of_encoded enc) = Err LengthError ↔
   has_marker enc = true ∧ (length enc ≤ 5)%nat).
Proof.
  intros Hfit. destruct (decide (enc = [])) as [->|Hne]; [by split; [|intros [? _]]|].
  pose proof (decoded_length_bound enc Hfit) as Hhi.
  pose proof (marker_value_range enc) as Hm.
  assert (vector_max_size = 2 ^ 63 - 1) as Hmax by done.
  assert (0 < length enc)%nat as Hpos by (destruct enc; [done|simpl; lia]).
  unfold unpack. rewrite unpack_run_text by done.
  assert (decoded_length enc < 0 ↔ has_marker enc = true ∧ (length enc ≤ 5)%nat) as Hneg.
  { unfold decoded_length, symbols_length in *.
    destruct (has_marker enc).
    - pose proof (Nat.div_mod_eq (length enc - 1) 5).
      pose proof (Nat.mod_upper_bound (length enc - 1) 5 ltac:(lia)).
      split; [intros; split; [done|lia]|]. intros [_ Hle].
      rewrite Nat.div_small by lia. lia.
    - split; [lia|]. by intros [? _]. }
  rewrite <- Hneg.
  destruct (decide (decoded_length enc < 0)) as [Hz|Hz].
  - assert (-3 ≤ decoded_length enc) as Hlo.
    { unfold decoded_length. destruct (has_marker enc); lia. }
    assert (size_t (decoded_length enc) = decoded_length enc + 2 ^ 64) as ->.
    { unfold size_t.
      replace (decoded_length enc) with (decoded_length enc + 2 ^ 64 + (-1) * 2 ^ 64) at 1 by lia.
      rewrite Z.mod_add, Z.mod_small by lia. done. }
    destruct (Z.ltb_spec vector_max_size (decoded_length enc + 2 ^ 64)) as [_|]; [done|lia].
  - assert (size_t (decoded_length enc) = decoded_length enc) as ->
      by (unfold size_t; apply Z.mod_small; lia).
    destruct (Z.ltb_spec vector_max_size (decoded_length enc)) as [|_]; [lia|]. cbv zeta.
    destruct (unpack_groups _ _ _ _) as [d [e'|]] eqn:Hg; [|by split].
    apply unpack_groups_throws in Hg as ->. by split.
Qed.

Lemma unpack_length_error_witness :
  fits (str "1") ∧ unpack (RawData_of_encoded (str "1")) = Err LengthError.
Proof.
  assert (fits (str "1")) as Hfit by (by vm_compute).
  assert (has_marker (str "1") = true ∧ (length (str "1") ≤ 5)%nat) as Hm
    by (split; [reflexivity|simpl; lia]).
  split; [exact Hfit|]. exact (proj2 (unpack_length_error (str "1") Hfit) Hm).
Defined.

End RawCodec.

(** ** More on lines *)

(** The test of the line splitter: [c == LF || c == CR]. *)
Definition line_break (c : ascii) : bool := (c =? char_n)%char || (c =? char_r)%char.

Lemma hex_digit_printable n : (32 ≤ code (hex_upper (n mod 16)))%Z.
Proof.
  assert (0 ≤ n mod 16 < 16)%Z as Hn by (apply Z.mod_pos_bound; lia).
  unfold hex_upper. revert Hn. generalize (n mod 16)%Z. intros k Hk.
  assert (k = Z.of_nat (Z.to_nat k)) as -> by lia.
  assert (Z.to_nat k < 16)%nat as Hlt by lia. revert Hlt. rewrite Nat2Z.id.
  generalize (Z.to_nat k). intros i Hi.
  do 16 (destruct i as [|i]; [by vm_compute|]). lia.
Qed.

Lemma escape_char_printable c : Forall (λ x, (32 ≤ code x)%Z) (escape_char c).
Proof.
  unfold escape_char.
  repeat match goal with
  | |- context [if (?a =? ?b)%char then _ else _] =>
      destruct (Ascii.eqb_spec a b) as [->|?];
        [repeat (apply Forall_cons_2; [by vm_compute|]); apply Forall_nil_2|]
  end.
  destruct (Z.ltb_spec (code c) 32).
  - unfold u_escape. repeat (apply Forall_cons_2; [first [by vm_compute|apply hex_digit_printable]|]).
    apply Forall_nil_2.
  - by apply Forall_cons_2.
Qed.

Lemma serialize_string_codes (s : list ascii) :
  Forall (λ c, (32 ≤ code c)%Z) (serialize_string s).
Proof.
  unfold serialize_string. apply Forall_app. split; [by apply Forall_cons_2; [vm_compute|]|].
  apply Forall_app. split; [|by apply Forall_cons_2; [vm_compute|]].
  induction s as [|c s IH]; [done|]. rewrite fmap_cons. cbn [concat].
  apply Forall_app. split; [apply escape_char_printable|done].
Qed.

(** A text that holds no line break. *)
Definition one_line (text : list ascii) : Prop := Forall (λ c, line_break c = false) text.

Lemma printable_no_break c : (32 ≤ code c)%Z → line_break c = false.
Proof.
  intros Hc. unfold line_break.
  destruct (Ascii.eqb_spec c char_n) as [->|_]; [by vm_compute in Hc|].
  destruct (Ascii.eqb_spec c char_r) as [->|_]; [by vm_compute in Hc|]. done.
Qed.

Lemma plain_no_break c : is_plain c = true → line_break c = false.
Proof.
  intros Hc. unfold line_break.
  destruct (Ascii.eqb_spec c char_n) as [->|_]; [done|].
  destruct (Ascii.eqb_spec c char_r) as [->|_]; [done|]. done.
Qed.

Lemma one_line_app s t : one_line (s ++ t) ↔ one_line s ∧ one_line t.
Proof. apply Forall_app. Qed.

Lemma comma_join_from_one_line first texts :
  Forall one_line texts → one_line (comma_join_from first texts).
Proof.
  intros Ht. revert first. induction Ht as [|t texts Hh _ IH]; intros first; [by constructor|].
  cbn [comma_join_from]. apply one_line_app. split; [by destruct first; repeat constructor|].
  apply one_line_app. split; [done|apply IH].
Qed.

Lemma serialize_array_one_line texts :
  Forall one_line texts → one_line (serialize_array texts).
Proof.
  intros Ht. unfold serialize_array. apply one_line_app. split; [by repeat constructor|].
  apply one_line_app. split; [by apply comma_join_from_one_line|by repeat constructor].
Qed.

Lemma to_chars_int_one_line v : one_line (to_chars_int v).
Proof. eapply Forall_impl; [apply to_chars_int_plain|]. apply plain_no_break. Qed.

Lemma serialize_string_one_line s : one_line (serialize_string s).
Proof. eapply Forall_impl; [apply serialize_string_codes|]. apply printable_no_break. Qed.

Section LineFacts.
Context `{FloatLib}.

(** The values whose text depends on more than the grammar: the literal of
    a float is the library's, and a blob that holds a text is written with
    that text. *)
Definition value_one_line (v : FonValue) : Prop :=
  match v with
  | VFloat x => one_line (to_chars_float x)
  | VDouble x => one_line (to_chars_double x)
  | VRaw (Some raw) => one_line (Raw.encoded_ (Raw.pack raw))
  | VFloatArray l => Forall (λ x, one_line (to_chars_float x)) l
  | VDoubleArray l => Forall (λ x, one_line (to_chars_double x)) l
  | _ => True
  end.

Lemma Forall_fmap_one_line {T} (f : T → list ascii) (l : list T) :
  Forall (λ x, one_line (f x)) l → Forall one_line (f <$> l).
Proof. intros Hl. by apply Forall_fmap. Qed.

Lemma serialize_value_one_line v : value_one_line v → one_line (serialize_value v).1.
Proof.
  assert (∀ l, Forall one_line (to_chars_int <$> l)) as Hints.
  { intros l. apply Forall_fmap, Forall_forall. intros x _. apply to_chars_int_one_line. }
  destruct v as [x|x|x|x|x|x|x|x|b|s|[raw|]|l|l|l|l|l|l|l|l|l|l];
    cbn [value_one_line serialize_value fst]; intros Hv;
    try apply to_chars_int_one_line; try done;
    try (apply serialize_array_one_line, Hints).
  - by destruct b; repeat constructor.
  - apply serialize_string_one_line.
  - apply one_line_app. split; [by repeat constructor|].
    apply one_line_app. split; [done|by repeat constructor].
  - by repeat constructor.
  - by apply serialize_array_one_line, Forall_fmap_one_line.
  - by apply serialize_array_one_line, Forall_fmap_one_line.
  - apply serialize_array_one_line, Forall_fmap, Forall_forall. intros b _.
    by destruct b; repeat constructor.
  - apply serialize_array_one_line, Forall_fmap, Forall_forall. intros s _.
    apply serialize_string_one_line.
Qed.

Definition entry_one_line (kv : list ascii * FonValue) : Prop :=
  one_line kv.1 ∧ value_one_line kv.2.

Lemma tag_one_line v : line_break (get_type_char v) = false.
Proof. by destruct v. Qed.

Lemma serialize_entries_one_line first l :
  Forall entry_one_line l → one_line (serialize_entries first l).
Proof.
  intros Hl. revert first. induction Hl as [|[k v] l [Hk Hv] _ IH]; intros first; [by constructor|].
  cbn [serialize_entries]. apply one_line_app. split; [by destruct first; repeat constructor|].
  apply one_line_app. split; [|apply IH]. unfold serialize_entry. cbn [fst snd] in *.
  apply one_line_app. split; [done|]. apply Forall_cons_2; [done|].
  apply Forall_cons_2; [apply tag_one_line|]. apply Forall_cons_2; [done|].
  by apply serialize_value_one_line.
Qed.

Lemma serialize_to_string_one_line (m : FonCollection) :
  map_Forall (λ k v, one_line k ∧ value_one_line v) m →
  one_line (serialize_to_string m).1.
Proof.
  intros Hm. unfold serialize_to_string. cbn [fst]. apply serialize_entries_one_line.
  apply Forall_forall. intros [k v] Hin. unfold FonCollection in *.
  apply elem_of_map_to_list in Hin. by apply Hm in Hin.
Qed.

Lemma serialize_to_string_nonempty (m : FonCollection) :
  m ≠ ∅ → (serialize_to_string m).1 ≠ [].
Proof.
  intros Hm. unfold serialize_to_string. cbn [fst]. unfold FonCollection in *.
  destruct (map_to_list m) as [|[k v] l] eqn:E; [by apply map_to_list_empty_iff in E|].
  cbn [serialize_entries app]. unfold serialize_entry. cbn [fst snd].
  intros Hnil. by destruct k.
Qed.

End LineFacts.

(** ** Properties of values and lines *)

Ltac eval_char_tests :=
  repeat match goal with
  | |- context [(?a =? ?b)%char] =>
      let r := eval vm_compute in (a =? b)%char in
      first [constr_eq r true | constr_eq r false];
      change ((a =? b)%char) with r
  end.

Lemma plain_head text rest :
  text ≠ [] → Forall (λ c, is_plain c = true) text →
  is_empty (text ++ rest) = false ∧ (char_at (text ++ rest) 0 =? "[")%char = false.
Proof.
  intros Hne Hplain. destruct text as [|c text]; [done|]. split; [done|].
  apply Forall_cons in Hplain as [Hc _]. unfold is_plain in Hc.
  rewrite !andb_true_iff, !negb_true_iff in Hc. unfold char_at. simpl.
  by destruct Hc as [[_ ->] _].
Qed.

Lemma skip_comma_app text rest :
  skip_comma (text ++ rest) (length text)
  = length text + (if (char_at rest 0 =? ",")%char then 1 else 0).
Proof.
  destruct rest as [|c rest].
  - rewrite skip_comma_app_nil. unfold char_at. simpl. lia.
  - rewrite skip_comma_app_cons. unfold char_at. simpl. destruct (c =? ",")%char; lia.
Qed.

(** X7: a text without control characters other than the five named ones
    and not ending in a backslash is read back by [parse_string] from what
    [serialize_string] wrote, whatever follows; the closing quote and one
    comma after it are consumed. *)
Theorem string_round_trip (s rest : list ascii) :
  string_ok s →
  parse_string (serialize_string s ++ rest)
  = Ok (s, length (serialize_string s) + (if (char_at rest 0 =? ",")%char then 1 else 0)).
Proof. intros Hs. by rewrite parse_serialize_string, skip_comma_app. Qed.

Lemma string_round_trip_witness :
  string_ok [char_t; backslash; dquote; "a"%char] ∧
  parse_string (serialize_string [char_t; backslash; dquote; "a"%char] ++ str ",k=i:1")
  = Ok ([char_t; backslash; dquote; "a"%char], 10).
Proof.
  assert (string_ok [char_t; backslash; dquote; "a"%char]) as Hs.
  { split; [|done].
    apply Forall_cons_2; [right; set_solver|]. apply Forall_cons_2; [by left|].
    apply Forall_cons_2; [by left|]. apply Forall_cons_2; [by left|]. apply Forall_nil_2. }
  split; [exact Hs|]. exact (string_round_trip _ (str ",k=i:1") Hs).
Defined.

(** Whatever the text, [serialize_string] writes no control character:
    every character it appends has a code of 32 or more. *)
Theorem serialize_string_printable (s : list ascii) :
  Forall (λ c, (32 ≤ code c)%Z) (serialize_string s).
Proof. apply serialize_string_codes. Qed.

Section ValueProps.
Context `{FloatLib}.
Variable deserialize_raw_unpack : bool.

(** The tag and the alternative of an integer type. *)
Definition int_tag (T : int_type) : ascii :=
  match T with
  | UInt8 => TYPE_BYTE | Int16 => TYPE_SHORT | Int32 => TYPE_INT
  | UInt32 => TYPE_UINT | Int64 => TYPE_LONG | UInt64 => TYPE_ULONG
  end.

Definition int_value (T : int_type) (v : Z) : FonValue :=
  match T with
  | UInt8 => VByte v | Int16 => VShort v | Int32 => VInt v
  | UInt32 => VUInt v | Int64 => VLong v | UInt64 => VULong v
  end.

(** X8: an integer scalar is read up to the first character that is not a
    digit, and the rest of the text up to the next delimiter is dropped
    without an error: [parse_value] takes the end of the value from
    [find_value_end], not from [from_chars]. *)
Theorem integer_trailing_text_ignored (T : int_type) (v : Z) (junk rest : list ascii) :
  in_range T v →
  Forall (λ c, is_plain c = true) junk → is_digit (char_at junk 0) = false →
  comma_or_end rest →
  parse_value deserialize_raw_unpack (to_chars_int v ++ junk ++ rest) (int_tag T)
  = Ok (int_value T v, length (to_chars_int v ++ junk) + length (take 1 rest)).
Proof.
  intros Hv Hjunk Hdigit Hrest.
  assert (Forall (λ c, is_plain c = true) (to_chars_int v ++ junk)) as Hplain
    by (apply Forall_app; split; [apply to_chars_int_plain|done]).
  assert (to_chars_int v ++ junk ≠ []) as Hne.
  { pose proof (to_chars_int_nonempty v). by destruct (to_chars_int v). }
  rewrite app_assoc.
  destruct (plain_head _ rest Hne Hplain) as [Hempty Hbracket].
  pose proof (find_value_end_plain _ rest Hplain Hrest) as Hend.
  pose proof (skip_comma_comma_or_end (to_chars_int v ++ junk) rest Hrest) as Hskip.
  assert (substr ((to_chars_int v ++ junk) ++ rest) 0 (length (to_chars_int v ++ junk))
          = to_chars_int v ++ junk) as Hsub
    by (unfold substr; by rewrite drop_0, take_app_length).
  pose proof (from_chars_to_chars_int T v junk Hv Hdigit) as Hfrom.
  unfold parse_value. rewrite Hempty, Hbracket.
  destruct T; cbn [int_tag int_value]; eval_char_tests; cbn match; cbn zeta;
    rewrite Hend, Hsub, Hskip; unfold parse_number_int; rewrite Hfrom; reflexivity.
Qed.

(** A boolean scalar is true unless its first character is the digit
    0, whatever text it is. *)
Theorem bool_reads_first_character (data : list ascii) :
  data ≠ [] → is_value_end (char_at data 0) = false → char_at data 0 ≠ "["%char →
  parse_value deserialize_raw_unpack data TYPE_BOOL
  = Ok (VBool (negb (char_at data 0 =? "0")%char), skip_comma data (find_value_end data)).
Proof.
  intros Hne Hend Hbr. destruct data as [|c data]; [done|].
  unfold char_at in Hend, Hbr. cbn [nth] in Hend, Hbr.
  unfold parse_value. cbn [is_empty char_at nth].
  rewrite (proj2 (Ascii.eqb_neq c "[")) by done. eval_char_tests. cbn match. cbn zeta.
  cbn [find_value_end]. rewrite Hend. unfold substr. by rewrite drop_0.
Qed.

(** X9: a float or double scalar never fails to parse: when [from_chars]
    refuses the text, the value is what [strtof] or [strtod] makes of the
    text up to the next delimiter. *)
Theorem float_scalars_never_fail (data : list ascii) :
  data ≠ [] → char_at data 0 ≠ "["%char →
  let value_str := substr data 0 (find_value_end data) in
  parse_value deserialize_raw_unpack data TYPE_FLOAT
  = Ok (VFloat (match from_chars_float value_str with
                | Some (x, _) => x
                | None => strtof value_str
                end), skip_comma data (find_value_end data)) ∧
  parse_value deserialize_raw_unpack data TYPE_DOUBLE
  = Ok (VDouble (match from_chars_double value_str with
                 | Some (x, _) => x
                 | None => strtod value_str
                 end), skip_comma data (find_value_end data)).
Proof.
  intros Hne Hbr value_str.
  assert (is_empty data = false) as Hempty by (by destruct data).
  assert (find_value_end value_str = length value_str) as Hend.
  { unfold value_str, substr. rewrite drop_0. clear.
    induction data as [|c data IH]; [done|]. cbn [find_value_end].
    destruct (is_value_end c) eqn:E; [done|]. cbn [take find_value_end length]. by rewrite E, IH. }
  assert (substr value_str 0 (length value_str) = value_str) as Hsub
    by (unfold substr; by rewrite drop_0, firstn_all).
  unfold parse_value. rewrite Hempty, (proj2 (Ascii.eqb_neq _ _) Hbr).
  eval_char_tests. cbn match. cbn zeta. fold value_str.
  unfold parse_number_float, parse_number_double.
  split.
  - destruct (from_chars_float value_str) as [[x ptr]|]; [done|]. by rewrite Hend, Hsub.
  - destruct (from_chars_double value_str) as [[x ptr]|]; [done|]. by rewrite Hend, Hsub.
Qed.

(** X10: what [serialize_value] writes for an array of booleans or of texts
    is refused by [parse_value] under the tag [get_type_char] gives it: the
    array cases of the parser are the eight number types. *)
Theorem bool_and_string_arrays_refused (v : FonValue) (rest : list ascii) :
  (∃ l, v = VBoolArray l) ∨ (∃ l, v = VStringArray l) →
  parse_value deserialize_raw_unpack ((serialize_value v).1 ++ rest) (get_type_char v)
  = Err UnsupportedArrayType.
Proof.
  intros [[l ->]|[l ->]]; cbn [serialize_value get_type_char fst]; unfold serialize_array;
    rewrite <- !app_assoc; unfold parse_value; cbn [app is_empty char_at nth];
    eval_char_tests; reflexivity.
Qed.

End ValueProps.

Lemma integer_trailing_text_ignored_witness :
  in_range Int32 12 ∧ Forall (λ c, is_plain c = true) (str "abc") ∧
  is_digit (char_at (str "abc") 0) = false ∧ comma_or_end (str ",k=i:1") ∧
  parse_value false (to_chars_int 12 ++ str "abc" ++ str ",k=i:1") (int_tag Int32)
  = Ok (int_value Int32 12, 6).
Proof.
  assert (in_range Int32 12) as Hv by (unfold in_range; simpl; lia).
  assert (Forall (λ c, is_plain c = true) (str "abc")) as Hjunk
    by (repeat (apply Forall_cons_2; [reflexivity|]); apply Forall_nil_2).
  assert (is_digit (char_at (str "abc") 0) = false) as Hdigit by reflexivity.
  assert (comma_or_end (str ",k=i:1")) as Hrest by (right; by eexists).
  split; [exact Hv|]. split; [exact Hjunk|]. split; [exact Hdigit|]. split; [exact Hrest|].
  exact (integer_trailing_text_ignored false Int32 12 _ _ Hv Hjunk Hdigit Hrest).
Defined.

Lemma bool_reads_first_character_witness :
  str "false" ≠ [] ∧ is_value_end (char_at (str "false") 0) = false ∧
  char_at (str "false") 0 ≠ "["%char ∧
  parse_value false (str "false") TYPE_BOOL = Ok (VBool true, 5).
Proof.
  assert (str "false" ≠ []) as Hne by done.
  assert (is_value_end (char_at (str "false") 0) = false) as Hend by reflexivity.
  assert (char_at (str "false") 0 ≠ "["%char) as Hbr by done.
  split; [exact Hne|]. split; [exact Hend|]. split; [exact Hbr|].
  exact (bool_reads_first_character false _ Hne Hend Hbr).
Defined.

Lemma float_scalars_never_fail_witness :
  str "x.y" ≠ [] ∧ char_at (str "x.y") 0 ≠ "["%char ∧
  parse_value false (str "x.y") TYPE_FLOAT = Ok (VFloat 0%Z, 3).
Proof.
  assert (str "x.y" ≠ []) as Hne by done.
  assert (char_at (str "x.y") 0 ≠ "["%char) as Hbr by done.
  split; [exact Hne|]. split; [exact Hbr|].
  exact (proj1 (float_scalars_never_fail false _ Hne Hbr)).
Defined.

Lemma bool_and_string_arrays_refused_witness :
  ((∃ l, VBoolArray [true; false] = VBoolArray l) ∨
   (∃ l, VBoolArray [true; false] = VStringArray l)) ∧
  parse_value false ((serialize_value (VBoolArray [true; false])).1 ++ [])
    (get_type_char (VBoolArray [true; false]))
  = Err UnsupportedArrayType.
Proof.
  assert ((∃ l, VBoolArray [true; false] = VBoolArray l) ∨
          (∃ l, VBoolArray [true; false] = VStringArray l)) as Hv
    by (left; by eexists).
  split; [exact Hv|]. exact (bool_and_string_arrays_refused false _ [] Hv).
Defined.

Section LineProps.
Context `{FloatLib}.

Lemma find_closing_bracket_nested body rest :
  Forall (λ c, is_plain c = true) body →
  find_closing_bracket ("["%char :: "["%char :: body ++ "]"%char :: "]"%char :: rest)
  = Ok (length body + 3).
Proof.
  intros Hb. unfold find_closing_bracket. cbn [closing_bracket_from].
  eval_char_tests. cbn [andb negb]. cbn match. eval_char_tests. cbn match.
  assert (∀ prev, closing_bracket_from prev (0 + 1 + 1) false
            (body ++ "]"%char :: "]"%char :: rest) = Some (S (length body))) as Hscan.
  { induction Hb as [|c body Hc _ IH]; intros prev.
    - cbn [app length closing_bracket_from]. eval_char_tests. cbn [andb negb]. by cbn match.
    - cbn [app length closing_bracket_from].
      apply plain_no_bracket_quote in Hc. unfold no_bracket_quote in Hc.
      rewrite !andb_true_iff, !negb_true_iff in Hc. destruct Hc as [[-> ->] ->].
      cbn [andb negb]. by rewrite IH. }
  rewrite Hscan. cbn. do 2 f_equal. lia.
Qed.

(** X11: an array of floats or doubles whose content is itself in brackets
    never ends: the element loop of [parse_array] is left at the inner
    closing bracket, where [parse_number] consumes nothing and no comma
    follows, so it runs for ever, appending one number after the other. The
    hypotheses say that [from_chars] takes no text that starts with a
    bracket. *)
Theorem nested_float_array_never_ends (flag : bool) (body rest : list ascii) :
  Forall (λ c, is_plain c = true) body →
  (∀ c text, (c =? "[")%char || (c =? "]")%char = true →
     from_chars_float (c :: text) = None ∧ from_chars_double (c :: text) = None) →
  parse_value flag ("["%char :: "["%char :: body ++ "]"%char :: "]"%char :: rest) TYPE_FLOAT
  = Err Diverges ∧
  parse_value flag ("["%char :: "["%char :: body ++ "]"%char :: "]"%char :: rest) TYPE_DOUBLE
  = Err Diverges.
Proof.
  intros Hb Hfrom.
  assert (find_value_end ("["%char :: body ++ ["]"%char]) = S (length body)) as Hend.
  { cbn [find_value_end]. eval_char_tests. cbn [is_value_end orb]. unfold is_value_end.
    eval_char_tests. cbn [orb]. f_equal. clear -Hb.
    induction Hb as [|c body Hc _ IH]; [done|]. cbn [app find_value_end length].
    unfold is_plain in Hc. destruct (is_value_end c); [done|]. by rewrite IH. }
  assert (substr ("["%char :: "["%char :: body ++ "]"%char :: "]"%char :: rest) 1
            (length body + 3 - 1) = "["%char :: body ++ ["]"%char]) as Hcontent.
  { unfold substr. cbn [drop].
    replace (length body + 3 - 1) with (S (S (length body))) by lia. cbn [take].
    f_equal. change ("]"%char :: "]"%char :: rest) with (["]"%char] ++ "]"%char :: rest).
    rewrite app_assoc.
    replace (S (length body)) with (length (body ++ ["]"%char]))
      by (rewrite length_app; simpl; lia).
    by rewrite take_app_length. }
  assert (∀ {T} (parse : list ascii → result (T * nat)) (x y : T),
    parse ("["%char :: body ++ ["]"%char]) = Ok (x, S (length body)) →
    parse ["]"%char] = Ok (y, 0) →
    parse_array parse ("["%char :: "["%char :: body ++ "]"%char :: "]"%char :: rest)
    = Err Diverges) as Hloop.
  { intros T parse x y H1 H2. unfold parse_array. cbn [char_at nth]. eval_char_tests.
    cbn [negb]. cbn match. rewrite find_closing_bracket_nested, bind_Ok by done.
    rewrite Hcontent. cbn [length parse_elements is_empty].
    rewrite H1, bind_Ok. cbn match.
    assert (skip_comma ("["%char :: body ++ ["]"%char]) (S (length body)) = S (length body)) as ->.
    { unfold skip_comma. cbn [length]. rewrite length_app. cbn [length].
      rewrite (proj2 (Nat.ltb_lt _ _)) by lia. cbn [andb].
      change ("["%char :: body ++ ["]"%char]) with (("["%char :: body) ++ ["]"%char]).
      replace (S (length body)) with (length ("["%char :: body)) by done.
      rewrite char_at_app_r. by cbn. }
    cbn [Nat.eqb]. cbn match.
    change ("["%char :: body ++ ["]"%char]) with (("["%char :: body) ++ ["]"%char]).
    replace (S (length body)) with (length ("["%char :: body)) by done.
    rewrite drop_app_length. rewrite length_app. cbn [length].
    replace (length body + 1) with (S (length body)) by lia.
    cbn [parse_elements is_empty]. rewrite H2, bind_Ok. by cbn. }
  destruct (Hfrom "["%char (body ++ ["]"%char]) eq_refl) as [Hf1 Hd1].
  destruct (Hfrom "]"%char [] eq_refl) as [Hf2 Hd2].
  unfold parse_value. cbn [is_empty char_at nth]. eval_char_tests. cbn match. split.
  - rewrite (Hloop _ parse_number_float (strtof (substr ("["%char :: body ++ ["]"%char]) 0 (S (length body))))
      (strtof (substr ["]"%char] 0 0))); [done| |].
    + unfold parse_number_float. by rewrite Hf1, Hend.
    + unfold parse_number_float. by rewrite Hf2.
  - rewrite (Hloop _ parse_number_double (strtod (substr ("["%char :: body ++ ["]"%char]) 0 (S (length body))))
      (strtod (substr ["]"%char] 0 0))); [done| |].
    + unfold parse_number_double. by rewrite Hd1, Hend.
    + unfold parse_number_double. by rewrite Hd2.
Qed.

End LineProps.

Section RecordProps.
Context `{FloatLib}.

Lemma serialize_entry_after k v :
  serialize_entry (k, after_serialize v) = serialize_entry (k, v).
Proof.
  unfold serialize_entry. cbn [fst snd].
  by rewrite after_serialize_tag, serialize_value_after.
Qed.

Lemma serialize_entries_after first l :
  serialize_entries first (prod_map id after_serialize <$> l) = serialize_entries first l.
Proof.
  revert first. induction l as [|[k v] l IH]; intros first; [done|].
  rewrite fmap_cons. cbn [serialize_entries prod_map fst snd id].
  by rewrite serialize_entry_after, IH.
Qed.

Lemma after_serialize_idem v : after_serialize (after_serialize v) = after_serialize v.
Proof. unfold after_serialize at 1. by rewrite serialize_value_after. Qed.

(** X12: serializing a record a second time writes the same line and
    changes nothing more: the first call has packed every blob, and a packed
    blob is written as it is. *)
Theorem serialize_to_string_again (m : FonCollection) :
  serialize_to_string (serialize_to_string m).2
  = ((serialize_to_string m).1, (serialize_to_string m).2).
Proof.
  unfold serialize_to_string. cbn [fst snd]. unfold FonCollection in *. f_equal.
  - rewrite map_to_list_fmap. apply serialize_entries_after.
  - rewrite <- map_fmap_compose. apply map_fmap_ext. intros k v _.
    apply after_serialize_idem.
Qed.

(** X13: a record whose keys hold no line break is written on one line,
    provided the literals of its floats and the texts of its blobs hold
    none: strings are escaped, and integers, booleans, tags and punctuation
    are never line breaks. *)
Theorem record_is_one_line (m : FonCollection) :
  map_Forall (λ k v, one_line k ∧ value_one_line v) m →
  one_line (serialize_to_string m).1.
Proof. apply serialize_to_string_one_line. Qed.

(** X14: an entry whose value fails to parse fails the whole line with the
    error of the value, after any run of well-formed entries: nothing of what
    was read before it is returned. *)
Theorem failing_value_fails_line (l : list (list ascii * FonValue))
    (k : list ascii) (t : ascii) (text : list ascii) (e : error) :
  Forall entry_ok l → key_ok k →
  parse_value false text t = Err e →
  deserialize_line false (line_with_tail l (k ++ "="%char :: t :: ":"%char :: text)) = Err e.
Proof.
  intros Hl [Hk Hcomma] He.
  destruct (deserialize_line_with_tail l (k ++ "="%char :: t :: ":"%char :: text) Hl)
    as (fuel & rem' & Hrem & ->).
  destruct Hrem as [->|Hrem].
  2:{ destruct k as [|c k]; [done|]. injection Hrem as -> _.
      unfold char_at in Hcomma. by simpl in Hcomma. }
  cbn [deserialize_entries].
  destruct (is_empty _) eqn:E; [apply is_empty_true in E; by destruct k|]. clear E.
  rewrite find_char_app by done.
  replace (length k + 1) with (S (length k)) by lia. rewrite drop_app_length_S.
  cbn [length Nat.leb orb char_at nth drop]. eval_char_tests. cbn [negb]. cbn match.
  by rewrite !drop_0, He.
Qed.

(** X15: entries are added in the order of the line, a later entry
    replacing an earlier one of the same key: the line of [l] followed by
    one more entry reads as the record of [l] with that entry put in. *)
Theorem duplicate_key_last_wins (l : list (list ascii * FonValue))
    (k : list ascii) (v : FonValue) :
  Forall entry_ok l → key_ok k → wf_value v →
  ∃ c, deserialize_line false (serialize_entries true l) = Ok c ∧
       deserialize_line false (serialize_entries true (l ++ [(k, v)]))
       = Ok (collection_add k (after_serialize v) c).
Proof.
  intros Hl Hk Hv. exists (foldl add_entry ∅ l).
  split; [by apply deserialize_line_entries|].
  rewrite deserialize_line_entries.
  - by rewrite foldl_app.
  - apply Forall_app. split; [done|]. by apply Forall_cons_2.
Qed.

End RecordProps.

Lemma record_is_one_line_witness :
  map_Forall (λ k v, one_line k ∧ value_one_line v)
    (<[str "note" := VString [char_n; "a"%char]]> (∅ : FonCollection)) ∧
  one_line (serialize_to_string (<[str "note" := VString [char_n; "a"%char]]> ∅)).1.
Proof.
  assert (map_Forall (λ k v, one_line k ∧ value_one_line v)
            (<[str "note" := VString [char_n; "a"%char]]> (∅ : FonCollection))) as Hm.
  { unfold FonCollection. apply map_Forall_insert_2; [|apply map_Forall_empty].
    split; [|done]. repeat (apply Forall_cons_2; [reflexivity|]). apply Forall_nil_2. }
  split; [exact Hm|]. exact (record_is_one_line _ Hm).
Defined.

Lemma failing_value_fails_line_witness :
  Forall entry_ok sample_entries ∧ key_ok (str "n") ∧
  parse_value false (str "256") "e" = Err FailedToParseNumber ∧
  deserialize_line false (line_with_tail sample_entries (str "n=e:256"))
  = Err FailedToParseNumber.
Proof.
  assert (key_ok (str "n")) as Hk by done.
  assert (parse_value false (str "256") "e" = Err FailedToParseNumber) as He by reflexivity.
  split; [exact sample_entries_ok|]. split; [exact Hk|]. split; [exact He|].
  exact (failing_value_fails_line sample_entries (str "n") "e" (str "256") _
           sample_entries_ok Hk He).
Defined.

Lemma duplicate_key_last_wins_witness :
  Forall entry_ok [(str "a", VInt 1)] ∧ key_ok (str "a") ∧ wf_value (VInt 2) ∧
  ∃ c, deserialize_line false (serialize_entries true [(str "a", VInt 1)]) = Ok c ∧
       deserialize_line false (serialize_entries true ([(str "a", VInt 1)] ++ [(str "a", VInt 2)]))
       = Ok (collection_add (str "a") (after_serialize (VInt 2)) c).
Proof.
  assert (wf_value (VInt 1)) as Hv1 by (cbn; unfold in_range; simpl; lia).
  assert (wf_value (VInt 2)) as Hv2 by (cbn; unfold in_range; simpl; lia).
  assert (key_ok (str "a")) as Hk by done.
  assert (Forall entry_ok [(str "a", VInt 1)]) as Hl
    by (apply Forall_cons_2; [by split|apply Forall_nil_2]).
  split; [exact Hl|]. split; [exact Hk|]. split; [exact Hv2|].
  exact (duplicate_key_last_wins _ _ _ Hl Hk Hv2).
Defined.

Lemma nested_float_array_never_ends_witness :
  Forall (λ c, is_plain c = true) (str "1") ∧
  (∀ c text, (c =? "[")%char || (c =? "]")%char = true →
     from_chars_float (c :: text) = None ∧ from_chars_double (c :: text) = None) ∧
  parse_value false (str "[[1]]") TYPE_FLOAT = Err Diverges ∧
  deserialize_line false (str "m=f:[[1]]") = Err Diverges.
Proof.
  assert (Forall (λ c, is_plain c = true) (str "1")) as Hb
    by (apply Forall_cons_2; [reflexivity|apply Forall_nil_2]).
  assert (∀ c text, (c =? "[")%char || (c =? "]")%char = true →
     from_chars_float (c :: text) = None ∧ from_chars_double (c :: text) = None) as Hfrom.
  { intros c text Hc. apply orb_true_iff in Hc as [Hc|Hc];
      apply Ascii.eqb_eq in Hc; subst c; by split. }
  split; [exact Hb|]. split; [exact Hfrom|].
  split; [exact (proj1 (nested_float_array_never_ends false _ [] Hb Hfrom))|reflexivity].
Defined.

(** ** Text values without a closing quote, and blobs unpacked on reading *)

Lemma scan_no_quote prev body :
  Forall (λ c, c ≠ dquote) body → scan_end_quote prev body = length body.
Proof.
  intros Hb. revert prev. induction Hb as [|c body Hc _ IH]; intros prev; [done|].
  simpl. destruct (Ascii.eqb_spec c dquote) as [->|_]; [done|]. simpl. by rewrite IH.
Qed.

(** X16: a text value whose closing quote is missing is not refused: the scan
    runs off the end of the data, everything after the opening quote becomes
    the content, and the count of consumed characters is one more than the
    length of the data. *)
Theorem unterminated_string_runs_to_end (body : list ascii) :
  Forall (λ c, c ≠ dquote) body →
  parse_string (dquote :: body) = Ok (unescape body, length (dquote :: body) + 1).
Proof.
  intros Hb. rewrite parse_string_unfold by done.
  cbn [drop]. rewrite drop_0, scan_no_quote by done.
  cbn zeta. unfold substr. cbn [drop]. rewrite drop_0, Nat.sub_succ, Nat.sub_0_r, firstn_all.
  do 2 f_equal. unfold skip_comma.
  replace (S (length body) + 1 <? length (dquote :: body)) with false; [simpl; lia|].
  symmetry. apply Nat.ltb_ge. simpl. lia.
Qed.

Lemma unterminated_string_runs_to_end_witness :
  Forall (λ c, c ≠ dquote) (str "abc,x=i:1") ∧
  parse_string (dquote :: str "abc,x=i:1") = Ok (str "abc,x=i:1", 11) ∧
  deserialize_line false (str "k=s:" ++ dquote :: str "abc,x=i:1")
  = Ok (collection_add (str "k") (VString (str "abc,x=i:1")) ∅).
Proof.
  assert (Forall (λ c, c ≠ dquote) (str "abc,x=i:1")) as Hb by (repeat constructor; done).
  split; [exact Hb|]. split; [|reflexivity].
  exact (unterminated_string_runs_to_end (str "abc,x=i:1") Hb).
Defined.

Section UnpackOnRead.
Context `{FloatLib}.
Import Raw RawFacts RawRoundTrip.

Lemma serialize_raw_bytes d :
  (serialize_value (VRaw (Some (RawData_of_data d)))).1
  = [dquote] ++ encoded_ (pack (RawData_of_data d)) ++ [dquote].
Proof. done. Qed.

(** X17: with the unpacking switch on, a blob written from bytes is read back
    as those bytes, whatever follows it on the line, provided the bytes are
    not a positive multiple of four whose last four, as a big-endian number,
    leave the remainder 1, 2 or 3 modulo 85. *)
Theorem raw_blob_read_back_unpacked (d : list Z) (rest : list ascii) :
  Forall is_byte d → (Z.of_nat (length d) ≤ vector_max_size)%Z →
  ¬ (d ≠ [] ∧ (length d `mod` 4 = 0)%nat ∧ (1 ≤ word d (length d - 4) `mod` 85 ≤ 3)%Z) →
  let text := (serialize_value (VRaw (Some (RawData_of_data d)))).1 in
  parse_value true (text ++ rest) TYPE_RAW
  = Ok (VRaw (Some (RawData_of_data d)),
        length text + (if (char_at rest 0 =? ",")%char then 1 else 0)).
Proof.
  intros Hd Hmax Hnot text.
  pose proof (RawCodec.unpack_pack_bytes d Hd Hmax Hnot) as Hback.
  assert (Forall (λ c, is_quote_safe c = true) (encoded_ (pack (RawData_of_data d))))
    as Hsafe by (by apply pack_quote_safe).
  subst text. rewrite serialize_raw_bytes.
  set (enc := encoded_ (pack (RawData_of_data d))) in *.
  assert (unpack (RawData_of_encoded enc) = Ok (RawData_of_data d)) as Hun.
  { destruct d as [|b d].
    - reflexivity.
    - rewrite <- Hback. subst enc. by rewrite RawCodec.pack_of_data. }
  unfold parse_value.
  assert (is_empty (([dquote] ++ enc ++ [dquote]) ++ rest) = false) as -> by done.
  assert (char_at (([dquote] ++ enc ++ [dquote]) ++ rest) 0 = dquote) as -> by done.
  unfold TYPE_RAW, TYPE_STRING. eval_char_tests. cbn match.
  rewrite <- !app_assoc.
  rewrite parse_string_quoted by (by apply scan_quote_safe).
  rewrite unescape_no_backslash by (by apply find_backslash_safe).
  rewrite bind_Ok. cbn match. rewrite Hun, bind_Ok.
  do 2 f_equal. rewrite !app_assoc, <- (app_assoc [dquote] enc [dquote]).
  apply skip_comma_app.
Qed.

End UnpackOnRead.

Lemma raw_blob_read_back_unpacked_witness :
  let d := [72; 101; 108; 108; 111]%Z in
  Forall RawRoundTrip.is_byte d ∧
  parse_value true ((serialize_value (VRaw (Some (Raw.RawData_of_data d)))).1 ++ str ",n=i:1")
    TYPE_RAW
  = Ok (VRaw (Some (Raw.RawData_of_data d)), 14).
Proof.
  assert (Forall RawRoundTrip.is_byte [72; 101; 108; 108; 111]%Z) as Hd
    by (repeat constructor; unfold RawRoundTrip.is_byte; lia).
  split; [exact Hd|].
  refine (raw_blob_read_back_unpacked [72; 101; 108; 108; 111]%Z (str ",n=i:1") Hd _ _).
  - vm_compute. discriminate.
  - intros (_ & Hr & _). vm_compute in Hr. discriminate.
Defined.

(** ** More on files *)

(** *** The order of the lines *)

Section SortFacts.
Context {A : Type}.

Definition id_le (a b : N * A) : Prop := (a.1 ≤ b.1)%N.

Lemma id_less_le a b : id_less a b → id_le a b.
Proof. unfold id_less, id_le. lia. Qed.

Lemma not_id_less_le a b : ¬ id_less a b → id_le b a.
Proof. unfold id_less, id_le. lia. Qed.

Lemma HdRel_merge x (l1 l2 : list (N * A)) :
  HdRel id_le x l1 → HdRel id_le x l2 → HdRel id_le x (list_merge id_less l1 l2).
Proof.
  intros H1 H2. destruct H1 as [|x1 l1 Hx1]; [by rewrite list_merge_nil_l|].
  destruct H2 as [|x2 l2 Hx2]; [by constructor|].
  rewrite list_merge_cons. destruct (decide (id_less x1 x2)); by constructor.
Qed.

Lemma Sorted_merge (l1 l2 : list (N * A)) :
  Sorted id_le l1 → Sorted id_le l2 → Sorted id_le (list_merge id_less l1 l2).
Proof.
  intros H1. revert l2. induction H1 as [|x1 l1 Hl1 IH1 Hhd1]; intros l2 H2.
  - by rewrite list_merge_nil_l.
  - induction H2 as [|x2 l2 Hl2 IH2 Hhd2]; [by constructor|].
    rewrite list_merge_cons. destruct (decide (id_less x1 x2)) as [Hlt|Hge].
    + constructor; [apply IH1; by constructor|].
      apply HdRel_merge; [done|]. constructor. by apply id_less_le.
    + constructor; [done|].
      apply HdRel_merge; [|done]. constructor. by apply not_id_less_le.
Qed.

(** Every run on the stack of the sort is in order. *)
Definition runs_sorted (st : list (option (list (N * A)))) : Prop :=
  Forall (λ o, match o with Some l => Sorted id_le l | None => True end) st.

Lemma runs_sorted_push st l :
  runs_sorted st → Sorted id_le l → runs_sorted (merge_list_to_stack id_less st l).
Proof.
  unfold runs_sorted. intros Hst. revert l.
  induction Hst as [|[l'|] st Hl' Hst IH]; intros l Hl; cbn [merge_list_to_stack].
  - apply Forall_cons_2; [done|constructor].
  - apply Forall_cons_2; [done|]. apply IH. by apply Sorted_merge.
  - by apply Forall_cons_2.
Qed.

Lemma runs_sorted_merge st : runs_sorted st → Sorted id_le (merge_stack id_less st).
Proof.
  unfold runs_sorted. induction 1 as [|[l|] st Hl _ IH]; cbn [merge_stack];
    [constructor| |done].
  by apply Sorted_merge.
Qed.

Lemma Sorted_merge_sort_ids (l : list (N * A)) :
  Sorted id_le (merge_sort id_less l).
Proof.
  unfold merge_sort.
  assert (∀ st, runs_sorted st → Sorted id_le (merge_sort_aux id_less st l)) as Hgen.
  { induction l as [|x l IH]; intros st Hst; cbn [merge_sort_aux].
    - by apply runs_sorted_merge.
    - apply IH, runs_sorted_push; [done|]. repeat constructor. }
  apply Hgen. unfold runs_sorted. constructor.
Qed.

Global Instance id_le_trans : Transitive id_le.
Proof. intros a b c. unfold id_le. lia. Qed.

(** The sorted entries are the entries of the dump, each once, by
    strictly increasing id. *)
Lemma sorted_entries_spec (dump : gmap N A) :
  sorted_entries dump ≡ₚ map_to_list dump ∧
  StronglySorted id_less (sorted_entries dump).
Proof.
  unfold sorted_entries. split; [apply merge_sort_Permutation|].
  assert (NoDup (merge_sort id_less (map_to_list dump)).*1) as Hnd.
  { rewrite merge_sort_Permutation. apply NoDup_fst_map_to_list. }
  pose proof (Sorted_StronglySorted _ _ (Sorted_merge_sort_ids (map_to_list dump))) as Hs.
  revert Hnd. induction Hs as [|a l Hl IH Ha]; intros Hnd; [constructor|].
  rewrite fmap_cons in Hnd. apply NoDup_cons in Hnd as [Hnin Hnd].
  constructor; [by apply IH|].
  apply Forall_forall. intros b Hb.
  pose proof (proj1 (Forall_forall _ _) Ha b Hb) as Hle.
  assert (a.1 ≠ b.1) as Hne.
  { intros E. apply Hnin. rewrite E. by apply list_elem_of_fmap_2. }
  unfold id_less, id_le in *. lia.
Qed.

Lemma sorted_entries_lookup (dump : gmap N A) i e :
  sorted_entries dump !! i = Some e → dump !! e.1 = Some e.2.
Proof.
  intros Hi. apply list_elem_of_lookup_2 in Hi.
  rewrite (proj1 (sorted_entries_spec dump)) in Hi. destruct e as [id c].
  by apply elem_of_map_to_list in Hi.
Qed.

Lemma sorted_entries_length (dump : gmap N A) : length (sorted_entries dump) = size dump.
Proof.
  rewrite (proj1 (sorted_entries_spec dump)).
  by rewrite length_map_to_list.
Qed.

(** A strictly increasing run of ids within [k, k + length) counts up from
    [k]. *)
Lemma ascending_dense (l : list (N * A)) (k : N) :
  StronglySorted id_less l →
  Forall (λ e, (k ≤ e.1 < k + N.of_nat (length l))%N) l →
  ∀ i e, l !! i = Some e → e.1 = (k + N.of_nat i)%N.
Proof.
  intros Hs. revert k. induction Hs as [|a l Hl IH Ha]; intros k Hin i e Hi; [done|].
  apply Forall_cons in Hin as [Hak Hin]. cbn [length] in *.
  assert (Forall (λ e, (k + 1 ≤ e.1 < k + 1 + N.of_nat (length l))%N) l) as Hin'.
  { apply Forall_forall. intros b Hb.
    pose proof (proj1 (Forall_forall _ _) Ha b Hb) as Hab.
    pose proof (proj1 (Forall_forall _ _) Hin b Hb) as Hb'.
    unfold id_less in Hab. cbv beta in *. lia. }
  destruct i as [|i].
  - injection Hi as <-. destruct l as [|b l]; [cbn [length] in Hak; lia|].
    pose proof (IH (k + 1)%N Hin' 0 b eq_refl) as Hb.
    apply Forall_cons in Ha as [Hab _]. unfold id_less in Hab. cbv beta in *. lia.
  - rewrite (IH (k + 1)%N Hin' i e Hi). lia.
Qed.

End SortFacts.

(** *** Lines in a file *)

Lemma split_lines_from_line cur line rest :
  one_line line →
  split_lines_from cur (line ++ char_n :: rest)
  = (if is_empty (cur ++ line) then [] else [cur ++ line]) ++ split_lines_from [] rest ∧
  split_lines_from cur (line ++ char_r :: char_n :: rest)
  = (if is_empty (cur ++ line) then [] else [cur ++ line]) ++ split_lines_from [] rest.
Proof.
  intros Hline. revert cur. induction Hline as [|c line Hc _ IH]; intros cur.
  - rewrite app_nil_r. by cbn.
  - cbn [app split_lines_from]. unfold line_break in Hc. rewrite Hc.
    replace (cur ++ c :: line) with ((cur ++ [c]) ++ line) by (by rewrite <- app_assoc).
    apply IH.
Qed.

Lemma split_write_lines lines :
  Forall (λ line, line ≠ [] ∧ one_line line) lines →
  split_lines (write_lines lines) = lines ∧
  split_lines (concat ((λ line, line ++ [char_r; char_n]) <$> lines)) = lines.
Proof.
  unfold split_lines, write_lines.
  induction 1 as [|line lines [Hne Hline] _ [IH1 IH2]]; [done|].
  rewrite !fmap_cons. cbn [concat]. rewrite <- !app_assoc. cbn [app].
  destruct (split_lines_from_line [] line (concat ((λ l, l ++ [char_n]) <$> lines)) Hline)
    as [-> _].
  destruct (split_lines_from_line [] line
              (concat ((λ l, l ++ [char_r; char_n]) <$> lines)) Hline) as [_ ->].
  cbn [app]. destruct line; [done|]. cbn [is_empty app]. by rewrite IH1, IH2.
Qed.

Lemma current_line_ok cur :
  one_line cur →
  Forall (λ line, line ≠ [] ∧ one_line line) (if is_empty cur then [] else [cur]).
Proof.
  intros Hcur. destruct cur as [|c cur]; cbn [is_empty]; [constructor|].
  apply Forall_cons_2; [by split|constructor].
Qed.

Lemma split_lines_from_one_line n cur content :
  length content ≤ n → one_line cur →
  Forall (λ line, line ≠ [] ∧ one_line line) (split_lines_from cur content).
Proof.
  revert cur content. induction n as [|n IH]; intros cur content Hn Hcur.
  - destruct content; [|simpl in Hn; lia]. by apply current_line_ok.
  - destruct content as [|c rest]; [by apply current_line_ok|].
    cbn [split_lines_from]. fold (line_break c). destruct (line_break c) eqn:E.
    + apply Forall_app. split; [by apply current_line_ok|].
      apply IH; [|constructor].
      pose proof (after_terminator_length c rest). simpl in Hn. lia.
    + apply IH; [simpl in Hn; lia|]. apply Forall_app. split; [done|].
      by apply Forall_cons_2; [|constructor].
Qed.

(** Every line the splitter hands to the parser is non-empty and holds
    no line break. *)
Theorem split_lines_invariant (content : list ascii) :
  Forall (λ line, line ≠ [] ∧ one_line line) (split_lines content).
Proof. apply (split_lines_from_one_line (length content)); [done|constructor]. Qed.

(** X18: the splitter undoes the writing loop: lines that are non-empty and
    hold no line break, written each with a newline after it, are split back
    into the same lines, and so are the same lines written with a carriage
    return and a newline. *)
Theorem split_lines_write_lines (lines : list (list ascii)) :
  Forall (λ line, line ≠ [] ∧ one_line line) lines →
  split_lines (write_lines lines) = lines ∧
  split_lines (concat ((λ line, line ++ [char_r; char_n]) <$> lines)) = lines.
Proof. apply split_write_lines. Qed.

Lemma split_lines_write_lines_witness :
  Forall (λ line, line ≠ [] ∧ one_line line) [str "a=i:1"; str "b=i:2"] ∧
  split_lines (write_lines [str "a=i:1"; str "b=i:2"]) = [str "a=i:1"; str "b=i:2"].
Proof.
  assert (Forall (λ line, line ≠ [] ∧ one_line line) [str "a=i:1"; str "b=i:2"]) as Hl.
  { repeat (apply Forall_cons_2;
      [split; [done|repeat (apply Forall_cons_2; [reflexivity|]); apply Forall_nil_2]|]).
    apply Forall_nil_2. }
  split; [exact Hl|]. exact (proj1 (split_lines_write_lines _ Hl)).
Defined.

(** *** The ranges of the tasks *)

Lemma launch_shape threads t chunk_size total :
  0 < chunk_size →
  length (launch threads t chunk_size total) ≤ threads ∧
  Forall (λ w, next w < stop w ∧ stop w ≤ total ∧ stop w - next w ≤ chunk_size ∧
               thrown w = None)
         (launch threads t chunk_size total).
Proof.
  intros Hc. revert t. induction threads as [|threads IH]; intros t.
  - split; [done|constructor].
  - cbn [launch]. destruct (Nat.leb_spec total (t * chunk_size)) as [Hle|Hlt].
    + split; [simpl; lia|constructor].
    + destruct (IH (S t)) as [Hlen Hall]. split; [simpl; lia|].
      constructor; [|done]. cbn [next stop thrown]. split_and!; [lia..|done].
Qed.

(** X19: the ranges handed to the tasks tile the buffer: put one after the
    other in launch order they are the indices from 0 to the size, each once;
    no range is empty or longer than the chunk size, and there are no more
    tasks than threads. *)
Theorem ranges_tile_the_buffer (total threads : nat) :
  0 < threads →
  concat (task_indices <$> launched_tasks total threads) = seq 0 total ∧
  length (launched_tasks total threads) ≤ threads ∧
  Forall (λ w, next w < stop w ∧ stop w ≤ total ∧
               stop w - next w ≤ (total + threads - 1) `div` threads ∧ thrown w = None)
         (launched_tasks total threads).
Proof.
  intros Hpos. unfold launched_tasks. split.
  - rewrite launch_indices by (simpl; by apply chunks_cover). simpl. by rewrite Nat.sub_0_r.
  - destruct (decide (total = 0)) as [->|Hne].
    + destruct threads; [lia|]. cbn [launch]. simpl. split; [lia|constructor].
    + apply launch_shape.
      pose proof (chunks_cover total threads Hpos).
      destruct ((total + threads - 1) `div` threads); lia.
Qed.

Lemma ranges_tile_the_buffer_witness :
  0 < 3 ∧
  launched_tasks 10 3 = [mkTask 0 4 None; mkTask 4 8 None; mkTask 8 10 None] ∧
  concat (task_indices <$> launched_tasks 10 3) = seq 0 10.
Proof.
  assert (0 < 3) as Hpos by lia.
  split; [exact Hpos|]. split; [reflexivity|].
  exact (proj1 (ranges_tile_the_buffer 10 3 Hpos)).
Defined.

(** *** Loading *)

Section LoadFacts.
Context `{FloatLib}.
Variable deserialize_raw_unpack : bool.
Variable hardware_concurrency : nat.

(** The lines parsed one after the other by a single thread, up to the
    first one that fails. *)
Fixpoint parse_lines (lines : list (list ascii)) : result (list FonCollection) :=
  match lines with
  | [] => Ok []
  | line :: lines' =>
      c ← deserialize_line deserialize_raw_unpack line;
      cs ← parse_lines lines';
      Ok (c :: cs)
  end.

Lemma first_error_parse_lines pre lines :
  Forall (λ line, is_empty line = false) lines →
  first_error (parse_slot deserialize_raw_unpack (pre ++ lines))
    (seq (length pre) (length lines))
  = match parse_lines lines with Err e => Some e | Ok _ => None end.
Proof.
  intros Hne. revert pre. induction Hne as [|line lines Hline _ IH]; intros pre; [done|].
  cbn [length seq first_error parse_lines]. unfold parse_slot at 1.
  rewrite list_lookup_middle by done. rewrite Hline.
  destruct (deserialize_line deserialize_raw_unpack line) as [c|e]; [|done].
  cbn [fmap result_fmap]. rewrite bind_Ok.
  replace (pre ++ line :: lines) with ((pre ++ [line]) ++ lines) by (by rewrite <- app_assoc).
  replace (S (length pre)) with (length (pre ++ [line])) by (rewrite length_app; simpl; lia).
  rewrite IH. by destruct (parse_lines lines).
Qed.

Lemma parse_lines_Forall2 lines cs :
  Forall2 (λ line c, deserialize_line deserialize_raw_unpack line = Ok c) lines cs →
  parse_lines lines = Ok cs.
Proof.
  induction 1 as [|line c lines cs Hc _ IH]; [done|].
  cbn [parse_lines]. by rewrite Hc, bind_Ok, IH.
Qed.

Lemma load_sequential content max_threads schedule r :
  0 < resolve_threads hardware_concurrency max_threads →
  deserialize_from_file deserialize_raw_unpack hardware_concurrency
    content max_threads schedule = Some r →
  r = (cs ← parse_lines (split_lines content); Ok (build_dump cs)).
Proof.
  intros Hpos. unfold deserialize_from_file, deserialize_from_file_parallel.
  rewrite (proj2 (Nat.eqb_neq _ 0)) by lia.
  destruct (fan_out _ _ _ _ _) as [cs|] eqn:Hf; [|done]. simpl. intros [= <-].
  destruct (fan_out_spec _ _ _ _ _ _ Hpos Hf) as (_ & _ & ->).
  unfold one_by_one.
  assert (Forall (λ line, is_empty line = false) (split_lines content)) as Hne.
  { apply Forall_forall. intros line [i Hi]%list_elem_of_lookup.
    by eapply split_lines_nonempty. }
  pose proof (first_error_parse_lines [] (split_lines content) Hne) as Hfirst.
  cbn [app length] in Hfirst. rewrite Hfirst.
  destruct (parse_lines (split_lines content)) as [cs|e] eqn:Hp; [|done].
  pose proof (parse_slot_filled deserialize_raw_unpack _ Hne) as Hall.
  rewrite Hfirst in Hall. specialize (Hall eq_refl).
  apply parse_lines_Forall2 in Hall. rewrite Hp in Hall. by injection Hall as ->.
Qed.

(** X20: a load that comes to its end answers as a single thread that
    parses the non-empty lines of the file one after the other would:
    whatever the number of threads and the interleaving of the workers, the
    dump is built from the same collections, and a failure is the one of the
    first line, in file order, that fails to parse. *)
Theorem load_is_sequential (content : list ascii) (max_threads : Z)
    (schedule : list nat) (r : result FonDump) :
  0 < resolve_threads hardware_concurrency max_threads →
  deserialize_from_file deserialize_raw_unpack hardware_concurrency
    content max_threads schedule = Some r →
  r = (cs ← parse_lines (split_lines content); Ok (build_dump cs)).
Proof. apply load_sequential. Qed.

End LoadFacts.

Lemma load_is_sequential_witness :
  0 < resolve_threads 4 2 ∧
  deserialize_from_file false 4 gapped_file 2 [1; 0; 0] = Some (Ok gapped_dump) ∧
  Ok gapped_dump = (cs ← parse_lines false (split_lines gapped_file); Ok (build_dump cs)).
Proof.
  assert (0 < resolve_threads 4 2) as Hpos by (unfold resolve_threads; simpl; lia).
  assert (deserialize_from_file false 4 gapped_file 2 [1; 0; 0] = Some (Ok gapped_dump)) as Hd
    by reflexivity.
  split; [exact Hpos|]. split; [exact Hd|].
  exact (load_is_sequential false 4 gapped_file 2 [1; 0; 0] _ Hpos Hd).
Defined.

(** ** Saving with shared blobs *)

(** *** The steps of [pack] *)

Module PackStepsFacts.
Import Raw RawFacts RawRoundTrip PackSteps.

(** A call that has passed the guard and not yet returned. *)
Definition in_pack (pc : pack_pc) : bool :=
  match pc with
  | AtGuard | Returned => false
  | _ => true
  end.

(** The object a call has made of [r0], which it found at the guard, when
    it stands at [pc] and nothing else has touched the object. *)
Definition mid (r0 : RawData) (pc : pack_pc) : RawData :=
  let d := data_ r0 in
  let fresh := replicate (output_len_of (length d)) zero in
  match pc with
  | AtGuard | AtSize | AtResize _ => r0
  | AtBlock _ i => mkRawData d (pack_full_blocks d i fresh)
  | AtTail _ => mkRawData d (pack_full_blocks d (length d `div` 4) fresh)
  | AtClear => mkRawData d (encoded_ (pack r0))
  | Returned => pack r0
  end.

(** The locals of such a call. *)
Definition valid (r0 : RawData) (pc : pack_pc) : Prop :=
  let n := length (data_ r0) in
  match pc with
  | AtResize m => m = n
  | AtBlock m i => m = n ∧ i < n `div` 4
  | AtTail m => m = n ∧ 0 < n `mod` 4
  | _ => True
  end.

Lemma pack_step_guard r :
  pack_step AtGuard r = if pack_skips r then (Returned, r) else (AtSize, r).
Proof. done. Qed.

Lemma pack_skips_pack r : pack_skips (pack r) = true.
Proof.
  destruct (pack_skips r) eqn:G; [by rewrite pack_skip|].
  destruct (pack_work r G) as [Hd _]. unfold pack_skips. rewrite Hd. apply orb_true_r.
Qed.

Lemma pack_unfold r :
  pack_skips r = false →
  pack r =
  let d := data_ r in
  let n := length d in
  let enc := pack_full_blocks d (n `div` 4) (replicate (output_len_of n) zero) in
  mkRawData []
    (if 0 <? n `mod` 4 then
       <[5 * (n `div` 4) + 5 := chr (code "0" + Z.of_nat (padding_of n))]>
         (put_group enc (5 * (n `div` 4)) (tail_word d (n `div` 4 * 4) (n `mod` 4)))
     else enc).
Proof.
  intros G. unfold pack. unfold pack_skips in G. rewrite G. reflexivity.
Qed.

Lemma resize_nil n : resize [] n = replicate n zero.
Proof. unfold resize. rewrite take_nil. simpl. by rewrite Nat.sub_0_r. Qed.

(** Undisturbed, a call moves from one state of [mid] to the next. *)
Lemma pack_step_mid r0 pc :
  pack_skips r0 = false → in_pack pc = true → valid r0 pc →
  ∃ pc', pack_step pc (mid r0 pc) = (pc', mid r0 pc') ∧ valid r0 pc' ∧ pc' ≠ AtGuard.
Proof.
  intros G Hin Hv.
  assert (encoded_ r0 = []) as He.
  { apply orb_false_iff in G as [Ge _]. by apply negb_false_iff, is_empty_true in Ge. }
  assert (0 < length (data_ r0)) as Hpos.
  { apply orb_false_iff in G as [_ Gd]. apply is_empty_false in Gd.
    destruct (data_ r0); [done|simpl; lia]. }
  pose proof (pack_unfold r0 G) as Hp. cbv zeta in Hp.
  assert (∀ i, i ≤ (length (data_ r0)) `div` 4 → i = (length (data_ r0)) `div` 4 ∨ i < (length (data_ r0)) `div` 4) as Hcase by lia.
  assert (∀ i, i = (length (data_ r0)) `div` 4 →
            ∃ pc', after_blocks (length (data_ r0)) = pc' ∧ valid r0 pc' ∧ pc' ≠ AtGuard ∧
                   mkRawData (data_ r0)
                     (pack_full_blocks (data_ r0) i (replicate (output_len_of (length (data_ r0))) zero))
                   = mid r0 pc') as Hafter.
  { intros i ->. unfold after_blocks. destruct (0 <? (length (data_ r0)) `mod` 4) eqn:Hr.
    - eexists. split; [done|]. apply Nat.ltb_lt in Hr. by split_and!.
    - eexists. split; [done|]. split_and!; [done..|]. cbn [mid]. by rewrite Hp. }
  assert (∀ i, i ≤ (length (data_ r0)) `div` 4 →
            ∃ pc', block_or_after (length (data_ r0)) i = pc' ∧ valid r0 pc' ∧ pc' ≠ AtGuard ∧
                   mkRawData (data_ r0)
                     (pack_full_blocks (data_ r0) i (replicate (output_len_of (length (data_ r0))) zero))
                   = mid r0 pc') as Hblock.
  { intros i Hi. unfold block_or_after. destruct (Nat.ltb_spec i ((length (data_ r0)) `div` 4)) as [Hlt|Hge].
    - eexists. split; [done|]. by split_and!.
    - apply Hafter. lia. }
  destruct pc as [| |m|m i|m| |]; try done; cbn [valid] in Hv.
  - (* size *) exists (AtResize (length (data_ r0))). split; [reflexivity|]. by split_and!.
  - (* resize *) subst m. cbn [pack_step mid]. rewrite He, resize_nil.
    destruct (Hblock 0 ltac:(lia)) as (pc' & -> & ? & ? & Hm).
    exists pc'. split; [|done]. f_equal. exact Hm.
  - (* a block *) destruct Hv as [-> Hi]. cbn [pack_step mid data_ encoded_].
    rewrite <- pack_full_blocks_S.
    destruct (Hblock (S i) ltac:(lia)) as (pc' & -> & ? & ? & Hm).
    exists pc'. split; [|done]. f_equal. exact Hm.
  - (* the partial group *) destruct Hv as [-> Hr]. exists AtClear.
    split; [|done]. cbn [pack_step mid data_ encoded_]. cbv zeta. f_equal.
    rewrite Hp. apply Nat.ltb_lt in Hr. by rewrite Hr.
  - (* clear *) exists Returned. split; [|done]. cbn [pack_step mid data_ encoded_].
    f_equal. rewrite Hp. done.
Qed.

(** A step leaves the bytes as they are or clears them. *)
Lemma pack_step_data pc r :
  data_ (pack_step pc r).2 = data_ r ∨ data_ (pack_step pc r).2 = [].
Proof.
  destruct pc; cbn [pack_step]; try (by left); [|by right].
  destruct (_ || _); by left.
Qed.

End PackStepsFacts.

(** *** Blobs that no two records share *)

Section SaveFacts.
Context `{FloatLib}.
Import Raw RawFacts PackSteps PackStepsFacts.

(** The record holds a pointer to the object at [p]. *)
Definition points_to (c : gmap (list ascii) stored) (p : loc) : Prop :=
  ∃ k, c !! k = Some (Shared p).

(** A record and a dump with the objects their pointers point to. *)
Definition view_collection (h : heap) (c : gmap (list ascii) stored)
    : gmap (list ascii) FonValue :=
  deref h <$> c.

Definition view (h : heap) (dump : gmap N (gmap (list ascii) stored))
    : gmap N (gmap (list ascii) FonValue) :=
  view_collection h <$> dump.

(** No blob that [pack] would change is pointed to from two records. *)
Definition unshared (h : heap) (dump : gmap N (gmap (list ascii) stored)) : Prop :=
  ∀ i j ci cj p,
    dump !! i = Some ci → dump !! j = Some cj → i ≠ j →
    points_to ci p → points_to cj p → pack_skips (h !!! p) = true.

Lemma insert_same_total (h : heap) q p : <[q := h !!! q]> h !!! p = h !!! p.
Proof.
  destruct (decide (q = p)) as [->|Hne];
    [by rewrite lookup_total_insert_eq|by rewrite lookup_total_insert_ne].
Qed.

Section Invariant.
Variable h0 : heap.
Variable entries : list (N * gmap (list ascii) stored).
Variable tasks0 : list task.

(** The setting of a save: the blobs a packing changes belong to one entry
    each, and the tasks were launched over ranges that lie one after the
    other. *)
Definition setting : Prop :=
  (∀ a b ea eb p,
     entries !! a = Some ea → entries !! b = Some eb → a ≠ b →
     points_to ea.2 p → points_to eb.2 p → pack_skips (h0 !!! p) = true) ∧
  Forall (launched entries) tasks0 ∧
  (∀ t t' w w', tasks0 !! t = Some w → tasks0 !! t' = Some w' → t < t' → stop w ≤ next w').

(** The line of a record, as [serialize_to_string] writes it from the
    blobs of the start. *)
Definition line_of (c : gmap (list ascii) stored) : list ascii :=
  (serialize_to_string (view_collection h0 c)).1.

Definition rest_text (todo : list (list ascii * stored)) : list ascii :=
  serialize_entries false (prod_map id (deref h0) <$> todo).

(** The line a worker is writing, once it will be complete. *)
Definition complete (j : job) : list ascii :=
  match j with
  | Storing out => out
  | Packing out p _ todo => out ++ encoded_ (pack (h0 !!! p)) ++ [dquote] ++ rest_text todo
  end.

Definition todo_in (c : gmap (list ascii) stored) (todo : list (list ascii * stored)) : Prop :=
  ∀ k q, (k, Shared q) ∈ todo → points_to c q.

(** A worker in the line of the record [c]: the line will be the one of
    [c]; the blob it is packing is in the state its own steps have brought it
    to, and the blob it has packed is packed. *)
Definition job_inv (h : heap) (c : gmap (list ascii) stored) (j : job) : Prop :=
  complete j = line_of c ∧
  match j with
  | Storing _ => True
  | Packing _ p pc todo =>
      points_to c p ∧ todo_in c todo ∧
      (in_pack pc = true →
       h !!! p = mid (h0 !!! p) pc ∧ valid (h0 !!! p) pc ∧ pack_skips (h0 !!! p) = false) ∧
      (pc = Returned → h !!! p = pack (h0 !!! p))
  end.

Definition worker_inv (h : heap) (ls : list (list ascii)) (w0 : task)
    (wj : task * option job) : Prop :=
  stop wj.1 = stop w0 ∧ next w0 ≤ next wj.1 ∧ next wj.1 ≤ stop wj.1 ∧ thrown wj.1 = None ∧
  (∀ i e, next w0 ≤ i < next wj.1 → entries !! i = Some e → ls !! i = Some (line_of e.2)) ∧
  (∀ j, wj.2 = Some j →
     next wj.1 < stop wj.1 ∧ ∃ e, entries !! next wj.1 = Some e ∧ job_inv h e.2 j).

(** A blob is as it was, or packed, or in the hands of the one worker that
    is packing it. *)
Definition blob_inv (h : heap) (ws : list (task * option job)) (p : loc) : Prop :=
  h !!! p = h0 !!! p ∨ h !!! p = pack (h0 !!! p) ∨
  ∃ t w out pc todo, ws !! t = Some (w, Some (Packing out p pc todo)) ∧ in_pack pc = true.

Definition save_inv (P : save_pool) : Prop :=
  length (line_buffer P) = length entries ∧
  (∀ p, blob_inv (blobs P) (workers P) p) ∧
  Forall2 (worker_inv (blobs P) (line_buffer P)) tasks0 (workers P).

Lemma serialize_entries_cons first k v l :
  serialize_entries first ((k, v) :: l)
  = (if first then [] else [","%char]) ++ k ++ ["="%char] ++ [get_type_char v] ++ [":"%char]
      ++ (serialize_value v).1 ++ serialize_entries false l.
Proof. cbn [serialize_entries]. unfold serialize_entry. cbn [fst snd]. by rewrite <- !app_assoc. Qed.

Lemma advance_complete first out todo :
  complete (advance first out todo) = out ++ serialize_entries first (prod_map id (deref h0) <$> todo).
Proof.
  revert first out. induction todo as [|[k [v|p]] todo IH]; intros first out.
  - cbn. by rewrite app_nil_r.
  - cbn [advance]. rewrite IH. rewrite fmap_cons.
    change (prod_map id (deref h0) (k, Held v)) with (k, v).
    rewrite serialize_entries_cons. by rewrite <- !app_assoc.
  - cbn [advance complete]. rewrite fmap_cons.
    change (prod_map id (deref h0) (k, Shared p)) with (k, VRaw (Some (h0 !!! p))).
    rewrite serialize_entries_cons. cbn [serialize_value get_type_char fst].
    unfold rest_text. by rewrite <- !app_assoc.
Qed.

Lemma advance_inv h c first out todo :
  out ++ serialize_entries first (prod_map id (deref h0) <$> todo) = line_of c →
  todo_in c todo →
  job_inv h c (advance first out todo).
Proof.
  intros Hline Hin. split; [by rewrite advance_complete|].
  clear Hline. revert first out. induction todo as [|[k [v|p]] todo IH]; intros first out.
  - done.
  - cbn [advance]. apply IH. intros k' q Hq. apply (Hin k' q). by right.
  - cbn [advance]. split; [apply (Hin k p); by left|]. split.
    + intros k' q Hq. apply (Hin k' q). by right.
    + by split.
Qed.

Lemma begin_inv h c : job_inv h c (advance true [] (map_to_list c)).
Proof.
  apply advance_inv.
  - unfold line_of, serialize_to_string, view_collection. cbn [fst app].
    f_equal. exact (eq_sym (map_to_list_fmap (M:=gmap (list ascii)) (deref h0) c)).
  - intros k q Hq. exists k. by apply elem_of_map_to_list in Hq.
Qed.

(** The state of a blob matters to a worker only for the blob it is at. *)
Lemma job_inv_frame h h' c j :
  (∀ out p pc todo, j = Packing out p pc todo → h' !!! p = h !!! p) →
  job_inv h c j → job_inv h' c j.
Proof.
  intros Hsame [Hc Hj]. split; [done|]. destruct j as [out p pc todo|out]; [|done].
  rewrite (Hsame out p pc todo eq_refl). done.
Qed.

Lemma worker_inv_frame h h' ls ls' w0 wj :
  (∀ out p pc todo, wj.2 = Some (Packing out p pc todo) → h' !!! p = h !!! p) →
  (∀ i, next w0 ≤ i < next wj.1 → ls' !! i = ls !! i) →
  worker_inv h ls w0 wj → worker_inv h' ls' w0 wj.
Proof.
  intros Hh Hls (? & ? & ? & ? & Hlines & Hjob). unfold worker_inv. split_and!; try done.
  - intros i e Hi He. rewrite Hls by done. by apply Hlines.
  - intros j Hj. destruct (Hjob j Hj) as (? & e & ? & Hinv). split; [done|].
    exists e. split; [done|]. eapply job_inv_frame; [|exact Hinv].
    intros out p pc todo ->. by apply (Hh out p pc todo).
Qed.

(** Two workers are never in the same entry. *)
Lemma workers_apart P t t' wj wj' :
  setting → save_inv P → t ≠ t' →
  workers P !! t = Some wj → workers P !! t' = Some wj' →
  next wj.1 < stop wj.1 → next wj'.1 < stop wj'.1 →
  (∀ i, next wj.1 ≤ i < stop wj.1 → ¬ (next wj'.1 ≤ i < stop wj'.1)) ∧
  ∃ w0 w0', tasks0 !! t = Some w0 ∧ tasks0 !! t' = Some w0' ∧
            (stop w0 ≤ next w0' ∨ stop w0' ≤ next w0).
Proof.
  intros (_ & _ & Hapart) (_ & _ & Hws) Hne Ht Ht' Hlt Hlt'.
  destruct (Forall2_lookup_r _ _ _ _ _ Hws Ht) as (w0 & Ht0 & Hw).
  destruct (Forall2_lookup_r _ _ _ _ _ Hws Ht') as (w0' & Ht0' & Hw').
  destruct Hw as (Hs & Hlo & _). destruct Hw' as (Hs' & Hlo' & _).
  assert (stop w0 ≤ next w0' ∨ stop w0' ≤ next w0) as Hor.
  { destruct (decide (t < t')) as [Hl|Hl].
    - left. by apply (Hapart t t').
    - right. apply (Hapart t' t); [done..|lia]. }
  split; [|by exists w0, w0'].
  intros i Hi Hi'. lia.
Qed.

(** A blob one worker is packing is not the blob of another worker. *)
Lemma packing_alone P t t' w w' out out' p pc pc' todo todo' :
  setting → save_inv P → t ≠ t' →
  workers P !! t = Some (w, Some (Packing out p pc todo)) →
  workers P !! t' = Some (w', Some (Packing out' p pc' todo')) →
  in_pack pc = true → False.
Proof.
  intros Hset Hinv Hne Ht Ht' Hin.
  pose proof Hinv as (_ & _ & Hws). pose proof Hset as (Hun & _ & _).
  destruct (Forall2_lookup_r _ _ _ _ _ Hws Ht) as (w0 & Ht0 & Hw).
  destruct (Forall2_lookup_r _ _ _ _ _ Hws Ht') as (w0' & Ht0' & Hw').
  destruct Hw as (_ & _ & _ & _ & _ & Hj). destruct Hw' as (_ & _ & _ & _ & _ & Hj').
  destruct (Hj _ eq_refl) as (Hlt & e & He & _ & Hp & _ & Hmid & _).
  destruct (Hj' _ eq_refl) as (Hlt' & e' & He' & _ & Hp' & _).
  destruct (Hmid Hin) as (_ & _ & Hskip).
  destruct (workers_apart P t t' _ _ Hset Hinv Hne Ht Ht' Hlt Hlt') as [Hdis _].
  cbn [fst] in *.
  assert (next w ≠ next w') as Hnext.
  { intros E. apply (Hdis (next w)); [lia|]. rewrite E. lia. }
  rewrite (Hun _ _ _ _ p He He' Hnext Hp Hp') in Hskip. done.
Qed.

Lemma advance_guard first out todo out' p pc todo' :
  advance first out todo = Packing out' p pc todo' → pc = AtGuard.
Proof.
  revert first out. induction todo as [|[k [v|q]] todo IH]; intros first out; cbn [advance].
  - done.
  - apply IH.
  - by intros [= _ _ <- _].
Qed.

Lemma save_inv_update P t w0 h' ls' wj' :
  save_inv P → tasks0 !! t = Some w0 →
  length ls' = length entries →
  (∀ p, blob_inv h' (<[t := wj']> (workers P)) p) →
  worker_inv h' ls' w0 wj' →
  (∀ t' w0' wj'', t' ≠ t → tasks0 !! t' = Some w0' → workers P !! t' = Some wj'' →
     worker_inv (blobs P) (line_buffer P) w0' wj'' → worker_inv h' ls' w0' wj'') →
  save_inv (mkSavePool h' ls' (<[t := wj']> (workers P))).
Proof.
  intros (Hlen & Hblobs & Hws) Ht0 Hlen' Hblobs' Hw' Hothers.
  split; [done|]. split; [done|]. cbn [blobs line_buffer workers].
  apply Forall2_same_length_lookup. split.
  - rewrite length_insert. by eapply Forall2_length.
  - intros t' w0' wj'' Ht0' Ht'. destruct (decide (t' = t)) as [->|Hne].
    + assert (t < length (workers P)) as Hlt.
      { rewrite <- (Forall2_length _ _ _ Hws). by eapply lookup_lt_Some. }
      rewrite list_lookup_insert_eq in Ht' by done.
      assert (w0' = w0) as -> by congruence. by injection Ht' as <-.
    + rewrite list_lookup_insert_ne in Ht' by done.
      apply (Hothers t'); [done..|].
      destruct (Forall2_lookup_r _ _ _ _ _ Hws Ht') as (w0'' & Ht0'' & Hw'').
      by replace w0' with w0'' by congruence.
Qed.

(** A blob keeps its state when the worker that moves is not the one
    packing it and the blob is not written. *)
Lemma blob_inv_keep (h h' : heap) ws t wj' p :
  h' !!! p = h !!! p →
  (∀ w out pc todo, ws !! t = Some (w, Some (Packing out p pc todo)) → in_pack pc = false) →
  blob_inv h ws p → blob_inv h' (<[t := wj']> ws) p.
Proof.
  intros Hsame Hnot [Hb|[Hb|(t' & w & out & pc & todo & Ht' & Hin)]].
  - left. by rewrite Hsame.
  - right. left. by rewrite Hsame.
  - right. right. exists t', w, out, pc, todo. split; [|done].
    destruct (decide (t' = t)) as [->|Hne].
    + rewrite (Hnot _ _ _ _ Ht') in Hin. done.
    + by rewrite list_lookup_insert_ne.
Qed.

Lemma save_inv_step P t : setting → save_inv P → save_inv (save_step entries P t).
Proof.
  intros Hset Hinv. unfold save_step.
  destruct (workers P !! t) as [[w cur]|] eqn:Ht; [|done].
  destruct (task_done w) eqn:Hdone; [done|].
  pose proof Hinv as (Hlen & Hblobs & Hws). pose proof Hset as (Hun & Hlaunched & Hapart).
  destruct (Forall2_lookup_r _ _ _ _ _ Hws Ht) as (w0 & Ht0 & Hw).
  pose proof Hw as (Hs & Hlo & Hhi & Hth & Hlines & Hjob). cbn [fst snd] in *.
  assert (launched entries w0) as (_ & _ & Hin).
  { eapply Forall_forall; [exact Hlaunched|]. by eapply list_elem_of_lookup_2. }
  unfold task_done in Hdone. rewrite Hth in Hdone. apply Nat.leb_gt in Hdone.
  destruct (lookup_lt_is_Some_2 entries (next w)) as [e He]; [lia|].
  rewrite He. change (default ∅ (snd <$> Some e)) with e.2.
  set (j := match cur with Some j => j | None => advance true [] (map_to_list e.2) end).
  assert (job_inv (blobs P) e.2 j) as Hj.
  { unfold j. destruct cur as [j0|]; [|apply begin_inv].
    destruct (Hjob j0 eq_refl) as (_ & e' & He' & Hj0). by replace e with e' by congruence. }
  assert (∀ w' out p pc todo,
            workers P !! t = Some (w', Some (Packing out p pc todo)) →
            j = Packing out p pc todo) as Hcur.
  { intros w' out p pc todo Ht'. rewrite Ht in Ht'. injection Ht' as _ ->. done. }
  assert (∀ out p pc todo, j = Packing out p pc todo → in_pack pc = true →
            workers P !! t = Some (w, Some j)) as Hmine.
  { intros out p pc todo Ej Hpc. unfold j in Ej |- *. destruct cur as [j0|]; [done|].
    apply advance_guard in Ej. by subst pc. }
  (* the workers other than [t] when the buffer is stored to at [next w] *)
  assert (∀ t' w0' wj'', t' ≠ t → tasks0 !! t' = Some w0' → workers P !! t' = Some wj'' →
            worker_inv (blobs P) (line_buffer P) w0' wj'' →
            ∀ i, next w0' ≤ i < next wj''.1 → i ≠ next w) as Hrange.
  { intros t' w0' wj'' Hne Ht0' Ht' (Hs' & Hlo' & Hhi' & _) i Hi.
    destruct (decide (t < t')) as [Hl|Hl].
    - pose proof (Hapart t t' w0 w0' Ht0 Ht0' Hl). lia.
    - pose proof (Hapart t' t w0' w0 Ht0' Ht0 ltac:(lia)). lia. }
  clearbody j. destruct j as [out q pc todo|out].
  - destruct Hj as (Hline & Hq & Htodo & Hmid & Hret).
    destruct (returned pc) eqn:Hr.
    + (* the text of the packed blob is appended *)
      assert (pc = Returned) as -> by (by destruct pc).
      rewrite (Hret eq_refl).
      apply (save_inv_update P t w0); [done..| | |].
      * intros p. apply (blob_inv_keep (blobs P)); [done| |done].
        intros w' out' pc' todo' Ht'. apply Hcur in Ht'. by simplify_eq.
      * unfold worker_inv. cbn [fst snd]. split_and!; try done.
        intros j' [= <-]. split; [done|]. exists e. split; [done|].
        apply advance_inv; [|done]. cbn [complete] in Hline.
        rewrite <- Hline. unfold rest_text. by rewrite <- !app_assoc.
      * intros t' w0' wj'' Hne Ht0' Ht' Hw'. done.
    + destruct (in_pack pc) eqn:Hpc; [|assert (pc = AtGuard) as -> by (by destruct pc)].
      2:{ (* the guard *)
        rewrite pack_step_guard.
        assert (blobs P !!! q = h0 !!! q ∨ blobs P !!! q = pack (h0 !!! q)) as Hstate.
        { destruct (Hblobs q) as [Hb|[Hb|(t' & w' & out' & pc' & todo' & Ht' & Hin')]];
            [by left|by right|exfalso].
          destruct (decide (t' = t)) as [->|Hne].
          - apply Hcur in Ht'. by simplify_eq.
          - destruct (Forall2_lookup_r _ _ _ _ _ Hws Ht') as (w0' & Ht0' & Hw').
            destruct Hw' as (_ & _ & _ & _ & _ & Hj'). cbn [fst snd] in Hj'.
            destruct (Hj' _ eq_refl) as (Hlt' & e' & He' & _ & Hp' & _ & Hmid' & _).
            destruct (Hmid' Hin') as (_ & _ & Hskip).
            assert (next w' ≠ next w) as Hnext.
            { destruct (Forall2_lookup_r _ _ _ _ _ Hws Ht') as (w0'' & Ht0'' & Hw'').
              assert (w0'' = w0') as -> by congruence.
              destruct Hw'' as (Hs' & Hlo' & Hhi' & _). cbn [fst] in *.
              destruct (decide (t < t')) as [Hl|Hl].
              - pose proof (Hapart t t' w0 w0' Ht0 Ht0' Hl). lia.
              - pose proof (Hapart t' t w0' w0 Ht0' Ht0 ltac:(lia)). lia. }
            rewrite (Hun _ _ _ _ q He' He Hnext Hp' Hq) in Hskip. done. }
        assert (∀ pc', pc' = Returned ∨ pc' = AtSize →
                  (pc' = Returned → blobs P !!! q = pack (h0 !!! q)) →
                  (pc' = AtSize → blobs P !!! q = h0 !!! q ∧ pack_skips (h0 !!! q) = false) →
                  save_inv (mkSavePool (<[q := blobs P !!! q]> (blobs P)) (line_buffer P)
                              (<[t := (w, Some (Packing out q pc' todo))]> (workers P)))) as Hgo.
        { intros pc' Hpc' Hcase1 Hcase2.
          apply (save_inv_update P t w0); [done..| | |].
          - intros p. destruct (decide (p = q)) as [->|Hpq].
            + rewrite <- (insert_same_total (blobs P) q q) in Hstate.
              destruct Hstate as [Hb|Hb]; [by left|by right; left].
            + apply (blob_inv_keep (blobs P)); [apply insert_same_total| |done].
              intros w' out' pc'' todo' Ht'. apply Hcur in Ht'. by simplify_eq.
          - unfold worker_inv. cbn [fst snd]. split_and!; try done.
            intros j' [= <-]. split; [done|]. exists e. split; [done|].
            split; [done|]. split; [done|]. split; [done|]. rewrite insert_same_total. split.
            + intros Hin'. destruct Hpc' as [->| ->]; [done|].
              destruct (Hcase2 eq_refl) as [Hb Hskip]. by split_and!.
            + done.
          - intros t' w0' wj'' Hne Ht0' Ht' Hw'.
            eapply worker_inv_frame; [| |exact Hw']; [|done].
            intros. apply insert_same_total. }
        destruct (pack_skips (blobs P !!! q)) eqn:Hskip.
        -- apply Hgo; [by left| |done]. intros _.
           destruct Hstate as [Hb|Hb]; [|done]. rewrite Hb in Hskip |- *.
           by rewrite pack_skip.
        -- apply Hgo; [by right|done|]. intros _.
           destruct Hstate as [Hb|Hb]; [by rewrite <- Hb|].
           rewrite Hb, pack_skips_pack in Hskip. done. }
      * (* inside the call *)
        destruct (Hmid eq_refl) as (Hb & Hv & Hskip).
        destruct (pack_step_mid _ _ Hskip Hpc Hv) as (pc' & Hstep & Hv' & Hng').
        rewrite Hb, Hstep.
        pose proof (Hmine _ _ _ _ eq_refl Hpc) as Ht_now.
        apply (save_inv_update P t w0); [done..| | |].
        -- intros p. destruct (decide (p = q)) as [->|Hpq].
           ++ destruct (in_pack pc') eqn:Hin'.
              ** right. right. exists t, w, out, pc', todo. split; [|done].
                 apply list_lookup_insert_eq. by eapply lookup_lt_Some.
              ** assert (pc' = Returned) as -> by (by destruct pc').
                 right. left. by rewrite lookup_total_insert_eq.
           ++ apply (blob_inv_keep (blobs P)); [by rewrite lookup_total_insert_ne| |done].
              intros w' out' pc'' todo' Ht'. apply Hcur in Ht'. by simplify_eq.
        -- unfold worker_inv. cbn [fst snd]. split_and!; try done.
           intros j' [= <-]. split; [done|]. exists e. split; [done|].
           split; [done|]. split; [done|]. split; [done|].
           rewrite lookup_total_insert_eq. split; [done|]. by intros ->.
        -- intros t' w0' wj'' Hne Ht0' Ht' Hw'.
           eapply worker_inv_frame; [| |exact Hw']; [|done].
           intros out' p pc'' todo' Hwj. destruct (decide (p = q)) as [->|Hpq];
             [|by rewrite lookup_total_insert_ne].
           exfalso. destruct wj'' as [w'' cur'']. cbn [snd] in Hwj. subst cur''.
           by apply (packing_alone P t t' _ _ _ _ _ _ _ _ _ Hset Hinv ltac:(done) Ht_now Ht').
  - (* the line is stored *)
    destruct Hj as [Hline _]. cbn [complete] in Hline.
    apply (save_inv_update P t w0); [done|done|by rewrite length_insert| | |].
    + intros p. apply (blob_inv_keep (blobs P)); [done| |done].
      intros w' out' pc' todo' Ht'. by apply Hcur in Ht'.
    + unfold worker_inv. cbn [fst snd next stop thrown]. split_and!; try done; try lia.
      intros i e' Hi He'. destruct (decide (i = next w)) as [->|Hne].
      * assert (e' = e) as -> by congruence. rewrite Hline.
        apply list_lookup_insert_eq. lia.
      * rewrite list_lookup_insert_ne by done. apply Hlines; [lia|done].
    + intros t' w0' wj'' Hne Ht0' Ht' Hw'.
      eapply worker_inv_frame; [| |exact Hw']; [done|].
      intros i Hi. rewrite list_lookup_insert_ne; [done|].
      intros E. by apply (Hrange t' w0' wj'' Hne Ht0' Ht' Hw' i Hi).
Qed.

Lemma save_inv_run schedule P :
  setting → save_inv P → save_inv (foldl (save_step entries) P schedule).
Proof.
  intros Hset. revert P. induction schedule as [|t schedule IH]; intros P HP; [done|].
  simpl. by apply IH, save_inv_step.
Qed.

Lemma save_inv_init :
  setting →
  save_inv (mkSavePool h0 (replicate (length entries) []) ((λ w, (w, None)) <$> tasks0)).
Proof.
  intros (_ & Hl & _). split; [apply length_replicate|]. split; [by left|].
  cbn [blobs line_buffer workers]. apply Forall2_fmap_r, Forall_Forall2_diag.
  eapply Forall_impl; [exact Hl|]. intros w0 (Hth & Hle & _).
  unfold worker_inv. cbn [fst snd]. split_and!; try done. intros i e Hi. simpl in Hi. lia.
Qed.

(** Once every worker is done, the buffer holds the line of every entry of
    a range and no future holds an exception. *)
Lemma save_inv_done P :
  save_inv P → forallb (λ wj, task_done wj.1) (workers P) = true →
  concat (task_indices <$> tasks0) = seq 0 (length entries) →
  line_buffer P = (λ e, line_of e.2) <$> entries ∧
  first_failure ((λ wj, thrown wj.1) <$> workers P) = None.
Proof.
  intros (Hlen & _ & Hws) Hdone Hcover. rewrite forallb_forall in Hdone. split.
  - apply list_eq. intros i. rewrite list_lookup_fmap.
    destruct (entries !! i) as [e|] eqn:He.
    + assert (i ∈ concat (task_indices <$> tasks0)) as Hi.
      { rewrite Hcover. apply elem_of_seq. apply lookup_lt_Some in He. lia. }
      apply elem_of_concat in Hi as (l & Hil & Hl).
      apply list_elem_of_fmap in Hl as (w0 & -> & Hw0).
      apply list_elem_of_lookup in Hw0 as (t & Ht0).
      destruct (Forall2_lookup_l _ _ _ _ _ Hws Ht0) as ([w cur] & Ht & Hw).
      destruct Hw as (Hs & Hlo & Hhi & Hth & Hlines & _). cbn [fst snd] in *.
      assert (task_done w = true) as Hd.
      { apply (Hdone (w, cur)). apply list_elem_of_In. by eapply list_elem_of_lookup_2. }
      unfold task_done in Hd. rewrite Hth in Hd. apply Nat.leb_le in Hd.
      unfold task_indices in Hil. apply elem_of_seq in Hil.
      apply (Hlines i e); [lia|done].
    + apply lookup_ge_None. rewrite Hlen. by apply lookup_ge_None.
  - apply first_failure_none. apply Forall_fmap, Forall_forall. intros wj Hwj.
    apply list_elem_of_lookup in Hwj as (t & Ht).
    destruct (Forall2_lookup_r _ _ _ _ _ Hws Ht) as (w0 & _ & Hw).
    by destruct Hw as (_ & _ & _ & Hth & _).
Qed.

End Invariant.

(** *** The ranges lie one after the other *)

Lemma launch_from threads t chunk_size total :
  Forall (λ w, t * chunk_size ≤ next w) (launch threads t chunk_size total).
Proof.
  revert t. induction threads as [|threads IH]; intros t; [constructor|].
  cbn [launch]. destruct (total <=? t * chunk_size); [constructor|].
  constructor; [done|]. eapply Forall_impl; [apply IH|]. intros w Hw. cbv beta in *. lia.
Qed.

Lemma launch_apart threads t chunk_size total a b w w' :
  launch threads t chunk_size total !! a = Some w →
  launch threads t chunk_size total !! b = Some w' →
  a < b → stop w ≤ next w'.
Proof.
  revert t a b. induction threads as [|threads IH]; intros t a b; [done|].
  cbn [launch]. destruct (total <=? t * chunk_size); [done|].
  intros Ha Hb Hab. destruct b as [|b]; [lia|]. cbn in Hb.
  destruct a as [|a].
  - injection Ha as <-. cbn [stop].
    pose proof (proj1 (Forall_forall _ _) (launch_from threads (S t) chunk_size total) w'
                  ltac:(by eapply list_elem_of_lookup_2)) as Hfrom.
    cbv beta in Hfrom. lia.
  - cbn in Ha. apply (IH (S t) a b); [done..|lia].
Qed.

Lemma sorted_ids_apart {A} (l : list (N * A)) a b ea eb :
  StronglySorted id_less l → l !! a = Some ea → l !! b = Some eb → a < b →
  (ea.1 < eb.1)%N.
Proof.
  intros Hs. revert a b. induction Hs as [|x l Hl IH Hx]; intros a b Ha Hb Hab; [done|].
  destruct b as [|b]; [lia|]. cbn in Hb. destruct a as [|a].
  - injection Ha as <-. apply (proj1 (Forall_forall _ _) Hx eb).
    by eapply list_elem_of_lookup_2.
  - cbn in Ha. apply (IH a b); [done..|lia].
Qed.

Section Save.
Variable hardware_concurrency : nat.

Lemma unshared_entries h dump a b ea eb p :
  unshared h dump →
  sorted_entries dump !! a = Some ea → sorted_entries dump !! b = Some eb → a ≠ b →
  points_to ea.2 p → points_to eb.2 p → pack_skips (h !!! p) = true.
Proof.
  intros Hun Ha Hb Hab Hpa Hpb.
  destruct (sorted_entries_spec dump) as [_ Hsorted].
  apply (Hun ea.1 eb.1 ea.2 eb.2 p); [by apply sorted_entries_lookup in Ha|
                                       by apply sorted_entries_lookup in Hb| |done|done].
  destruct (decide (a < b)) as [Hlt|Hge].
  - pose proof (sorted_ids_apart _ _ _ _ _ Hsorted Ha Hb Hlt). lia.
  - pose proof (sorted_ids_apart _ _ _ _ _ Hsorted Hb Ha ltac:(lia)). lia.
Qed.

(** Under every interleaving and every positive number of threads, the
    file of a dump whose blobs are not shared between records holds the
    lines of the entries in the order of the sort, each as
    [serialize_to_string] writes it from the blobs of the start. *)
Lemma serialize_to_file_spec h dump max_threads schedule r :
  0 < resolve_threads hardware_concurrency max_threads →
  unshared h dump →
  serialize_to_file_parallel hardware_concurrency h dump max_threads schedule = Some r →
  r.1 = Ok (write_lines ((λ e, line_of h e.2) <$> sorted_entries dump)).
Proof.
  intros Hpos Hun. unfold serialize_to_file_parallel.
  rewrite (proj2 (Nat.eqb_neq _ 0)) by lia. cbv zeta.
  set (threads := resolve_threads hardware_concurrency max_threads) in *.
  set (entries := sorted_entries dump).
  set (tasks0 := launch threads 0 _ (length entries)).
  set (P := foldl _ _ schedule).
  assert (setting h entries tasks0) as Hset.
  { split; [|split].
    - intros a b ea eb p. by apply unshared_entries.
    - apply launch_launched.
    - intros t t' w w'. apply launch_apart. }
  assert (save_inv h entries tasks0 P) as Hinv.
  { apply save_inv_run; [done|]. by apply save_inv_init. }
  destruct (forallb _ _) eqn:Hdone; [|done]. intros [= <-]. cbn [fst].
  destruct (save_inv_done h entries tasks0 P Hinv Hdone) as [-> ->]; [|done].
  unfold tasks0. rewrite launch_indices by (simpl; by apply chunks_cover).
  simpl. by rewrite Nat.sub_0_r.
Qed.

End Save.
End SaveFacts.

(** *** Every save can come to its end *)

Section SaveReturns.
Context `{FloatLib}.
Import Raw PackSteps.
Variable entries : list (N * gmap (list ascii) stored).

(** A bound on the accesses a call of [pack] still makes, the read of
    [encoded()] after it included. *)
Definition pc_cost (pc : pack_pc) (r : RawData) : nat :=
  match pc with
  | AtGuard => length (data_ r) `div` 4 + 7
  | AtSize => length (data_ r) `div` 4 + 6
  | AtResize n => n `div` 4 + 5
  | AtBlock n i => n `div` 4 - i + 4
  | AtTail _ => 3
  | AtClear => 2
  | Returned => 1
  end.

Fixpoint todo_cost (h : heap) (todo : list (list ascii * stored)) : nat :=
  match todo with
  | [] => 1
  | (_, Held _) :: todo' => todo_cost h todo'
  | (_, Shared q) :: todo' => pc_cost AtGuard (h !!! q) + todo_cost h todo'
  end.

Definition job_cost (h : heap) (j : job) : nat :=
  match j with
  | Storing _ => 1
  | Packing _ p pc todo => pc_cost pc (h !!! p) + todo_cost h todo
  end.

Definition entry_cost (h : heap) (i : nat) : nat :=
  todo_cost h (map_to_list (default ∅ (snd <$> entries !! i))).

(** A bound on the moves a worker still makes. *)
Definition worker_cost (h : heap) (wj : task * option job) : nat :=
  if task_done wj.1 then 0
  else
    match wj.2 with
    | Some j => job_cost h j
    | None => entry_cost h (next wj.1)
    end + sum_list (entry_cost h <$> seq (S (next wj.1)) (stop wj.1 - S (next wj.1))).

Definition total_cost (P : save_pool) : nat :=
  sum_list (worker_cost (blobs P) <$> workers P).

(** No blob has more bytes than before. *)
Definition shrinks (h' h : heap) : Prop :=
  ∀ q, length (data_ (h' !!! q)) ≤ length (data_ (h !!! q)).

Lemma shrinks_refl h : shrinks h h.
Proof. intros q. lia. Qed.

Lemma pc_cost_mono pc r' r :
  length (data_ r') ≤ length (data_ r) → pc_cost pc r' ≤ pc_cost pc r.
Proof.
  intros Hle. pose proof (Nat.Div0.div_le_mono _ _ 4 Hle).
  destruct pc; cbn [pc_cost]; lia.
Qed.

Lemma todo_cost_mono h' h todo : shrinks h' h → todo_cost h' todo ≤ todo_cost h todo.
Proof.
  intros Hs. induction todo as [|[k [v|q]] todo IH]; cbn [todo_cost]; [lia|done|].
  pose proof (pc_cost_mono AtGuard _ _ (Hs q)). lia.
Qed.

Lemma todo_cost_pos h todo : 0 < todo_cost h todo.
Proof. induction todo as [|[k [v|q]] todo IH]; cbn [todo_cost]; lia. Qed.

Lemma job_cost_advance h first out todo :
  job_cost h (advance first out todo) = todo_cost h todo.
Proof.
  revert first out. induction todo as [|[k [v|q]] todo IH]; intros first out;
    cbn [advance todo_cost]; [done|apply IH|done].
Qed.

Lemma sum_list_middle (l1 l2 : list nat) x :
  sum_list (l1 ++ x :: l2) = sum_list l1 + x + sum_list l2.
Proof. rewrite sum_list_with_app. cbn [sum_list_with]. unfold id at 2. lia. Qed.

Lemma sum_list_fmap_le {B} (f g : B → nat) l :
  (∀ x, f x ≤ g x) → sum_list (f <$> l) ≤ sum_list (g <$> l).
Proof.
  intros Hfg. induction l as [|x l IH]; [done|].
  rewrite !fmap_cons. cbn [sum_list_with]. pose proof (Hfg x). unfold id in *. lia.
Qed.

Lemma entry_cost_mono h' h i : shrinks h' h → entry_cost h' i ≤ entry_cost h i.
Proof. apply todo_cost_mono. Qed.

Lemma worker_cost_mono h' h wj : shrinks h' h → worker_cost h' wj ≤ worker_cost h wj.
Proof.
  intros Hs. unfold worker_cost. destruct (task_done wj.1); [done|].
  pose proof (sum_list_fmap_le (entry_cost h') (entry_cost h)
                (seq (S (next wj.1)) (stop wj.1 - S (next wj.1)))
                (λ i, entry_cost_mono h' h i Hs)) as Hsum.
  destruct wj.2 as [[out p pc todo|out]|].
  - cbn [job_cost]. pose proof (pc_cost_mono pc _ _ (Hs p)).
    pose proof (todo_cost_mono h' h todo Hs). lia.
  - cbn [job_cost]. lia.
  - pose proof (entry_cost_mono h' h (next wj.1) Hs). lia.
Qed.

(** Every access of [pack] brings the call nearer to its end and leaves
    the bytes as they are or clears them. *)
Lemma pack_step_cost pc r :
  returned pc = false →
  pc_cost (pack_step pc r).1 (pack_step pc r).2 < pc_cost pc r ∧
  length (data_ (pack_step pc r).2) ≤ length (data_ r).
Proof.
  intros Hr.
  assert (∀ n, pc_cost (after_blocks n) r ≤ 3) as Hafter.
  { intros n. unfold after_blocks. destruct (0 <? n `mod` 4); cbn [pc_cost]; lia. }
  assert (∀ n i r', pc_cost (block_or_after n i) r' ≤ n `div` 4 - i + 4 ∧
                    (i < n `div` 4 → pc_cost (block_or_after n i) r' = n `div` 4 - i + 4) ∧
                    (n `div` 4 ≤ i → pc_cost (block_or_after n i) r' ≤ 3)) as Hblock.
  { intros n i r'. unfold block_or_after, after_blocks.
    destruct (Nat.ltb_spec i (n `div` 4)); [cbn [pc_cost]; lia|].
    destruct (0 <? n `mod` 4); cbn [pc_cost]; lia. }
  destruct pc as [| |n|n i|n| |]; try done; cbn [pack_step fst snd data_].
  - destruct (_ || _); cbn [fst snd pc_cost]; lia.
  - cbn [pc_cost]. lia.
  - destruct (Hblock n 0 (mkRawData (data_ r) (resize (encoded_ r) (output_len_of n))))
      as (Hle & _). cbn [pc_cost] in *. lia.
  - destruct (Hblock n (S i)
                (mkRawData (data_ r) (put_group (encoded_ r) (5 * i) (word_at (data_ r) (i * 4)))))
      as (_ & Hlt & Hge).
    cbn [pc_cost] in *. destruct (decide (S i < n `div` 4)); [rewrite Hlt by done|]; lia.
  - cbn [pc_cost]. lia.
  - cbn [pc_cost length]. lia.
Qed.

Lemma shrinks_insert (h : heap) q r :
  length (data_ r) ≤ length (data_ (h !!! q)) → shrinks (<[q := r]> h) h.
Proof.
  intros Hle p. destruct (decide (q = p)) as [->|Hne];
    [by rewrite lookup_total_insert_eq|by rewrite lookup_total_insert_ne].
Qed.

(** A move of a worker that is not done brings it nearer to its end, and
    no other worker further from its own. *)
Lemma save_step_cost P t w cur :
  workers P !! t = Some (w, cur) → task_done w = false →
  ∃ h' ls' wj',
    save_step entries P t = mkSavePool h' ls' (<[t := wj']> (workers P)) ∧
    shrinks h' (blobs P) ∧ worker_cost h' wj' < worker_cost (blobs P) (w, cur).
Proof.
  intros Ht Hdone. unfold save_step. rewrite Ht, Hdone.
  set (j := match cur with Some j => j | None => _ end).
  set (later := λ h, sum_list (entry_cost h <$> seq (S (next w)) (stop w - S (next w)))).
  assert (worker_cost (blobs P) (w, cur) = job_cost (blobs P) j + later (blobs P)) as Hcost.
  { unfold worker_cost, j, later. cbn [fst snd]. rewrite Hdone.
    destruct cur as [j0|]; [done|]. by rewrite job_cost_advance. }
  assert (∀ h' j', shrinks h' (blobs P) → job_cost h' j' < job_cost (blobs P) j →
            worker_cost h' (w, Some j') < worker_cost (blobs P) (w, cur)) as Hstay.
  { intros h' j' Hs Hlt. rewrite Hcost. unfold worker_cost. cbn [fst snd]. rewrite Hdone.
    pose proof (sum_list_fmap_le (entry_cost h') (entry_cost (blobs P))
                  (seq (S (next w)) (stop w - S (next w)))
                  (λ i, entry_cost_mono h' _ i Hs)). unfold later. lia. }
  rewrite Hcost. clearbody j. destruct j as [out q pc todo|out].
  - destruct (returned pc) eqn:Hr.
    + eexists _, _, _. split; [reflexivity|]. split; [apply shrinks_refl|].
      rewrite <- Hcost. apply Hstay; [apply shrinks_refl|]. rewrite job_cost_advance.
      assert (pc = Returned) as -> by (by destruct pc). cbn [job_cost pc_cost]. lia.
    + destruct (pack_step_cost pc (blobs P !!! q) Hr) as [Hlt Hdata].
      destruct (pack_step pc (blobs P !!! q)) as [pc' r] eqn:Hstep. cbn [fst snd] in *.
      eexists _, _, _. split; [reflexivity|].
      assert (shrinks (<[q := r]> (blobs P)) (blobs P)) as Hs by (by apply shrinks_insert).
      split; [done|]. rewrite <- Hcost. apply Hstay; [done|].
      cbn [job_cost]. rewrite lookup_total_insert_eq.
      apply Nat.add_lt_le_mono; [exact Hlt|]. exact (todo_cost_mono _ _ todo Hs).
  - eexists _, _, _. split; [reflexivity|]. split; [apply shrinks_refl|].
    unfold worker_cost. cbn [fst snd job_cost next stop]. unfold task_done at 1.
    cbn [thrown next stop]. unfold later.
    destruct (Nat.leb_spec (stop w) (S (next w))) as [Hle|Hgt]; cbv iota; [lia|].
    replace (stop w - S (next w)) with (S (stop w - S (S (next w)))) by lia.
    cbn [seq]. rewrite fmap_cons. cbn [sum_list_with]. unfold id at 2. lia.
Qed.

Lemma save_step_idle P t :
  (∀ w cur, workers P !! t = Some (w, cur) → task_done w = true) →
  save_step entries P t = P.
Proof.
  intros Hidle. unfold save_step. destruct (workers P !! t) as [[w cur]|] eqn:Ht; [|done].
  by rewrite (Hidle w cur).
Qed.

Lemma worker_cost_pos h w cur : task_done w = false → 0 < worker_cost h (w, cur).
Proof.
  intros Hd. unfold worker_cost. cbn [fst snd]. rewrite Hd.
  destruct cur as [[out p pc todo|out]|].
  - cbn [job_cost]. pose proof (todo_cost_pos h todo). lia.
  - cbn [job_cost]. lia.
  - pose proof (todo_cost_pos h (map_to_list (default ∅ (snd <$> entries !! next w)))).
    unfold entry_cost. lia.
Qed.

Lemma total_cost_lookup P t wj :
  workers P !! t = Some wj → worker_cost (blobs P) wj ≤ total_cost P.
Proof.
  intros Ht. unfold total_cost. rewrite <- (take_drop_middle _ _ _ Ht).
  rewrite fmap_app, fmap_cons, sum_list_middle. lia.
Qed.

Lemma save_step_total P t w cur :
  workers P !! t = Some (w, cur) → task_done w = false →
  total_cost (save_step entries P t) < total_cost P ∧
  length (workers (save_step entries P t)) = length (workers P) ∧
  ∀ t', t' ≠ t → workers (save_step entries P t) !! t' = workers P !! t'.
Proof.
  intros Ht Hdone.
  destruct (save_step_cost P t w cur Ht Hdone) as (h' & ls' & wj' & -> & Hs & Hlt).
  cbn [workers]. split; [|split; [by rewrite length_insert|]].
  - unfold total_cost. cbn [blobs workers].
    assert (t < length (workers P)) as Hl by (by eapply lookup_lt_Some).
    rewrite insert_take_drop by done.
    rewrite <- (take_drop_middle _ _ _ Ht) at 3.
    rewrite !fmap_app, !fmap_cons, !sum_list_middle.
    pose proof (sum_list_fmap_le (worker_cost h') (worker_cost (blobs P))
                  (take t (workers P)) (λ x, worker_cost_mono _ _ x Hs)).
    pose proof (sum_list_fmap_le (worker_cost h') (worker_cost (blobs P))
                  (drop (S t) (workers P)) (λ x, worker_cost_mono _ _ x Hs)).
    lia.
  - intros t' Hne. by rewrite list_lookup_insert_ne.
Qed.

Definition done_in (P : save_pool) (t : nat) : Prop :=
  ∃ w cur, workers P !! t = Some (w, cur) ∧ task_done w = true.

(** As many moves of one worker as the bound is large bring it to its
    end. *)
Lemma run_one_worker n P t :
  total_cost P ≤ n → t < length (workers P) →
  let P' := foldl (save_step entries) P (replicate n t) in
  done_in P' t ∧ total_cost P' ≤ total_cost P ∧
  length (workers P') = length (workers P) ∧
  ∀ t', t' ≠ t → workers P' !! t' = workers P !! t'.
Proof.
  revert P. induction n as [|n IH]; intros P Hn Ht; cbn zeta.
  - destruct (lookup_lt_is_Some_2 _ _ Ht) as [[w cur] Hw]. cbn [replicate foldl].
    split; [|done]. exists w, cur. split; [done|].
    destruct (task_done w) eqn:Hd; [done|].
    pose proof (worker_cost_pos (blobs P) w cur Hd).
    pose proof (total_cost_lookup P t _ Hw). lia.
  - destruct (lookup_lt_is_Some_2 _ _ Ht) as [[w cur] Hw]. cbn [replicate foldl].
    destruct (task_done w) eqn:Hd.
    + rewrite save_step_idle.
      2:{ intros w' cur' Hw'. rewrite Hw in Hw'. by injection Hw' as <- _. }
      assert (∀ m, foldl (save_step entries) P (replicate m t) = P) as Hm.
      { induction m as [|m IHm]; [done|]. cbn [replicate foldl]. rewrite save_step_idle; [done|].
        intros w' cur' Hw'. rewrite Hw in Hw'. by injection Hw' as <- _. }
      rewrite Hm. split; [by exists w, cur|done].
    + destruct (save_step_total P t w cur Hw Hd) as (Hlt & Hlen & Hothers).
      destruct (IH (save_step entries P t) ltac:(lia) ltac:(lia)) as (Hdone & Hle & Hlen' & Ho).
      split; [done|]. split; [lia|]. split; [lia|].
      intros t' Hne. rewrite Ho by done. by apply Hothers.
Qed.

Lemma run_in_turn n ts P :
  total_cost P ≤ n → Forall (λ t, t < length (workers P)) ts →
  let P' := foldl (save_step entries) P (concat (replicate n <$> ts)) in
  length (workers P') = length (workers P) ∧
  ∀ t, t ∈ ts ∨ done_in P t → done_in P' t.
Proof.
  revert P. induction ts as [|t ts IH]; intros P Hn Hts; cbn zeta.
  - split; [done|]. intros t [Ht|Ht]; [by apply elem_of_nil in Ht|done].
  - apply Forall_cons in Hts as [Ht Hts]. rewrite fmap_cons. cbn [concat].
    rewrite foldl_app.
    destruct (run_one_worker n P t Hn Ht) as (Hdone & Hle & Hlen & Hothers).
    set (P1 := foldl (save_step entries) P (replicate n t)) in *.
    destruct (IH P1) as [Hlen' Hall]; [lia|by rewrite Hlen|].
    split; [lia|]. intros t' Ht'. apply Hall.
    destruct (decide (t' = t)) as [->|Hne]; [by right|].
    destruct Ht' as [[->|Ht']%elem_of_cons|(w & cur & Hw & Hd)]; [done|by left|].
    right. exists w, cur. by rewrite Hothers.
Qed.

(** No serializing worker ends with an exception. *)
Lemma save_step_thrown P t :
  Forall (λ wj, thrown wj.1 = None) (workers P) →
  Forall (λ wj, thrown wj.1 = None) (workers (save_step entries P t)).
Proof.
  intros Hall. unfold save_step.
  destruct (workers P !! t) as [[w cur]|] eqn:Ht; [|done].
  destruct (task_done w); [done|].
  assert (thrown w = None) as Hw.
  { apply (proj1 (Forall_forall _ _) Hall (w, cur)). by eapply list_elem_of_lookup_2. }
  destruct (match cur with Some j => j | None => _ end) as [out q pc todo|out].
  - destruct (returned pc); [by apply Forall_insert|].
    destruct (pack_step pc _) as [pc' r]. by apply Forall_insert.
  - by apply Forall_insert.
Qed.

Lemma run_thrown schedule P :
  Forall (λ wj, thrown wj.1 = None) (workers P) →
  Forall (λ wj, thrown wj.1 = None) (workers (foldl (save_step entries) P schedule)).
Proof.
  revert P. induction schedule as [|t schedule IH]; intros P HP; [done|].
  cbn [foldl]. by apply IH, save_step_thrown.
Qed.

End SaveReturns.

(** For every dump, whatever its blobs, and every positive number of
    threads there is an interleaving under which the save returns. *)
Lemma serialize_to_file_returns `{FloatLib} hardware_concurrency h dump max_threads :
  0 < resolve_threads hardware_concurrency max_threads →
  ∃ schedule bytes h',
    serialize_to_file hardware_concurrency h dump max_threads schedule = Some (Ok bytes, h').
Proof.
  intros Hpos. unfold serialize_to_file, serialize_to_file_parallel.
  rewrite (proj2 (Nat.eqb_neq _ 0)) by lia. cbv zeta.
  set (entries := sorted_entries dump).
  set (P0 := mkSavePool h _ _).
  exists (concat (replicate (total_cost entries P0) <$> seq 0 (length (workers P0)))).
  destruct (run_in_turn entries (total_cost entries P0) (seq 0 (length (workers P0))) P0)
    as [Hlen Hall]; [lia| |].
  { apply Forall_forall. intros t Ht. apply elem_of_seq in Ht. lia. }
  set (P := foldl _ _ _) in *.
  assert (forallb (λ wj, task_done wj.1) (workers P) = true) as Hdone.
  { apply forallb_forall. intros [w cur] Hin. apply list_elem_of_In in Hin.
    apply list_elem_of_lookup in Hin as (t & Ht).
    destruct (Hall t) as (w' & cur' & Hw' & Hd).
    { left. apply elem_of_seq. apply lookup_lt_Some in Ht. lia. }
    rewrite Ht in Hw'. by injection Hw' as <- _. }
  rewrite Hdone.
  assert (first_failure ((λ wj, thrown wj.1) <$> workers P) = None) as ->.
  { apply first_failure_none. apply Forall_fmap. apply run_thrown.
    unfold P0. cbn [workers]. apply Forall_fmap.
    eapply Forall_impl; [apply (launch_launched entries)|]. by intros w (Hth & _). }
  by eexists _, _.
Qed.

(** *** The file of a dump whose blobs are not shared *)

Lemma sorted_entries_fmap {A B} (f : A → B) (m : gmap N A) :
  sorted_entries (f <$> m) = prod_map id f <$> sorted_entries m.
Proof.
  destruct (sorted_entries_spec (f <$> m)) as [Hp1 Hs1].
  destruct (sorted_entries_spec m) as [Hp2 Hs2].
  apply (StronglySorted_unique_strong id_less); [|done| |].
  - intros x y _ _ Hxy Hyx. unfold id_less in *. lia.
  - eapply StronglySorted_fmap; [|exact Hs2]. by intros [i x] [j y].
  - by rewrite Hp1, map_to_list_fmap, Hp2.
Qed.

Section SavedFile.
Context `{FloatLib}.
Variable hardware_concurrency : nat.

Lemma saved_file h dump max_threads schedule r :
  0 < resolve_threads hardware_concurrency max_threads →
  unshared h dump →
  serialize_to_file hardware_concurrency h dump max_threads schedule = Some r →
  r.1 = Ok (write_lines ((λ entry, (serialize_to_string entry.2).1)
                           <$> sorted_entries (view h dump))).
Proof.
  intros Hpos Hun Hsave. rewrite (serialize_to_file_spec _ _ _ _ _ _ Hpos Hun Hsave).
  unfold view. rewrite sorted_entries_fmap, <- list_fmap_compose. done.
Qed.

(** Without a blob shared between two records, the file is the same for
    every positive number of threads and every interleaving. *)
Lemma threads_independent_unshared h dump max_threads1 max_threads2 s1 s2 r1 r2 :
  0 < resolve_threads hardware_concurrency max_threads1 →
  0 < resolve_threads hardware_concurrency max_threads2 →
  unshared h dump →
  serialize_to_file hardware_concurrency h dump max_threads1 s1 = Some r1 →
  serialize_to_file hardware_concurrency h dump max_threads2 s2 = Some r2 →
  r1.1 = r2.1.
Proof.
  intros Hp1 Hp2 Hun H1 H2.
  by rewrite (saved_file _ _ _ _ _ Hp1 Hun H1), (saved_file _ _ _ _ _ Hp2 Hun H2).
Qed.

End SavedFile.

(** C7, at the failing input: two records that point to one blob of four
    bytes, as when one collection is added to a dump under two ids. With one
    thread, the blob is packed for the first line and found packed for the
    second. With two threads, when the second worker passes the guard of
    [pack] before the first has packed the blob and goes on after it, it
    reads a length of zero, resizes the text to nothing and writes an empty
    text; the blob is left with neither bytes nor text. *)
Theorem shared_blob_breaks_thread_independence `{FloatLib} (hardware_concurrency : nat) :
  let blob := Raw.RawData_of_data [1; 2; 3; 4]%Z in
  let record : gmap (list ascii) stored := <[str "r" := Shared 0%N]> ∅ in
  let dump : gmap N (gmap (list ascii) stored) := <[1%N := record]> (<[0%N := record]> ∅) in
  let h : gmap N Raw.RawData := <[0%N := blob]> ∅ in
  let packed_line := str "r=r:" ++ [dquote] ++ str "0rJua" ++ [dquote; char_n] in
  let empty_line := str "r=r:" ++ [dquote; dquote; char_n] in
  Raw.pack blob = Raw.RawData_of_encoded (str "0rJua") ∧
  serialize_to_file hardware_concurrency h dump 1 (replicate 10 0)
  = Some (Ok (packed_line ++ packed_line), <[0%N := Raw.pack blob]> ∅) ∧
  serialize_to_file hardware_concurrency h dump 2 ([1] ++ replicate 7 0 ++ replicate 5 1)
  = Some (Ok (packed_line ++ empty_line), <[0%N := Raw.RawData_default]> ∅).
Proof. repeat split; reflexivity. Qed.

(** X21: when [hardware_concurrency()] answers 0 and no positive number of
    threads is asked for, saving and loading divide by zero in the
    computation of the chunk size, whatever the dump or the file, an empty
    one too. *)
Theorem zero_threads_divide_by_zero `{FloatLib} (flag : bool) (max_threads : Z)
    (h : gmap N Raw.RawData) (dump : gmap N (gmap (list ascii) stored))
    (content : list ascii) (schedule : list nat) :
  (max_threads ≤ 0)%Z →
  serialize_to_file 0 h dump max_threads schedule = Some (Err DivisionByZero, h) ∧
  deserialize_from_file flag 0 content max_threads schedule = Some (Err DivisionByZero).
Proof.
  intros Hmt.
  unfold serialize_to_file, serialize_to_file_parallel, deserialize_from_file,
    deserialize_from_file_parallel, resolve_threads.
  by rewrite (proj2 (Z.leb_le _ _) Hmt).
Qed.

Lemma zero_threads_divide_by_zero_witness :
  (0 ≤ 0)%Z ∧
  serialize_to_file 0 ∅ ∅ 0 [] = Some (Err DivisionByZero, ∅) ∧
  deserialize_from_file false 0 [] 0 [] = Some (Err DivisionByZero).
Proof.
  assert (0 ≤ 0)%Z as Hmt by lia.
  split; [exact Hmt|]. exact (zero_threads_divide_by_zero false 0 ∅ ∅ [] [] Hmt).
Defined.

(** *** Saving and loading *)

Section RoundTrip.
Context `{FloatLib}.
Variable hardware_concurrency : nat.

(** The text of a blob holds no line break. *)
Definition blob_one_line (v : FonValue) : Prop :=
  match v with
  | VRaw (Some raw) => one_line (Raw.encoded_ (Raw.pack raw))
  | _ => True
  end.

(** A record a file carries: not empty, its keys and values carried by a
    line and free of line breaks. *)
Definition record_ok (c : FonCollection) : Prop :=
  c ≠ ∅ ∧
  map_Forall (λ k v, key_ok k ∧ one_line k ∧ wf_value v ∧ blob_one_line v) c.

Lemma reparses_one_line {T} (parse : list ascii → result (T * nat)) text x :
  reparses parse text x → one_line text.
Proof. intros (_ & Hp & _). eapply Forall_impl; [exact Hp|]. apply plain_no_break. Qed.

Lemma wf_value_one_line v : wf_value v → blob_one_line v → value_one_line v.
Proof.
  destruct v as [x|x|x|x|x|x|x|x|b|s|[raw|]|l|l|l|l|l|l|l|l|l|l];
    cbn [wf_value blob_one_line value_one_line]; try done.
  - intros Hv _. by eapply reparses_one_line.
  - intros Hv _. by eapply reparses_one_line.
  - intros Hv _. eapply Forall_impl; [exact Hv|]. intros x. apply reparses_one_line.
  - intros Hv _. eapply Forall_impl; [exact Hv|]. intros x. apply reparses_one_line.
Qed.

Lemma deserialize_line_record (m : FonCollection) :
  map_Forall (λ k v, key_ok k ∧ wf_value v) m →
  deserialize_line false (serialize_to_string m).1 = Ok (serialize_to_string m).2.
Proof.
  intros Hm. unfold serialize_to_string. cbn [fst snd].
  change (λ value, (serialize_value value).2) with after_serialize.
  rewrite <- foldl_add_entry_map.
  apply deserialize_line_entries. apply Forall_forall. intros [k v] Hin.
  unfold FonCollection in *. apply elem_of_map_to_list in Hin. by apply Hm in Hin.
Qed.

Lemma parse_lines_fmap {A} (f : A → list ascii) (g : A → FonCollection) (l : list A) :
  Forall (λ a, deserialize_line false (f a) = Ok (g a)) l →
  parse_lines false (f <$> l) = Ok (g <$> l).
Proof.
  induction 1 as [|a l Ha _ IH]; [done|].
  rewrite !fmap_cons. cbn [parse_lines]. by rewrite Ha, bind_Ok, IH.
Qed.

Lemma record_ok_line c :
  record_ok c →
  (serialize_to_string c).1 ≠ [] ∧ one_line (serialize_to_string c).1 ∧
  deserialize_line false (serialize_to_string c).1 = Ok (serialize_to_string c).2 ∧
  (0 <? size (serialize_to_string c).2) = true.
Proof.
  intros [Hne Hall]. split; [by apply serialize_to_string_nonempty|].
  split; [|split].
  - apply serialize_to_string_one_line. intros k v Hkv.
    destruct (Hall k v Hkv) as (_ & ? & ? & ?). split; [done|]. by apply wf_value_one_line.
  - apply deserialize_line_record. intros k v Hkv.
    by destruct (Hall k v Hkv) as (? & _ & ? & _).
  - apply Nat.ltb_lt. unfold serialize_to_string. cbn [snd].
    unfold FonCollection in *. rewrite map_size_fmap.
    destruct (decide (size c = 0)) as [E|E]; [|lia]. by apply map_size_empty_iff in E.
Qed.

(** The dump after a save: every record as [serialize_to_string] left
    it. *)
Definition after_save (dump : FonDump) : FonDump :=
  (λ c : FonCollection, (serialize_to_string c).2) <$> (dump : gmap N FonCollection).

(** What a load makes of the file a save wrote. *)
Lemma load_saved (dump : FonDump) max_threads schedule r :
  0 < resolve_threads hardware_concurrency max_threads →
  map_Forall (λ _ c, record_ok c) dump →
  deserialize_from_file false hardware_concurrency
    (write_lines ((λ entry, (serialize_to_string entry.2).1) <$> sorted_entries dump))
    max_threads schedule = Some r →
  ∃ dump', r = Ok dump' ∧
    ∀ id, dump' !! id
          = (λ e, (serialize_to_string e.2).2) <$> sorted_entries dump !! N.to_nat id.
Proof.
  intros Hpos Hdump Hload. apply load_sequential in Hload; [|done].
  assert (Forall (λ e : N * FonCollection, record_ok e.2) (sorted_entries dump)) as Hrec.
  { apply Forall_forall. intros e [i Hi]%list_elem_of_lookup.
    apply sorted_entries_lookup in Hi. by apply Hdump in Hi. }
  assert (Forall (λ line, line ≠ [] ∧ one_line line)
            ((λ entry : N * FonCollection, (serialize_to_string entry.2).1)
               <$> sorted_entries dump)) as Hlines.
  { apply Forall_fmap. eapply Forall_impl; [exact Hrec|]. intros e He. cbn.
    by destruct (record_ok_line _ He) as (? & ? & _). }
  rewrite (proj1 (split_write_lines _ Hlines)) in Hload.
  rewrite (parse_lines_fmap _ (λ e, (serialize_to_string e.2).2)) in Hload.
  2:{ eapply Forall_impl; [exact Hrec|]. intros e He.
      by destruct (record_ok_line _ He) as (_ & _ & ? & _). }
  rewrite bind_Ok in Hload. subst r.
  exists (build_dump ((λ e : N * FonCollection, (serialize_to_string e.2).2)
                         <$> sorted_entries dump)).
  split; [done|].
  intros id.
  pose proof (build_dump_lookup
    ((λ e : N * FonCollection, (serialize_to_string e.2).2) <$> sorted_entries dump) id) as Hb.
  rewrite list_lookup_fmap in Hb.
  destruct (sorted_entries dump !! N.to_nat id) as [e|] eqn:E; [|exact Hb].
  cbn [fmap option_fmap option_map] in Hb |- *.
  assert (record_ok e.2) as He
    by (apply (proj1 (Forall_forall _ _) Hrec); by eapply list_elem_of_lookup_2).
  destruct (record_ok_line _ He) as (_ & _ & _ & Hsize).
  etrans; [exact Hb|].
  match goal with
  | |- (if ?b then _ else _) = _ => replace b with true by (symmetry; exact Hsize)
  end.
  done.
Qed.

(** A dump read back under the ranks of its ids is the dump itself when
    its ids are all below its size. *)
Lemma ranked_dense (dump dump' : FonDump) :
  (∀ id, dump' !! id
         = (λ e, (serialize_to_string e.2).2) <$> sorted_entries dump !! N.to_nat id) →
  (∀ id, is_Some (dump !! id) → (id < N.of_nat (size dump))%N) →
  dump' = after_save dump.
Proof.
  intros Hlookup Hdense.
  unfold after_save, FonDump in *. apply map_eq. intros id. rewrite Hlookup, lookup_fmap.
  destruct (sorted_entries_spec dump) as [Hperm Hsorted].
  destruct (sorted_entries dump !! N.to_nat id) as [e|] eqn:E.
  - assert (e.1 = id) as Hid.
    { assert (Forall (λ e' : N * FonCollection,
                (0 ≤ e'.1 < 0 + N.of_nat (length (sorted_entries dump)))%N)
                (sorted_entries dump)) as Hin.
      { apply Forall_forall. intros e' [i Hi]%list_elem_of_lookup.
        apply sorted_entries_lookup in Hi. rewrite sorted_entries_length.
        specialize (Hdense e'.1 ltac:(by eexists)).
        split; [lia|]. rewrite N.add_0_l. exact Hdense. }
      rewrite (ascending_dense (sorted_entries dump) 0 Hsorted Hin _ _ E). lia. }
    apply sorted_entries_lookup in E. rewrite Hid in E. cbn [fmap option_fmap option_map].
    transitivity ((λ c : FonCollection, (serialize_to_string c).2) <$> Some e.2); [done|].
    f_equal. symmetry. exact E.
  - apply lookup_ge_None in E. rewrite sorted_entries_length in E.
    destruct (dump !! id) as [c|] eqn:Ec; [|done].
    specialize (Hdense id ltac:(by eexists)).
    assert (size dump ≤ N.to_nat id) as E' by exact E.
    assert (id < N.of_nat (size dump))%N as Hdense' by exact Hdense. lia.
Qed.

(** X22: a save followed by a load. For a dump in which no blob that
    packing would change is pointed to from two records, and whose records
    are non-empty with keys and values a line carries, the file a save writes
    is read back, without unpacking, whatever the threads and interleavings
    of the two calls, as the dump that holds under the id [i] the record with
    the [i]-th smallest id, as serialization left it; when the ids of the
    dump are all below its size, that is the dump itself. *)
Theorem file_round_trip (h : gmap N Raw.RawData) (dump : gmap N (gmap (list ascii) stored))
    (max_threads : Z) (schedule : list nat)
    (written : result (list ascii)) (h' : gmap N Raw.RawData) :
  0 < resolve_threads hardware_concurrency max_threads →
  unshared h dump →
  map_Forall (λ _ c, record_ok c) (view h dump) →
  serialize_to_file hardware_concurrency h dump max_threads schedule = Some (written, h') →
  ∃ bytes, written = Ok bytes ∧
    ∀ max_threads' schedule' r,
      0 < resolve_threads hardware_concurrency max_threads' →
      deserialize_from_file false hardware_concurrency bytes max_threads' schedule' = Some r →
      ∃ dump', r = Ok dump' ∧
        (∀ id, dump' !! id
               = (λ e, (serialize_to_string e.2).2)
                   <$> sorted_entries (view h dump) !! N.to_nat id) ∧
        ((∀ id, is_Some (dump !! id) → (id < N.of_nat (size dump))%N) →
         dump' = after_save (view h dump)).
Proof.
  intros Hpos Hun Hdump Hsave. apply saved_file in Hsave; [|done..]. cbn [fst] in Hsave.
  eexists. split; [exact Hsave|]. intros max_threads' schedule' r Hpos' Hload.
  destruct (load_saved (view h dump) max_threads' schedule' r Hpos' Hdump Hload)
    as (dump' & -> & Hlookup).
  exists dump'. split; [done|]. split; [done|]. intros Hdense.
  apply ranked_dense; [done|]. intros id Hid.
  assert (is_Some (dump !! id)) as Hid'.
  { apply (fmap_is_Some (view_collection h)).
    rewrite <- (lookup_fmap (view_collection h) dump id). exact Hid. }
  refine (eq_ind_r (λ n, (id < N.of_nat n)%N) (Hdense id Hid') _).
  exact (map_size_fmap (view_collection h) dump).
Qed.

(** X23: the lines of a saved file are those of the records of the dump,
    each once, by strictly increasing id, when no blob that packing would
    change is pointed to from two records. *)
Theorem saved_lines_ascend (h : gmap N Raw.RawData) (dump : gmap N (gmap (list ascii) stored))
    (max_threads : Z) (schedule : list nat)
    (written : result (list ascii)) (h' : gmap N Raw.RawData) :
  0 < resolve_threads hardware_concurrency max_threads →
  unshared h dump →
  serialize_to_file hardware_concurrency h dump max_threads schedule = Some (written, h') →
  ∃ entries, entries ≡ₚ map_to_list (view h dump) ∧ StronglySorted id_less entries ∧
    written = Ok (write_lines ((λ entry, (serialize_to_string entry.2).1) <$> entries)).
Proof.
  intros Hpos Hun Hsave. apply saved_file in Hsave; [|done..].
  exists (sorted_entries (view h dump)). by destruct (sorted_entries_spec (view h dump)).
Qed.

End RoundTrip.

(** A dump of two records, the second with a blob of four bytes behind a
    pointer, and its file. *)
Definition stored_heap : gmap N Raw.RawData :=
  <[5%N := Raw.RawData_of_data [1; 2; 3; 4]%Z]> ∅.

Definition stored_dump : gmap N (gmap (list ascii) stored) :=
  <[1%N := <[str "r" := Shared 5%N]> ∅]> (<[0%N := <[str "a" := Held (VInt 1)]> ∅]> ∅).

Definition stored_file : list ascii :=
  str "a=i:1" ++ [char_n] ++ str "r=r:" ++ [dquote] ++ str "0rJua" ++ [dquote; char_n].

Lemma stored_dump_unshared : unshared stored_heap stored_dump.
Proof.
  assert (∀ i c p, stored_dump !! i = Some c → points_to c p → i = 1%N) as Hone.
  { intros i c p Hi [k Hk]. unfold stored_dump in Hi.
    apply lookup_insert_Some in Hi as [[<- _]|[_ Hi]]; [done|].
    apply lookup_insert_Some in Hi as [[_ <-]|[_ Hi]]; [|done].
    apply lookup_insert_Some in Hk as [[_ Hk]|[_ Hk]]; done. }
  intros i j ci cj p Hi Hj Hne Hpi Hpj.
  destruct Hne. by rewrite (Hone i ci p), (Hone j cj p).
Qed.

Lemma stored_dump_ok : map_Forall (λ _ c, record_ok c) (view stored_heap stored_dump).
Proof.
  assert (view stored_heap stored_dump
          = <[1%N := <[str "r" := VRaw (Some (Raw.RawData_of_data [1; 2; 3; 4]%Z))]> ∅]>
              (<[0%N := <[str "a" := VInt 1]> ∅]> ∅)) as -> by reflexivity.
  assert (∀ k v, key_ok (str k) → one_line (str k) → wf_value v → blob_one_line v →
            record_ok (<[str k := v]> (∅ : gmap (list ascii) FonValue))) as Hrec.
  { intros k v Hk Hl Hv Hb. unfold record_ok, FonCollection. split; [apply insert_non_empty|].
    apply map_Forall_insert_2; [|apply map_Forall_empty]. by split_and!. }
  apply map_Forall_insert_2; [|apply map_Forall_insert_2; [|apply map_Forall_empty]].
  - apply Hrec; [done| | |].
    + apply Forall_cons_2; [reflexivity|apply Forall_nil_2].
    + split; [done|]. by apply pack_quote_safe.
    + cbn [blob_one_line]. repeat (apply Forall_cons_2; [reflexivity|]). apply Forall_nil_2.
  - apply Hrec; [done| |unfold wf_value, in_range; simpl; lia|done].
    apply Forall_cons_2; [reflexivity|apply Forall_nil_2].
Qed.

Lemma file_round_trip_witness :
  0 < resolve_threads 4 2 ∧
  unshared stored_heap stored_dump ∧
  map_Forall (λ _ c, record_ok c) (view stored_heap stored_dump) ∧
  serialize_to_file 4 stored_heap stored_dump 2 [1; 0; 1; 1; 1; 1; 1; 1]
  = Some (Ok stored_file, <[5%N := Raw.RawData_of_encoded (str "0rJua")]> ∅) ∧
  deserialize_from_file false 4 stored_file 1 [0; 0]
  = Some (Ok (after_save (view stored_heap stored_dump))) ∧
  ∃ bytes, Ok stored_file = Ok bytes ∧
    ∀ max_threads' schedule' r,
      0 < resolve_threads 4 max_threads' →
      deserialize_from_file false 4 bytes max_threads' schedule' = Some r →
      ∃ dump', r = Ok dump' ∧
        (∀ id, dump' !! id
               = (λ e, (serialize_to_string e.2).2)
                   <$> sorted_entries (view stored_heap stored_dump) !! N.to_nat id) ∧
        ((∀ id, is_Some (stored_dump !! id) → (id < N.of_nat (size stored_dump))%N) →
         dump' = after_save (view stored_heap stored_dump)).
Proof.
  assert (0 < resolve_threads 4 2) as Hpos by (unfold resolve_threads; simpl; lia).
  assert (serialize_to_file 4 stored_heap stored_dump 2 [1; 0; 1; 1; 1; 1; 1; 1]
          = Some (Ok stored_file, <[5%N := Raw.RawData_of_encoded (str "0rJua")]> ∅)) as Hsave
    by reflexivity.
  split; [exact Hpos|]. split; [exact stored_dump_unshared|].
  split; [exact stored_dump_ok|]. split; [exact Hsave|]. split; [reflexivity|].
  exact (file_round_trip 4 stored_heap stored_dump 2 _ _ _ Hpos stored_dump_unshared
           stored_dump_ok Hsave).
Defined.

Lemma saved_lines_ascend_witness :
  0 < resolve_threads 4 1 ∧
  unshared stored_heap stored_dump ∧
  serialize_to_file 4 stored_heap stored_dump 1 (replicate 8 0)
  = Some (Ok stored_file, <[5%N := Raw.RawData_of_encoded (str "0rJua")]> ∅) ∧
  ∃ entries, entries ≡ₚ map_to_list (view stored_heap stored_dump) ∧
    StronglySorted id_less entries ∧
    Ok stored_file = Ok (write_lines ((λ entry, (serialize_to_string entry.2).1) <$> entries)).
Proof.
  assert (0 < resolve_threads 4 1) as Hpos by (unfold resolve_threads; simpl; lia).
  assert (serialize_to_file 4 stored_heap stored_dump 1 (replicate 8 0)
          = Some (Ok stored_file, <[5%N := Raw.RawData_of_encoded (str "0rJua")]> ∅)) as Hsave
    by reflexivity.
  split; [exact Hpos|]. split; [exact stored_dump_unshared|]. split; [exact Hsave|].
  exact (saved_lines_ascend 4 stored_heap stored_dump 1 _ _ _ Hpos stored_dump_unshared Hsave).
Defined.

(** ** Containers and exported functions *)

Section ContainerProps.
Context `{FloatLib}.

(** X24: [FonDump::add] replaces the collection an id holds, [try_add]
    keeps it: after [add] the id holds the new collection; after [try_add]
    it holds the old one when there was one, and the flag says whether the
    new one went in; no other id changes, and the size grows by one exactly
    when the id was new. *)
Theorem add_replaces_try_add_keeps (id : N) (c : FonCollection) (d : FonDump) :
  dump_try_get id (dump_add id c d) = Some c ∧
  dump_try_get id (dump_try_add id c d).1 = Some (default c (dump_try_get id d)) ∧
  (dump_try_add id c d).2 = bool_decide (dump_try_get id d = None) ∧
  (∀ id', id' ≠ id →
     dump_try_get id' (dump_add id c d) = dump_try_get id' d ∧
     dump_try_get id' (dump_try_add id c d).1 = dump_try_get id' d) ∧
  dump_size (dump_add id c d)
  = (if bool_decide (dump_try_get id d = None) then S (dump_size d) else dump_size d) ∧
  dump_size (dump_try_add id c d).1 = dump_size (dump_add id c d).
Proof.
  unfold dump_try_get, dump_try_add, dump_add, dump_size, FonDump in *.
  destruct (d !! id) as [c0|] eqn:E; cbn [fst snd default].
  - rewrite lookup_insert_eq. split_and!; try done.
    + intros id' Hne. by rewrite lookup_insert_ne.
    + rewrite bool_decide_false by done.
      rewrite <- (insert_delete_id d id c0) at 2 by done.
      rewrite <- (insert_delete_eq d), !map_size_insert_None by apply lookup_delete_eq. done.
    + rewrite <- (insert_delete_id d id c0) at 1 by done.
      rewrite <- (insert_delete_eq d), !map_size_insert_None by apply lookup_delete_eq. done.
  - rewrite lookup_insert_eq. split_and!; try done.
    + intros id' Hne. by rewrite lookup_insert_ne.
    + by rewrite map_size_insert_None.
Qed.

(** X25: [FonCollection::add] then the typed accessors: the key holds the
    value added, whatever it held; [get<T>] returns it when [T] is its
    alternative and throws [bad_variant_access] when not, where [try_get<T>]
    answers a null pointer; a key that was never added makes [get] throw
    [out_of_range]; other keys are as before. *)
Theorem typed_access_after_add {T} (get_if : FonValue → option T)
    (k : list ascii) (v : FonValue) (c : FonCollection) :
  collection_contains k (collection_add k v c) = true ∧
  collection_get k (collection_add k v c) = inr v ∧
  collection_get_as get_if k (collection_add k v c)
  = match get_if v with Some x => inr x | None => inl bad_variant_access end ∧
  collection_try_get get_if k (collection_add k v c) = get_if v ∧
  (∀ k', collection_contains k' c = false →
     collection_get k' c = inl out_of_range ∧
     collection_get_as get_if k' c = inl out_of_range ∧
     collection_try_get get_if k' c = None) ∧
  (∀ k', k' ≠ k →
     collection_get k' (collection_add k v c) = collection_get k' c ∧
     collection_contains k' (collection_add k v c) = collection_contains k' c).
Proof.
  unfold collection_contains, collection_get, collection_get_as, collection_try_get,
    collection_add, FonCollection in *.
  rewrite lookup_insert_eq. split_and!; try done.
  - intros k' Hk'. apply bool_decide_eq_false in Hk'.
    destruct (c !! k') as [v'|]; [|done]. by destruct Hk'.
  - intros k' Hne. by rewrite lookup_insert_ne.
Qed.

End ContainerProps.

Module FonExportFacts.
Import FonExport.

Lemma c_str_no_nul s : Forall (λ c, c ≠ zero) (c_str s).
Proof.
  induction s as [|c s IH]; [constructor|]. cbn [c_str].
  destruct (Ascii.eqb_spec c zero); [constructor|]. by constructor.
Qed.

Lemma c_str_stops l r : Forall (λ c, c ≠ zero) l → c_str (l ++ zero :: r) = l.
Proof.
  induction 1 as [|c l Hc _ IH]; [done|]. cbn [app c_str].
  by rewrite (proj2 (Ascii.eqb_neq c zero)), IH.
Qed.

Lemma take_padded (l : list ascii) n :
  take n (l ++ replicate n zero) = take n l ++ replicate (n - length l) zero.
Proof.
  rewrite take_app. f_equal. rewrite take_replicate. f_equal. lia.
Qed.

Lemma c_str_padded l n r :
  Forall (λ c, c ≠ zero) l →
  c_str (take n l ++ replicate (n - length l) zero ++ zero :: r) = take n l.
Proof.
  intros Hl.
  assert (Forall (λ c, c ≠ zero) (take n l)) as Ht by (by apply Forall_take).
  destruct (n - length l) as [|m]; cbn [replicate app]; by rewrite c_str_stops.
Qed.

(** The buffer after [strncpy(buffer, src, n); buffer[n] = NUL], for a
    buffer of more than [n] bytes. *)
Lemma copied_c_str (b src : list ascii) n :
  n < length b →
  length (<[n := zero]> (strncpy b src n)) = length b ∧
  c_str (<[n := zero]> (strncpy b src n)) = take n (c_str src).
Proof.
  intros Hn. unfold strncpy.
  assert (length (take n (c_str src ++ replicate n zero)) = n) as Hlen.
  { rewrite length_take, length_app, length_replicate. lia. }
  split.
  - rewrite length_insert, length_app, Hlen, length_drop. lia.
  - rewrite insert_app_r_alt by lia. rewrite Hlen, Nat.sub_diag.
    destruct (drop n b) as [|x r] eqn:E.
    { apply (f_equal length) in E. rewrite length_drop in E. simpl in E. lia. }
    cbn [insert list_insert]. rewrite take_padded, <- app_assoc.
    apply c_str_padded, c_str_no_nul.
Qed.

(** X26: [set_error] on an error record: the code is stored, and the
    message as a C string is the text cut to 255 characters; the 256 bytes of
    the record are never overrun. *)
Theorem set_error_truncates (e : FonError) (c : Z) (text : list ascii) :
  length (message e) = 256 →
  ∃ e', set_error (Some e) c text = Some e' ∧ code e' = c ∧
        length (message e') = 256 ∧ c_str (message e') = take 255 (c_str text).
Proof.
  intros Hlen. eexists. split; [reflexivity|]. cbn [code message]. split; [done|].
  destruct (copied_c_str (message e) text 255) as [Hl Hc]; [lia|]. by rewrite Hl.
Qed.

Lemma set_error_truncates_witness :
  length (message (mkFonError 0 (replicate 256 zero))) = 256 ∧
  ∃ e', set_error (Some (mkFonError 0 (replicate 256 zero))) 4 (str "Invalid argument")
        = Some e' ∧ code e' = 4%Z ∧
        length (message e') = 256 ∧
        c_str (message e') = take 255 (c_str (str "Invalid argument")).
Proof.
  assert (length (message (mkFonError 0 (replicate 256 zero))) = 256) as Hlen by reflexivity.
  split; [exact Hlen|]. exact (set_error_truncates _ 4 (str "Invalid argument") Hlen).
Defined.

Section ApiFacts.
Context `{FloatLib}.
Variable what : access_error → list ascii.
Variable moved_from : FonCollection.

(** X27: an integer added through the exported functions is read back by
    [fon_collection_get_int]; [fon_collection_get_long] on the same key
    fails with the invalid-argument code and the text of
    [bad_variant_access], and a key that is not there fails with the text of
    [out_of_range]; a failing getter leaves the caller's cell as it was. *)
Theorem exported_int_round_trip (c : FonCollection) (k : list ascii) (v old : Z)
    (err : option FonError) :
  let c' := collection_add k (VInt v) c in
  fon_collection_add_int (Some c) (Some k) v err = (FON_OK, Some c', err) ∧
  fon_collection_get_int what (Some c') (Some k) (Some old) err = (FON_OK, Some v, err) ∧
  fon_collection_get_long what (Some c') (Some k) (Some old) err
  = (FON_ERROR_INVALID_ARGUMENT, Some old,
     set_error err FON_ERROR_INVALID_ARGUMENT (what bad_variant_access)) ∧
  (∀ k', collection_contains k' c' = false →
     fon_collection_get_int what (Some c') (Some k') (Some old) err
     = (FON_ERROR_INVALID_ARGUMENT, Some old,
        set_error err FON_ERROR_INVALID_ARGUMENT (what out_of_range))).
Proof.
  intros c'. unfold fon_collection_add_int, add_value, fon_collection_get_int,
    fon_collection_get_long, get_value, collection_get_as, collection_contains.
  unfold c', collection_add, FonCollection in *. rewrite lookup_insert_eq.
  split_and!; try done.
  intros k' Hk'. apply bool_decide_eq_false in Hk'.
  destruct (<[k:=VInt v]> c !! k') as [v'|]; [|done]. by destruct Hk'.
Qed.

(** A boolean goes through the exported functions as 0 or 1: whatever
    non-zero number is added, [fon_collection_get_bool] stores 1. *)
Theorem exported_bool_normalised (c : FonCollection) (k : list ascii) (v old : Z)
    (err : option FonError) :
  ∃ c', fon_collection_add_bool (Some c) (Some k) v err = (FON_OK, Some c', err) ∧
        fon_collection_get_bool what (Some c') (Some k) (Some old) err
        = (FON_OK, Some (if (v =? 0)%Z then 0 else 1)%Z, err).
Proof.
  eexists. split; [reflexivity|].
  unfold fon_collection_get_bool, get_value, collection_get_as.
  unfold collection_add, FonCollection in *. rewrite lookup_insert_eq. cbn [get_if_bool].
  by destruct (v =? 0)%Z.
Qed.

(** X28: [fon_collection_get_string] answers [FON_OK] whether or not the
    text fits: the buffer keeps its size and holds, as a C string, the text
    up to its first NUL cut to [buffer_size - 1] characters. *)
Theorem get_string_truncates (c : FonCollection) (k s b : list ascii) (buffer_size : Z)
    (err : option FonError) :
  c !! k = Some (VString s) → (0 < buffer_size)%Z → Z.to_nat buffer_size ≤ length b →
  ∃ b', fon_collection_get_string what (Some c) (Some k) (Some b) buffer_size err
        = (FON_OK, Some b', err) ∧
        length b' = length b ∧
        c_str b' = take (Z.to_nat (buffer_size - 1)) (c_str s).
Proof.
  intros Hk Hpos Hlen. unfold fon_collection_get_string, collection_get_as.
  rewrite (proj2 (Z.leb_gt _ _)) by lia. rewrite Hk. cbn [get_if_string]. cbv zeta.
  eexists. split; [reflexivity|]. apply copied_c_str. lia.
Qed.

(** X29: [fon_collection_get_int_array] always stores the full number of
    elements, and copies no more than the buffer takes: the buffer keeps its
    size, its first [min(buffer_size, size)] elements are those of the array
    and the others are untouched; without a buffer only the size is
    stored. *)
Theorem get_int_array_copies (c : FonCollection) (k : list ascii) (arr b : list Z)
    (buffer_size old : Z) (err : option FonError) :
  c !! k = Some (VIntArray arr) → (0 < buffer_size)%Z → Z.to_nat buffer_size ≤ length b →
  let m := Z.to_nat (buffer_size `min` Z.of_nat (length arr)) in
  (∃ b', fon_collection_get_int_array what (Some c) (Some k) (Some b) buffer_size
           (Some old) err
         = (FON_OK, Some b', Some (Z.of_nat (length arr)), err) ∧
         length b' = length b ∧ take m b' = take m arr ∧ drop m b' = drop m b) ∧
  fon_collection_get_int_array what (Some c) (Some k) None buffer_size (Some old) err
  = (FON_OK, None, Some (Z.of_nat (length arr)), err).
Proof.
  intros Hk Hpos Hlen m. unfold fon_collection_get_int_array, get_array, collection_get_as.
  rewrite Hk. cbn [get_if_int32_vector]. cbv zeta.
  rewrite (proj2 (Z.ltb_lt _ _)) by lia. split; [|done].
  eexists. split; [reflexivity|]. fold m. unfold memcpy.
  assert (m ≤ length arr) as Hm1 by (unfold m; lia).
  assert (m ≤ length b) as Hm2 by (unfold m; lia).
  assert (length (take m arr) = m) as Ht by (rewrite length_take; lia).
  split_and!.
  - rewrite length_app, Ht, length_drop. lia.
  - rewrite take_app_le by lia. rewrite take_take. f_equal. lia.
  - rewrite drop_app_ge by lia. rewrite Ht, Nat.sub_diag. done.
Qed.

(** X30: [fon_dump_add] moves the collection out of its handle: the dump
    holds the collection under the id, and the handle is left with a
    moved-from map, so a second [fon_dump_add] through the same handle under
    another id stores that map, not the collection. *)
Theorem dump_add_consumes_collection (d : FonDump) (id id' : N) (c : FonCollection)
    (err : option FonError) :
  id ≠ id' →
  ∃ d1 d2,
    fon_dump_add moved_from (Some d) id (Some c) err
    = (FON_OK, Some d1, Some moved_from, err) ∧
    fon_dump_add moved_from (Some d1) id' (Some moved_from) err
    = (FON_OK, Some d2, Some moved_from, err) ∧
    fon_dump_get (Some d1) id = Some c ∧
    fon_dump_get (Some d2) id = Some c ∧
    fon_dump_get (Some d2) id' = Some moved_from.
Proof.
  intros Hne. eexists _, _. split; [reflexivity|]. split; [reflexivity|].
  unfold fon_dump_get, dump_try_get, dump_add, FonDump in *.
  rewrite !lookup_insert_eq, lookup_insert_ne by done. by rewrite lookup_insert_eq.
Qed.

(** A null handle, key, cell or buffer makes every exported function
    answer the invalid-argument code (nothing, or 0, for the functions with
    no code) and change nothing but the error record, which is filled when
    there is one. *)
Theorem null_arguments_refused (c : option FonCollection) (d : option FonDump)
    (k : option (list ascii)) (err : option FonError) (x : Z) (id : N)
    (cell : option Z) (b : option (list ascii)) (ints : option (list Z)) :
  let refused := set_error err FON_ERROR_INVALID_ARGUMENT invalid_argument_message in
  fon_dump_size None = 0%Z ∧ fon_collection_size None = 0%Z ∧
  fon_dump_get None id = None ∧
  fon_dump_add moved_from None id c err = (FON_ERROR_INVALID_ARGUMENT, None, c, refused) ∧
  fon_dump_add moved_from d id None err = (FON_ERROR_INVALID_ARGUMENT, d, None, refused) ∧
  fon_collection_add_int None k x err = (FON_ERROR_INVALID_ARGUMENT, None, refused) ∧
  fon_collection_add_int c None x err = (FON_ERROR_INVALID_ARGUMENT, c, refused) ∧
  fon_collection_add_string c k None err = (FON_ERROR_INVALID_ARGUMENT, c, refused) ∧
  fon_collection_add_int_array c k None x err = (FON_ERROR_INVALID_ARGUMENT, c, refused) ∧
  ((x < 0)%Z →
   fon_collection_add_int_array c k ints x err = (FON_ERROR_INVALID_ARGUMENT, c, refused)) ∧
  fon_collection_get_int what None k cell err = (FON_ERROR_INVALID_ARGUMENT, cell, refused) ∧
  fon_collection_get_int what c None cell err = (FON_ERROR_INVALID_ARGUMENT, cell, refused) ∧
  fon_collection_get_int what c k None err = (FON_ERROR_INVALID_ARGUMENT, None, refused) ∧
  fon_collection_get_string what c k None x err
  = (FON_ERROR_INVALID_ARGUMENT, None, refused) ∧
  ((x ≤ 0)%Z →
   fon_collection_get_string what c k b x err = (FON_ERROR_INVALID_ARGUMENT, b, refused)) ∧
  fon_collection_get_int_array what c k ints x None err
  = (FON_ERROR_INVALID_ARGUMENT, ints, None, refused).
Proof.
  intros refused. unfold refused.
  unfold fon_dump_add, fon_collection_add_int, fon_collection_add_string,
    fon_collection_add_int_array, add_value, fon_collection_get_int, get_value,
    fon_collection_get_string, fon_collection_get_int_array, get_array.
  split_and!; try done.
  all: try (by destruct c).
  all: try (by destruct d).
  all: try (by destruct c, k).
  - intros Hx. destruct ints; [|done]. by rewrite (proj2 (Z.ltb_lt _ _)) by done.
  - intros Hx. destruct c, k, b; try done. by rewrite (proj2 (Z.leb_le _ _)) by done.
Qed.

End ApiFacts.
End FonExportFacts.

(** The texts one standard library gives the two exceptions, and the empty
    map it leaves behind a move. *)
Definition sample_what (e : access_error) : list ascii :=
  match e with
  | out_of_range => str "unordered_map::at"
  | bad_variant_access => str "bad variant access"
  end.

Lemma get_string_truncates_witness :
  let c : FonCollection := <[str "name" := VString (str "abcdef")]> ∅ in
  c !! str "name" = Some (VString (str "abcdef")) ∧ (0 < 4)%Z ∧
  Z.to_nat 4 ≤ length (str "????") ∧
  ∃ b', FonExport.fon_collection_get_string sample_what (Some c) (Some (str "name"))
          (Some (str "????")) 4 None
        = (FonExport.FON_OK, Some b', None) ∧
        length b' = length (str "????") ∧
        FonExport.c_str b' = take (Z.to_nat (4 - 1)) (FonExport.c_str (str "abcdef")).
Proof.
  intros c.
  assert (c !! str "name" = Some (VString (str "abcdef"))) as Hk by reflexivity.
  assert (0 < 4)%Z as Hpos by lia.
  assert (Z.to_nat 4 ≤ length (str "????")) as Hlen by (simpl; lia).
  split; [exact Hk|]. split; [exact Hpos|]. split; [exact Hlen|].
  exact (FonExportFacts.get_string_truncates sample_what c _ _ _ 4 None Hk Hpos Hlen).
Defined.

Lemma get_int_array_copies_witness :
  let c : FonCollection := <[str "tags" := VIntArray [1; 2; 3]%Z]> ∅ in
  c !! str "tags" = Some (VIntArray [1; 2; 3]%Z) ∧ (0 < 2)%Z ∧
  Z.to_nat 2 ≤ length [9; 9; 9; 9]%Z ∧
  FonExport.fon_collection_get_int_array sample_what (Some c) (Some (str "tags"))
    (Some [9; 9; 9; 9]%Z) 2 (Some 0%Z) None
  = (FonExport.FON_OK, Some [1; 2; 9; 9]%Z, Some 3%Z, None) ∧
  FonExport.fon_collection_get_int_array sample_what (Some c) (Some (str "tags"))
    None 2 (Some 0%Z) None
  = (FonExport.FON_OK, None, Some (Z.of_nat (length [1; 2; 3]%Z)), None).
Proof.
  intros c.
  assert (c !! str "tags" = Some (VIntArray [1; 2; 3]%Z)) as Hk by reflexivity.
  assert (0 < 2)%Z as Hpos by lia.
  assert (Z.to_nat 2 ≤ length [9; 9; 9; 9]%Z) as Hlen by (simpl; lia).
  split; [exact Hk|]. split; [exact Hpos|]. split; [exact Hlen|]. split; [reflexivity|].
  exact (proj2 (FonExportFacts.get_int_array_copies sample_what c _ _ _ 2 0 None
                  Hk Hpos Hlen)).
Defined.

Lemma dump_add_consumes_collection_witness :
  let c : FonCollection := <[str "a" := VInt 1]> ∅ in
  1%N ≠ 2%N ∧
  ∃ d1 d2,
    FonExport.fon_dump_add ∅ (Some ∅) 1 (Some c) None
    = (FonExport.FON_OK, Some d1, Some ∅, None) ∧
    FonExport.fon_dump_add ∅ (Some d1) 2 (Some ∅) None
    = (FonExport.FON_OK, Some d2, Some ∅, None) ∧
    FonExport.fon_dump_get (Some d1) 1 = Some c ∧
    FonExport.fon_dump_get (Some d2) 1 = Some c ∧
    FonExport.fon_dump_get (Some d2) 2 = Some ∅.
Proof.
  intros c. assert (1%N ≠ 2%N) as Hne by done.
  split; [exact Hne|].
  exact (FonExportFacts.dump_add_consumes_collection ∅ ∅ 1 2 c None Hne).
Defined.
